(** * A shallow embedding of the read-redux state container

    Sources embedded here:
    - [compose]          (src/unnamed/part_000, the composer),
    - [createStore]      (src/src/createStore.js, the state container),
    - [applyMiddleware]  (src/src/applyMiddleware.js, the pipeline builder),
    - [bindActionCreators] (src/src/bindActionCreators.js).

    JavaScript functions are effectful, so user supplied code (reducers,
    listeners, middleware) is represented by command trees [prog] whose
    nodes are calls into the container; the container itself is a set of
    functions over an explicit record of its closure variables. *)

From Stdlib Require Import ZArith Lia.
From stdpp Require Import base option list strings.

Set Default Proof Using "Type".
Local Open Scope string_scope.
Local Open Scope nat_scope.
Local Open Scope list_scope.

(** * Part 1: the embedding *)

(** ** JavaScript values *)

(** The values that states, actions, listeners and reducers range over.
    [VFun f] is a user function (its body is looked up in a code table),
    [VUnsub h] is the [unsubscribe] closure returned by the [h]-th
    successful call of [subscribe].  The flag of [VObj] tells whether
    the prototype of the object is the one of object literals.  Numbers
    are integers: the container never computes with them. *)
#[warnings="-register-all"]
Inductive value : Type :=
  | VUndefined
  | VNull
  | VBool (b : bool)
  | VNum (z : Z)
  | VStr (s : string)
  | VObj (literal : bool) (props : list (string * value))
  | VFun (f : nat)
  | VUnsub (h : nat).

(** What can stand on the left of a call: [typeof v === 'function']. *)
Inductive callable : Type :=
  | CUser (f : nat)
  | CUnsub (h : nat).

Definition as_callable (v : value) : option callable :=
  match v with
  | VFun f => Some (CUser f)
  | VUnsub h => Some (CUnsub h)
  | _ => None
  end.

(** [typeof v === 'function'] *)
Definition is_function (v : value) : bool :=
  match as_callable v with Some _ => true | None => false end.

Definition callable_eqb (c d : callable) : bool :=
  match c, d with
  | CUser f, CUser g => Nat.eqb f g
  | CUnsub h, CUnsub k => Nat.eqb h k
  | _, _ => false
  end.

(** [typeof v === 'undefined'] *)
Definition is_undefined (v : value) : bool :=
  match v with VUndefined => true | _ => false end.

(** Property read [o.key]; a missing property reads as [undefined]. *)
Fixpoint assoc (key : string) (props : list (string * value)) : value :=
  match props with
  | [] => VUndefined
  | (k, v) :: rest => if String.eqb k key then v else assoc key rest
  end.

Definition get_prop (o : value) (key : string) : value :=
  match o with
  | VObj _ props => assoc key props
  | _ => VUndefined
  end.

(** Modelled from the spec: the helper [utils/isPlainObject] is imported by
    createStore.js (line 6) and its file is not among the sources
    embedded here.  The spec asks for "a plain structured record": an
    object, not null, with the prototype of an object literal. *)
Definition isPlainObject (v : value) : bool :=
  match v with
  | VObj literal _ => literal
  | _ => false
  end.

(** Modelled from the spec: the table [utils/actionTypes] is imported by
    createStore.js (line 5) and its file is not among the sources
    embedded here.  The spec names two reserved types,
    "@@redux/INIT"-equivalent and "@@redux/REPLACE"-equivalent. *)
Module ActionTypes.
Definition INIT : value := VStr "@@redux/INIT".
Definition REPLACE : value := VStr "@@redux/REPLACE".
End ActionTypes.

(** The object literal [{ type: t }]. *)
Definition action_of_type (t : value) : value := VObj true [("type", t)].

(** ** Errors *)

(** The exceptions of the three source files, one constructor per
    [throw] statement, and what user code throws itself. *)
Inductive error : Type :=
  | ErrEnhancerNotFunction      (* createStore.js:55 *)
  | ErrReducerNotFunction       (* createStore.js:63 *)
  | ErrGetStateWhileReducing    (* createStore.js:91 *)
  | ErrListenerNotFunction      (* createStore.js:140 *)
  | ErrSubscribeWhileReducing   (* createStore.js:145 *)
  | ErrUnsubscribeWhileReducing (* createStore.js:165 *)
  | ErrActionNotPlain           (* createStore.js:220 *)
  | ErrActionTypeUndefined      (* createStore.js:227 *)
  | ErrReducersMayNotDispatch   (* createStore.js:234 *)
  | ErrNextReducerNotFunction   (* createStore.js:272 *)
  | ErrDispatchWhileConstructing (* applyMiddleware.js:38 *)
  | ErrNotCallable              (* the TypeError of calling a non-function *)
  | ErrUser (v : value).        (* [throw v] in user code *)

(** ** User code *)

(** The calls user code can make into the container. *)
Inductive op : Type :=
  | OGetState                       (* store.getState() *)
  | OSubscribe (listener : value)   (* store.subscribe(listener) *)
  | OUnsubscribe (h : nat)          (* calling the h-th unsubscribe closure *)
  | ODispatch (action : value)      (* store.dispatch(action), the base one *)
  | OReplaceReducer (r : value)     (* store.replaceReducer(r) *)
  | OApiDispatch (action : value).  (* middlewareAPI.dispatch(action) *)

(** A body of user code: it returns, throws, or calls the container and
    goes on with the result ([k]) or with the exception it caught ([h]);
    [Throw] as [h] is a call outside of any try block. *)
Inductive prog (R : Type) : Type :=
  | Ret (r : R)
  | Throw (e : error)
  | Op (o : op) (k : value → prog R) (h : error → prog R).

Arguments Ret {R} r.
Arguments Throw {R} e.
Arguments Op {R} o k h.

Fixpoint prog_bind {A B : Type} (f : A → prog B) (m : prog A) : prog B :=
  match m with
  | Ret r => f r
  | Throw e => Throw e
  | Op o k h => Op o (λ v, prog_bind f (k v)) (λ e, prog_bind f (h e))
  end.

#[export] Instance prog_ret : MRet prog := @Ret.
#[export] Instance prog_mbind : MBind prog := @prog_bind.

(** A call outside of any try block. *)
Definition call (o : op) : prog value := Op o Ret Throw.

(** [try { p } catch (e) { h e }] *)
Fixpoint catch {R : Type} (p : prog R) (h : error → prog R) : prog R :=
  match p with
  | Ret r => Ret r
  | Throw e => h e
  | Op o k h' => Op o (λ v, catch (k v) h) (λ e, catch (h' e) h)
  end.

(** Pure JavaScript functions: the identity monad. *)
Definition pure (A : Type) : Type := A.
#[export] Instance pure_ret : MRet pure := λ A x, x.
#[export] Instance pure_mbind : MBind pure := λ A B f x, f x.

(** ** The composer (src/unnamed/part_000) *)

Section Compose.
Context {M : Type → Type} `{!MRet M, !MBind M} {A : Type}.

(** Lines 19-29.  A JavaScript function is a function into a monad [M]
    of effects, and [b args ≫= a] is [a(b(...args))]: [b] runs first.
    [funcs.reduce((a, b) => (...args) => a(b(...args)))] has no initial
    value, so it starts from the first element and folds the others
    from the left.  The composite takes one argument here; the source
    hands all the arguments of the composite to the rightmost
    function. *)
Definition compose (funcs : list (A → M A)) : A → M A :=
  match funcs with
  | [] => λ arg, mret arg
  | [f] => f
  | f :: rest => foldl (λ a b, λ args, b args ≫= a) f rest
  end.
End Compose.

(** ** The closure variables of one container *)

(** Ghost events, kept to state what happened during a call; no source
    statement reads them. *)
Inductive event : Type :=
  | EReduce (t : nat) (action : value)    (* transition t calls the reducer *)
  | ECommit (t : nat) (state : value)     (* transition t stores its result *)
  | ENotify (t : nat) (l : callable) (args : list value)
                                          (* the pass of t calls listener l *)
  | EForward (action : value) (installed : bool).
                                          (* middlewareAPI.dispatch is called *)

(** The variables closed over by the functions of [createStore]
    (lines 66-70), the [isSubscribed] variables of the [unsubscribe]
    closures, and the [dispatch] variable of [applyMiddleware] (line 37).
    [currentListeners] and [nextListeners] are references into [arrays]:
    two variables can alias one array. *)
Record world : Type := World {
  currentReducer : value;
  currentState : value;
  currentListeners : nat;
  nextListeners : nat;
  isDispatching : bool;
  arrays : list (list callable);
  subscriptions : list (callable * bool);
  mwDispatch : option (value → prog value);
  transitions : nat;        (* ghost: number of transitions begun *)
  log : list event          (* ghost *)
}.

Definition set_currentReducer (r : value) (w : world) : world :=
  World r (currentState w) (currentListeners w) (nextListeners w)
    (isDispatching w) (arrays w) (subscriptions w) (mwDispatch w)
    (transitions w) (log w).
Definition set_currentState (v : value) (w : world) : world :=
  World (currentReducer w) v (currentListeners w) (nextListeners w)
    (isDispatching w) (arrays w) (subscriptions w) (mwDispatch w)
    (transitions w) (log w).
Definition set_currentListeners (x : nat) (w : world) : world :=
  World (currentReducer w) (currentState w) x (nextListeners w)
    (isDispatching w) (arrays w) (subscriptions w) (mwDispatch w)
    (transitions w) (log w).
Definition set_nextListeners (x : nat) (w : world) : world :=
  World (currentReducer w) (currentState w) (currentListeners w) x
    (isDispatching w) (arrays w) (subscriptions w) (mwDispatch w)
    (transitions w) (log w).
Definition set_isDispatching (b : bool) (w : world) : world :=
  World (currentReducer w) (currentState w) (currentListeners w)
    (nextListeners w) b (arrays w) (subscriptions w) (mwDispatch w)
    (transitions w) (log w).
Definition set_arrays (a : list (list callable)) (w : world) : world :=
  World (currentReducer w) (currentState w) (currentListeners w)
    (nextListeners w) (isDispatching w) a (subscriptions w) (mwDispatch w)
    (transitions w) (log w).
Definition set_subscriptions (s : list (callable * bool)) (w : world) : world :=
  World (currentReducer w) (currentState w) (currentListeners w)
    (nextListeners w) (isDispatching w) (arrays w) s (mwDispatch w)
    (transitions w) (log w).
Definition set_mwDispatch (d : option (value → prog value)) (w : world) : world :=
  World (currentReducer w) (currentState w) (currentListeners w)
    (nextListeners w) (isDispatching w) (arrays w) (subscriptions w) d
    (transitions w) (log w).
Definition begin_transition (w : world) : world :=
  World (currentReducer w) (currentState w) (currentListeners w)
    (nextListeners w) (isDispatching w) (arrays w) (subscriptions w)
    (mwDispatch w) (S (transitions w)) (log w).
Definition record (e : event) (w : world) : world :=
  World (currentReducer w) (currentState w) (currentListeners w)
    (nextListeners w) (isDispatching w) (arrays w) (subscriptions w)
    (mwDispatch w) (transitions w) (log w ++ [e]).

(** The array a reference points to. *)
Definition array_at (w : world) (x : nat) : list callable :=
  default [] (arrays w !! x).

(** What a call gives: a result, an exception, or no answer within the
    allotted number of steps.  The variables are left as the call left
    them in the first two cases. *)
Inductive outcome (R : Type) : Type :=
  | Normal (r : R) (w : world)
  | Thrown (e : error) (w : world)
  | OutOfFuel.

Arguments Normal {R} r w.
Arguments Thrown {R} e w.
Arguments OutOfFuel {R}.

(** ** Arrays *)

(** [arr.indexOf(x)]: the first position of [x], or -1. *)
Fixpoint indexOf (x : callable) (arr : list callable) : Z :=
  match arr with
  | [] => (-1)%Z
  | y :: rest =>
      if callable_eqb y x then 0%Z
      else let i := indexOf x rest in
           if (i <? 0)%Z then (-1)%Z else (i + 1)%Z
  end.

(** [arr.splice(index, 1)]: a negative index counts from the end, the
    start is clamped to the array, and at most one element goes. *)
Definition splice1 (index : Z) (arr : list callable) : list callable :=
  let len := Z.of_nat (length arr) in
  let start := if (index <? 0)%Z then Z.max (len + index) 0
               else Z.min index len in
  delete (Z.to_nat start) arr.

(** ** The state container (src/src/createStore.js) *)

(** Lines 75-79. [nextListeners === currentListeners] compares
    references; [slice] allocates a copy. *)
Definition ensureCanMutateNextListeners (w : world) : world :=
  if Nat.eqb (nextListeners w) (currentListeners w) then
    set_nextListeners (length (arrays w))
      (set_arrays (arrays w ++ [array_at w (currentListeners w)]) w)
  else w.

(** Lines 87-99. *)
Definition getState (w : world) : outcome value :=
  if isDispatching w then Thrown ErrGetStateWhileReducing w
  else Normal (currentState w) w.

(** Lines 138-157: the returned closure is [VUnsub h], with [h] the
    position of its variables in [subscriptions]. *)
Definition subscribe (listener : value) (w : world) : outcome value :=
  match as_callable listener with
  | None => Thrown ErrListenerNotFunction w
  | Some l =>
      if isDispatching w then Thrown ErrSubscribeWhileReducing w
      else
        let w1 := ensureCanMutateNextListeners w in
        let w2 := set_arrays
                    (alter (λ arr, arr ++ [l]) (nextListeners w1) (arrays w1))
                    w1 in
        Normal (VUnsub (length (subscriptions w2)))
               (set_subscriptions (subscriptions w2 ++ [(l, true)]) w2)
  end.

(** Lines 158-177.  A call of a closure that was never created is the
    call of a non-function. *)
Definition unsubscribe (h : nat) (w : world) : outcome value :=
  match subscriptions w !! h with
  | None => Thrown ErrNotCallable w
  | Some (listener, isSubscribed) =>
      if negb isSubscribed then Normal VUndefined w
      else if isDispatching w then Thrown ErrUnsubscribeWhileReducing w
      else
        let w1 := set_subscriptions
                    (<[h := (listener, false)]> (subscriptions w)) w in
        let w2 := ensureCanMutateNextListeners w1 in
        let index := indexOf listener (array_at w2 (nextListeners w2)) in
        Normal VUndefined
          (set_arrays
             (alter (splice1 index) (nextListeners w2) (arrays w2)) w2)
  end.

(** The object returned by [createStore] (lines 331-337): its methods
    are the calls of [op].  The [$$observable] member is derived from
    [subscribe] and [getState] and is left out. *)
Record store : Type := Store {
  st_dispatch : value → prog value;
  st_subscribe : value → prog value;
  st_getState : prog value;
  st_replaceReducer : value → prog value
}.

(** A container-construction function, with the number of nested calls
    it may use: [createStore], or what an enhancer made of it. *)
Definition creator : Type := nat → list value → outcome store.

(** The [i]-th positional argument; a missing one reads as [undefined]. *)
Definition arg (i : nat) (args : list value) : value :=
  default VUndefined (args !! i).

(** Before line 66 has run there are no closure variables. *)
Definition blank : world :=
  World VUndefined VUndefined 0 0 false [] [] None 0 [].

(** Running a body: each call into the container is answered by
    [perform]. *)
Fixpoint run_body (perform : op → world → outcome value) {R : Type}
    (p : prog R) (w : world) : outcome R :=
  match p with
  | Ret r => Normal r w
  | Throw e => Thrown e w
  | Op o k h =>
      match perform o w with
      | Normal v w' => run_body perform (k v) w'
      | Thrown e w' => run_body perform (h e) w'
      | OutOfFuel => OutOfFuel
      end
  end.

(** The phases of [dispatch], named. *)

(** Line 238: the reducer is about to run. *)
Definition entering (action : value) (w : world) : world :=
  record (EReduce (transitions w) action)
    (begin_transition (set_isDispatching true w)).

(** Lines 239-245 after the reducer returned [v]: the state is stored,
    the flag is cleared and the snapshot is taken. *)
Definition committed (t : nat) (v : value) (w : world) : world :=
  set_currentListeners (nextListeners w)
    (set_isDispatching false (record (ECommit t v) (set_currentState v w))).

(** The variables as lines 66-70 initialise them: both references
    point to the same, empty array. *)
Definition initial (reducer preloadedState : value) : world :=
  World reducer preloadedState 0 0 false [[]] [] None 0 [].

Definition the_store : store :=
  Store (λ action, call (ODispatch action))
        (λ listener, call (OSubscribe listener))
        (call OGetState)
        (λ r, call (OReplaceReducer r)).

(** Listeners that only read the state. *)
Inductive observer : prog value → Prop :=
  | observer_ret v : observer (Ret v)
  | observer_read k h : (∀ v, observer (k v)) → observer (Op OGetState k h).

Section Container.

(** The bodies of the user functions: [code f args] is what the call
    [f(...args)] runs. *)
Variable code : nat → list value → prog value.

(** The call [c(...args)] of a function value. *)
Definition invoke (perform : op → world → outcome value)
    (c : callable) (args : list value) (w : world) : outcome value :=
  match c with
  | CUser f => run_body perform (code f args) w
  | CUnsub h => unsubscribe h w
  end.

(** Lines 270-277. *)
Definition replaceReducer (dispatch : value → world → outcome value)
    (nextReducer : value) (w : world) : outcome value :=
  match as_callable nextReducer with
  | None => Thrown ErrNextReducerNotFunction w
  | Some _ =>
      let w1 := set_currentReducer nextReducer w in
      match dispatch (action_of_type ActionTypes.REPLACE) w1 with
      | Normal _ w2 => Normal VUndefined w2
      | Thrown e w2 => Thrown e w2
      | OutOfFuel => OutOfFuel
      end
  end.

(** [perform n o]: the call [o], with at most [n] nested calls.
    [dispatch] is lines 218-252 and [notify] the loop of lines
    246-249, which reads [listeners.length] and [listeners[i]] from the
    array on every round: the lookup gives [None] exactly when
    [i < listeners.length] fails.  [begin_transition] and [record] are
    ghost steps. *)
Fixpoint perform (n : nat) (o : op) (w : world) {struct n} : outcome value :=
  match n with
  | 0 => OutOfFuel
  | S n' =>
      match o with
      | OGetState => getState w
      | OSubscribe listener => subscribe listener w
      | OUnsubscribe h => unsubscribe h w
      | ODispatch action => dispatch n' action w
      | OReplaceReducer r => replaceReducer (dispatch n') r w
      | OApiDispatch action =>
          match mwDispatch w with
          | None =>
              Thrown ErrDispatchWhileConstructing
                (record (EForward action false) w)
          | Some d =>
              run_body (perform n') (d action)
                (record (EForward action true) w)
          end
      end
  end
with dispatch (n : nat) (action : value) (w : world) {struct n}
    : outcome value :=
  match n with
  | 0 => OutOfFuel
  | S n' =>
      if negb (isPlainObject action) then Thrown ErrActionNotPlain w
      else if is_undefined (get_prop action "type") then
        Thrown ErrActionTypeUndefined w
      else if isDispatching w then Thrown ErrReducersMayNotDispatch w
      else
        let t := transitions w in
        let w0 := record (EReduce t action)
                    (begin_transition (set_isDispatching true w)) in
        let reduced :=
          match as_callable (currentReducer w0) with
          | None => Thrown ErrNotCallable w0
          | Some r => invoke (perform n') r [currentState w0; action] w0
          end in
        match reduced with
        | Normal v w1 =>
            let w2 := set_isDispatching false
                        (record (ECommit t v) (set_currentState v w1)) in
            let w3 := set_currentListeners (nextListeners w2) w2 in
            match notify n' t (currentListeners w3) 0 w3 with
            | Normal _ w4 => Normal action w4
            | Thrown e w4 => Thrown e w4
            | OutOfFuel => OutOfFuel
            end
        | Thrown e w1 => Thrown e (set_isDispatching false w1)
        | OutOfFuel => OutOfFuel
        end
  end
with notify (n : nat) (t : nat) (listeners : nat) (i : nat) (w : world)
    {struct n} : outcome value :=
  match n with
  | 0 => OutOfFuel
  | S n' =>
      match array_at w listeners !! i with
      | None => Normal VUndefined w
      | Some listener =>
          match invoke (perform n') listener []
                  (record (ENotify t listener []) w) with
          | Normal _ w' => notify n' t listeners (S i) w'
          | Thrown e w' => Thrown e w'
          | OutOfFuel => OutOfFuel
          end
      end
  end.

(** Running a body with at most [n] nested calls. *)
Definition run (n : nat) {R : Type} (p : prog R) (w : world) : outcome R :=
  run_body (perform n) p w.

(** Line 239: the call of the reducer. *)
Definition reduce (n : nat) (action : value) (w : world) : outcome value :=
  match as_callable (currentReducer w) with
  | None => Thrown ErrNotCallable w
  | Some r => invoke (perform n) r [currentState w; action] w
  end.

(** How a function value behaves when it is called as an enhancer:
    [enhancers f createStore] is [f(createStore)]. *)
Variable enhancers : nat → creator → creator.

(** Lines 44-70 and 329-337. *)
Fixpoint createStore (n : nat) (args : list value) {struct n}
    : outcome store :=
  match n with
  | 0 => OutOfFuel
  | S n' =>
      let reducer := arg 0 args in
      let swap := is_function (arg 1 args) && is_undefined (arg 2 args) in
      let preloadedState := if swap then VUndefined else arg 1 args in
      let enhancer := if swap then arg 1 args else arg 2 args in
      if negb (is_undefined enhancer) then
        match enhancer with
        | VFun f =>
            enhancers f (λ _, createStore n') n' [reducer; preloadedState]
        | VUnsub _ => Thrown ErrNotCallable blank
        | _ => Thrown ErrEnhancerNotFunction blank
        end
      else if negb (is_function reducer) then
        Thrown ErrReducerNotFunction blank
      else
        let w := initial reducer preloadedState in
        match dispatch n' (action_of_type ActionTypes.INIT) w with
        | Normal _ w' => Normal the_store w'
        | Thrown e w' => Thrown e w'
        | OutOfFuel => OutOfFuel
        end
  end.

(** ** The middleware pipeline builder (src/src/applyMiddleware.js) *)

(** [api_dispatch] is the forwarder of line 46: it calls whatever the
    variable [dispatch] of [applyMiddleware] refers to at that time. *)
Record middlewareAPI : Type := MiddlewareAPI {
  api_getState : prog value;
  api_dispatch : value → prog value
}.

(** [middlewareAPI => next => action => result] *)
Definition wrapper : Type := (value → prog value) → prog (value → prog value).
Definition middleware : Type := middlewareAPI → prog wrapper.

(** Lines 30-58.  [None] in [mwDispatch] is the throwing placeholder of
    lines 37-42. *)
Definition applyMiddleware (middlewares : list middleware)
    (createStore : creator) : creator :=
  λ n args,
    match createStore n args with
    | Normal store w =>
        let w1 := set_mwDispatch None w in
        let middlewareAPI :=
          MiddlewareAPI (st_getState store)
                        (λ action, call (OApiDispatch action)) in
        match run n (mapM (λ middleware, middleware middlewareAPI)
                          middlewares) w1 with
        | Normal chain w2 =>
            match run n (compose chain (st_dispatch store)) w2 with
            | Normal dispatch w3 =>
                Normal (Store dispatch (st_subscribe store)
                              (st_getState store) (st_replaceReducer store))
                       (set_mwDispatch (Some dispatch) w3)
            | Thrown e w3 => Thrown e w3
            | OutOfFuel => OutOfFuel
            end
        | Thrown e w2 => Thrown e w2
        | OutOfFuel => OutOfFuel
        end
    | Thrown e w => Thrown e w
    | OutOfFuel => OutOfFuel
    end.

(** Listeners that are user functions which only read the state. *)
Definition observers (ls : list callable) : Prop :=
  Forall (λ l, ∃ f, l = CUser f ∧ observer (code f [])) ls.

(** Step 4 of the builder in the words of the spec: each middleware is
    instantiated with the capability object, from left to right. *)
Inductive instantiates (n : nat) (api : middlewareAPI) :
    list middleware → world → list wrapper → world → Prop :=
  | instantiates_nil w : instantiates n api [] w [] w
  | instantiates_cons m ms w wr w1 chain w2 :
      run n (m api) w = Normal wr w1 →
      instantiates n api ms w1 chain w2 →
      instantiates n api (m :: ms) w (wr :: chain) w2.

(** Step 5 in the words of the spec: the rightmost wrapper receives
    the base dispatch, each other wrapper receives what the wrappers
    to its right made, and the leftmost makes the final dispatch. *)
Inductive wraps (n : nat) :
    list wrapper → (value → prog value) → world →
    (value → prog value) → world → Prop :=
  | wraps_nil base w : wraps n [] base w base w
  | wraps_cons wr chain base w inner w1 outer w2 :
      wraps n chain base w inner w1 →
      run n (wr inner) w1 = Normal outer w2 →
      wraps n (wr :: chain) base w outer w2.

End Container.

(** ** Binding action creators (src/src/bindActionCreators.js) *)

(** [typeof v] *)
Definition typeof (v : value) : string :=
  match v with
  | VUndefined => "undefined"
  | VNull => "object"
  | VBool _ => "boolean"
  | VNum _ => "number"
  | VStr _ => "string"
  | VObj _ _ => "object"
  | VFun _ => "function"
  | VUnsub _ => "function"
  end.

(** [Object.keys(o)].  The list of an object holds its enumerable
    properties in the order of enumeration; an entry behind another
    one of the same name is never read ([assoc] stops at the first),
    and is no property. *)
Fixpoint keys (props : list (string * value)) : list string :=
  match props with
  | [] => []
  | (k, _) :: rest =>
      k :: List.filter (λ k', negb (String.eqb k' k)) (keys rest)
  end.

(** Objects made by the library, whose properties are functions of the
    library: [o[key]] and [o[key] = x]. *)
Fixpoint lookup_prop {A : Type} (key : string) (props : list (string * A))
    : option A :=
  match props with
  | [] => None
  | (k, x) :: rest => if String.eqb k key then Some x else lookup_prop key rest
  end.

Fixpoint set_prop {A : Type} (key : string) (x : A)
    (props : list (string * A)) : list (string * A) :=
  match props with
  | [] => [(key, x)]
  | (k, y) :: rest =>
      if String.eqb k key then (k, x) :: rest
      else (k, y) :: set_prop key x rest
  end.

(** The error of line 46: it names what was received, [null] as
    'null'. *)
Inductive bind_error : Type :=
  | ErrBindExpected (received : string).

(** What [bindActionCreators] returns: one function, or an object of
    functions. *)
Inductive bound : Type :=
  | BoundFunction (f : list value → prog value)
  | BoundObject (props : list (string * (list value → prog value))).

(** The TypeError of createStore.js:304. *)
Inductive observer_error : Type :=
  | ErrObserverNotObject.

(** The truth value of [v] in [if (v)]. *)
Definition truthy (v : value) : bool :=
  match v with
  | VUndefined => false
  | VNull => false
  | VBool b => b
  | VNum z => negb (Z.eqb z 0)
  | VStr s => negb (String.eqb s "")
  | VObj _ _ => true
  | VFun _ => true
  | VUnsub _ => true
  end.

Section Binding.

Variable code : nat → list value → prog value.

(** The call [c(...args)] inside a body of code.  The receiver [this]
    is not represented: the functions of the code table do not read
    it. *)
Definition call_value (c : callable) (args : list value) : prog value :=
  match c with
  | CUser f => code f args
  | CUnsub h => call (OUnsubscribe h)
  end.

(** Lines 3-7.  [dispatch] is a function of one argument, as the
    [dispatch] of a container is. *)
Definition bindActionCreator (actionCreator : callable)
    (dispatch : value → prog value) : list value → prog value :=
  λ arguments, action ← call_value actionCreator arguments; dispatch action.

(** Lines 58-64, one round of the loop: [key] is [keys[i]] and
    [props] the properties of [actionCreators]. *)
Definition bind_key (props : list (string * value))
    (dispatch : value → prog value)
    (boundActionCreators : list (string * (list value → prog value)))
    (key : string) : list (string * (list value → prog value)) :=
  match as_callable (assoc key props) with
  | Some actionCreator =>
      set_prop key (bindActionCreator actionCreator dispatch)
        boundActionCreators
  | None => boundActionCreators
  end.

(** Lines 40-66. *)
Definition bindActionCreators (actionCreators : value)
    (dispatch : value → prog value) : bind_error + bound :=
  match as_callable actionCreators with
  | Some actionCreator =>
      inr (BoundFunction (bindActionCreator actionCreator dispatch))
  | None =>
      match actionCreators with
      | VObj _ props =>
          inr (BoundObject (foldl (bind_key props dispatch) [] (keys props)))
      | VNull => inl (ErrBindExpected "null")
      | _ => inl (ErrBindExpected (typeof actionCreators))
      end
  end.

(** ** The observable of a container (src/src/createStore.js) *)

(** Lines 307-311, the closure [observeState] of one call of the
    [subscribe] of line 302.  [observer.next(getState())] reads the
    member, then the state, then calls; the result of [next] is
    dropped. *)
Definition observeState (observer : value) : prog value :=
  if truthy (get_prop observer "next") then
    state ← call OGetState;
    _ ← match as_callable (get_prop observer "next") with
        | Some next => call_value next [state]
        | None => Throw ErrNotCallable
        end;
    Ret VUndefined
  else Ret VUndefined.

(** Lines 302-316, [observable().subscribe(observer)].  The closure
    [observeState] made by this call is a function value; [f] is its
    place in the code table.  [outerSubscribe] is the [subscribe] of
    the container (line 288). *)
Definition observable_subscribe (f : nat) (observer : value)
    : observer_error + prog value :=
  match observer with
  | VObj _ _ =>
      inr (_ ← observeState observer;
           unsubscribe ← call (OSubscribe (VFun f));
           Ret (VObj true [("unsubscribe", unsubscribe)]))
  | _ => inl ErrObserverNotObject
  end.

End Binding.

(** * Part 2: the vocabulary of the statements *)

(** The variables a call leaves behind, if it ends. *)
Definition final {R : Type} (o : outcome R) : option world :=
  match o with
  | Normal _ w => Some w
  | Thrown _ w => Some w
  | OutOfFuel => None
  end.

(** The transition an event belongs to. *)
Definition event_tid (e : event) : option nat :=
  match e with
  | EReduce t _ => Some t
  | ECommit t _ => Some t
  | ENotify t _ _ => Some t
  | EForward _ _ => None
  end.

Definition is_of (t : nat) (e : event) : bool :=
  match event_tid e with
  | Some t' => Nat.eqb t' t
  | None => false
  end.

(** The events of transition [t], in the order they happened. *)
Definition history (t : nat) (evs : list event) : list event :=
  List.filter (is_of t) evs.

(** An array is frozen once no variable can reach it for writing:
    writes go through [nextListeners] after
    [ensureCanMutateNextListeners], which leaves an array alone as soon
    as [currentListeners] refers to it too. *)
Definition frozen (w : world) (x : nat) : Prop :=
  x < length (arrays w) ∧ (nextListeners w = x → currentListeners w = x).

(** Both references point into the heap of arrays. *)
Definition allocated (w : world) : Prop :=
  nextListeners w < length (arrays w) ∧
  currentListeners w < length (arrays w).

(** Whether [applyMiddleware] has installed the composed dispatch. *)
Definition installed (w : world) : bool :=
  match mwDispatch w with Some _ => true | None => false end.

(** Events logged between [w] and [w'] by the calls made in between:
    their transitions began in between, and a call of the forwarder
    found the [dispatch] of [w]. *)
Definition fresh_in (w w' : world) (e : event) : Prop :=
  (∀ t, event_tid e = Some t → transitions w ≤ t < transitions w') ∧
  (∀ a b, e = EForward a b → b = installed w).

(** What holds between the variables at two points of an execution.
    [own] describes the events that may be logged in between for a
    transition begun earlier. *)
Record extends (own : event → Prop) (w w' : world) : Prop := Extends {
  ex_mw : mwDispatch w' = mwDispatch w;
  ex_transitions : transitions w ≤ transitions w';
  ex_length : length (arrays w) ≤ length (arrays w');
  ex_log : ∃ evs, log w' = log w ++ evs ∧
                  Forall (λ e, own e ∨ fresh_in w w' e) evs;
  ex_frozen : ∀ x, frozen w x →
                frozen w' x ∧ arrays w' !! x = arrays w !! x;
  ex_allocated : allocated w → allocated w'
}.

(** What holds between the variables before and after a whole call:
    moreover the flag is back, and nothing but the reducer variable
    moves while a reducer runs. *)
Record evolves (own : event → Prop) (w w' : world) : Prop := Evolves {
  ev_extends : extends own w w';
  ev_flag : isDispatching w' = isDispatching w;
  ev_reducing : isDispatching w = true →
                currentState w' = currentState w ∧
                arrays w' = arrays w ∧
                nextListeners w' = nextListeners w ∧
                currentListeners w' = currentListeners w ∧
                subscriptions w' = subscriptions w ∧
                transitions w' = transitions w
}.

Definition nobody (e : event) : Prop := False.

(** The events of transition [t]. *)
Definition of_transition (t : nat) (e : event) : Prop := event_tid e = Some t.

(** The calls of listeners in the pass of transition [t]. *)
Definition of_pass (t : nat) (e : event) : Prop := ∃ l, e = ENotify t l [].

(** The calls of the listeners [ls], in this order, by the pass of [t]. *)
Definition notifications (t : nat) (ls : list callable) : list event :=
  map (λ l, ENotify t l []) ls.

(** The listeners called by the pass of transition [t], in order. *)
Definition notified (t : nat) (evs : list event) : list callable :=
  omap (λ e, match e with
             | ENotify t' l _ => if Nat.eqb t' t then Some l else None
             | _ => None
             end) evs.

(** The listeners of the subscriptions that were not cancelled. *)
Definition live (subs : list (callable * bool)) : list callable :=
  omap (λ s : callable * bool, if s.2 then Some s.1 else None) subs.

(** The registry holds the listeners of the live subscriptions, each as
    often as it is subscribed. *)
Definition registered (w : world) : Prop :=
  allocated w ∧ array_at w (nextListeners w) ≡ₚ live (subscriptions w).

(** The state after the events [evs], from the state [s0]: what the
    last transition that stored a state has stored. *)
Definition last_state (s0 : value) (evs : list event) : value :=
  foldl (λ s e, match e with ECommit _ v => v | _ => s end) s0 evs.

(** The state variable holds what the last commit has stored, or the
    initial state [s0]. *)
Definition tracked (s0 : value) (w : world) : Prop :=
  currentState w = last_state s0 (log w).

(** A well-formed action: a plain object whose [type] is not undefined. *)
Definition well_formed (action : value) : Prop :=
  isPlainObject action = true ∧ is_undefined (get_prop action "type") = false.

(** Logging several events. *)
Definition record_all (evs : list event) (w : world) : world :=
  World (currentReducer w) (currentState w) (currentListeners w)
    (nextListeners w) (isDispatching w) (arrays w) (subscriptions w)
    (mwDispatch w) (transitions w) (log w ++ evs).

(** What [dispatch] makes of the outcome of the pass (line 251): the
    action is returned when the pass returns, and what a listener
    throws is thrown. *)
Definition after_pass (action : value) (pass : outcome value)
    : outcome value :=
  match pass with
  | Normal _ w => Normal action w
  | Thrown e w => Thrown e w
  | OutOfFuel => OutOfFuel
  end.

(** The entries of the registry are in the order of their
    registration: the registry is what is left, in this order, of the
    listeners that were subscribed. *)
Definition in_registration_order (w : world) : Prop :=
  array_at w (nextListeners w) `sublist_of` (subscriptions w).*1.

Section Passes.

Variable code : nat → list value → prog value.

(** The pass in the words of the spec, to be compared with [notify]:
    "synchronously invokes every listener in registration order with
    no arguments".  The listeners [ls] are called one after the other,
    each once, with at most [n] nested calls each; an exception ends
    the pass.  [ls] is a list of listeners, not a reference to an
    array: nothing that a listener does changes it.  [record] is the
    ghost step of [notify]. *)
Fixpoint invoke_each (n t : nat) (ls : list callable) (w : world)
    : outcome value :=
  match ls with
  | [] => Normal VUndefined w
  | listener :: rest =>
      match invoke code (perform code n) listener []
              (record (ENotify t listener []) w) with
      | Normal _ w' => invoke_each n t rest w'
      | Thrown e w' => Thrown e w'
      | OutOfFuel => OutOfFuel
      end
  end.

(** What can happen to the variables between two points of an
    execution: a call into the container, by anyone, has ended; or one
    of the assignments that [dispatch], [replaceReducer] and
    [applyMiddleware] make between the calls of user code was carried
    out (createStore.js lines 237, 241, 239, 245 and 275,
    applyMiddleware.js lines 37 and 51), or a ghost step. *)
Inductive step : world → world → Prop :=
  | step_call n o w w' :
      final (perform code n o w) = Some w' → step w w'
  | step_flag b w : step w (set_isDispatching b w)
  | step_state v w : step w (set_currentState v w)
  | step_snapshot w : step w (set_currentListeners (nextListeners w) w)
  | step_reducer r w : step w (set_currentReducer r w)
  | step_install d w : step w (set_mwDispatch d w)
  | step_transition w : step w (begin_transition w)
  | step_record e w : step w (record e w).

(** [later w w']: the variables are [w'] at some point after they were
    [w]. *)
Inductive later : world → world → Prop :=
  | later_now w : later w w
  | later_step w w' w'' : step w w' → later w' w'' → later w w''.

End Passes.

(** * Part 3: two applications, for concrete runs *)

Module Counter.

Definition inc : value := action_of_type (VStr "INC").
Definition boom : value := action_of_type (VStr "BOOM").
Definition init : value := action_of_type ActionTypes.INIT.
Definition replace : value := action_of_type ActionTypes.REPLACE.

(** [(state = 0, action) => action.type === 'INC' ? state + 1 : state],
    which throws on type 'BOOM'. *)
Definition counter (args : list value) : prog value :=
  let state := match arg 0 args with VUndefined => VNum 0 | s => s end in
  match get_prop (arg 1 args) "type" with
  | VStr "INC" =>
      Ret (match state with VNum z => VNum (z + 1) | s => s end)
  | VStr "BOOM" => Throw (ErrUser (VStr "boom"))
  | _ => Ret state
  end.

(** A listener that dispatches INC when it reads [z]. *)
Definition bump_at (z : Z) : prog value :=
  Op OGetState
     (λ s, match s with
           | VNum z' => if Z.eqb z' z then call (ODispatch inc)
                        else Ret VUndefined
           | _ => Ret VUndefined
           end)
     Throw.

(** The functions of the application:
    0 the reducer, 1 a listener that subscribes listener 2,
    2 a listener that does nothing, 3 a listener that dispatches INC
    when the state is 1, 4 one that does so when the state is 0,
    5 a reducer that replaces the reducer while it runs, inside a try
    block. *)
Definition code (f : nat) (args : list value) : prog value :=
  match f with
  | 0 => counter args
  | 1 => Op (OSubscribe (VFun 2)) (λ _, Ret VUndefined) Throw
  | 2 => Ret VUndefined
  | 3 => bump_at 1
  | 4 => bump_at 0
  | 5 => Op (OReplaceReducer (VFun 0))
            (λ _, Ret (VStr "replaced"))
            (λ _, Ret (VStr "caught"))
  | _ => Ret VUndefined
  end.

(** No enhancer is used. *)
Definition enhancers (f : nat) (createStore : creator) : creator :=
  createStore.

Definition world_of {R : Type} (o : outcome R) : world :=
  match o with
  | Normal _ w => w
  | Thrown _ w => w
  | OutOfFuel => blank
  end.

(** [createStore(counter)] *)
Definition created : world :=
  Eval vm_compute in world_of (createStore code enhancers 5 [VFun 0]).

(** ... then [subscribe(listener1)] *)
Definition subscribed : world :=
  Eval vm_compute in world_of (subscribe (VFun 1) created).

(** ... then [dispatch(inc)], twice *)
Definition after_first : world :=
  Eval vm_compute in world_of (dispatch code 5 inc subscribed).
Definition after_second : world :=
  Eval vm_compute in world_of (dispatch code 5 inc after_first).

(** [dispatch(boom)] on the subscribed container. *)
Definition after_boom : world :=
  Eval vm_compute in world_of (dispatch code 5 boom subscribed).

Definition after_recovery : world :=
  Eval vm_compute in world_of (dispatch code 5 inc after_boom).

(** A reducer that replaces the reducer while it runs and catches the
    error: the swap has happened all the same. *)
Definition swapped : world :=
  Eval vm_compute in world_of (createStore code enhancers 6 [VFun 5]).

(** A container watched by listener 3, which dispatches INC when it
    reads 1. *)
Definition watched : world :=
  Eval vm_compute in world_of (subscribe (VFun 3) created).
Definition after_nested : world :=
  Eval vm_compute in world_of (dispatch code 8 inc watched).

(** The variables at the time listener 3 is called by the pass of
    transition 1, inside the outer dispatch. *)
Definition inside_pass : world :=
  record (ENotify 1 (CUser 3) []) (committed 1 (VNum 1) (entering inc watched)).
Definition after_inner : world :=
  Eval vm_compute in world_of (dispatch code 6 inc inside_pass).

(** A container watched by listener 4, which dispatches INC when it
    reads 0. *)
Definition guarded : world :=
  Eval vm_compute in world_of (subscribe (VFun 4) created).
Definition after_replace : world :=
  Eval vm_compute in
    world_of (replaceReducer (dispatch code 8) (VFun 0) guarded).

(** C8 at the counter, with a listener that only reads. *)
Definition observed : world :=
  Eval vm_compute in world_of (subscribe (VFun 2) created).

(** [createStore(counter, 5)] *)
Definition preloaded : world :=
  Eval vm_compute in world_of (createStore code enhancers 5 [VFun 0; VNum 5]).

(** ... or, instead, the call of the closure that [subscribe] returned *)
Definition unsubscribed : world :=
  Eval vm_compute in world_of (unsubscribe 0 subscribed).

End Counter.

Module Tagging.

(** The reducer keeps the type of the last action: function 0. *)
Definition code (f : nat) (args : list value) : prog value :=
  match f with
  | 0 => Ret (get_prop (arg 1 args) "type")
  | _ => Ret VUndefined
  end.

Definition enhancers (f : nat) (createStore : creator) : creator :=
  createStore.

(** [{ type: action.type + s }] *)
Definition tagged (s : string) (action : value) : value :=
  match get_prop action "type" with
  | VStr t => action_of_type (VStr (String.append t s))
  | _ => action
  end.

(** [next => action => ({ by: s, got: next({ type: action.type + s }) })] *)
Definition tag_action (s : string) (next : value → prog value)
    (action : value) : prog value :=
  r ← next (tagged s action); Ret (VObj true [("by", VStr s); ("got", r)]).
Definition tag_wrapper (s : string) : wrapper :=
  λ next, Ret (tag_action s next).
Definition tagger (s : string) : middleware :=
  λ api, Ret (tag_wrapper s).

(** A middleware that dispatches while it is instantiated, inside a try
    block, and one that does so outside of any. *)
Definition eager : middleware :=
  λ api, _ ← catch (api_dispatch api (action_of_type (VStr "EARLY")))
                   (λ e, Ret VUndefined);
         Ret (λ next, Ret next).
Definition impatient : middleware :=
  λ api, _ ← api_dispatch api (action_of_type (VStr "EARLY"));
         Ret (λ next, Ret next).

Definition created : world :=
  Eval vm_compute in Counter.world_of (createStore code enhancers 5 [VFun 0]).

(** The dispatch that [A; B] make of the base dispatch. *)
Definition enhanced : value → prog value :=
  tag_action "A" (tag_action "B" (st_dispatch the_store)).

Definition installed_world : world := set_mwDispatch (Some enhanced) created.
Definition dispatched : outcome value :=
  Eval vm_compute in run code 5 (enhanced (action_of_type (VStr "x")))
                       installed_world.

Definition assembled : world :=
  Eval vm_compute in
    Counter.world_of (applyMiddleware code [eager; tagger "B"]
                        (createStore code enhancers) 5 [VFun 0]).
Definition refused : outcome store :=
  applyMiddleware code [impatient; tagger "B"] (createStore code enhancers)
    5 [VFun 0].

End Tagging.

Module Todos.

(** [text => ({ type: 'ADD', text })] *)
Definition addTodo (text : value) : value :=
  VObj true [("type", VStr "ADD"); ("text", text)].

(** The functions of the application:
    0 the reducer, which keeps the text of the last 'ADD';
    1 the action creator [addTodo], 2 an action creator that throws;
    3 a [next] that returns, 4 a [next] that throws what it is given;
    7 a listener that throws, 8 a listener that reads the state. *)
Definition functions (f : nat) (args : list value) : prog value :=
  match f with
  | 0 => Ret (match get_prop (arg 1 args) "type" with
              | VStr "ADD" => get_prop (arg 1 args) "text"
              | _ => arg 0 args
              end)
  | 1 => Ret (addTodo (arg 0 args))
  | 2 => Throw (ErrUser (VStr "no"))
  | 3 => Ret VUndefined
  | 4 => Throw (ErrUser (arg 0 args))
  | 7 => Throw (ErrUser (VStr "listener"))
  | 8 => Op OGetState (λ _, Ret VUndefined) Throw
  | _ => Ret VUndefined
  end.

(** Two observers. *)
Definition quiet : value := VObj true [("next", VFun 3)].
Definition loud : value := VObj true [("next", VFun 4)].

(** Functions 5 and 6 are the closures [observeState] that
    [subscribe] of the observable makes for these observers. *)
Definition code (f : nat) (args : list value) : prog value :=
  match f with
  | 5 => observeState functions quiet
  | 6 => observeState functions loud
  | _ => functions f args
  end.

Definition enhancers (f : nat) (createStore : creator) : creator :=
  createStore.

(** [createStore(reducer, 'none')] *)
Definition created : world :=
  Eval vm_compute in
    Counter.world_of (createStore code enhancers 5 [VFun 0; VStr "none"]).

(** ... then listeners 8, 7 and 8 are subscribed *)
Definition fragile : world :=
  Eval vm_compute in
    Counter.world_of
      (subscribe (VFun 8)
         (Counter.world_of
            (subscribe (VFun 7)
               (Counter.world_of (subscribe (VFun 8) created))))).

(** ... then [dispatch(addTodo('milk'))] *)
Definition after_failure : world :=
  Eval vm_compute in
    Counter.world_of (dispatch code 6 (addTodo (VStr "milk")) fragile).

(** [boundAddTodo('milk')] on the new container *)
Definition after_bound : world :=
  Eval vm_compute in
    Counter.world_of (dispatch code 5 (addTodo (VStr "milk")) created).

(** [store[$$observable]().subscribe(quiet)] on the new container *)
Definition watching : world :=
  Eval vm_compute in
    Counter.world_of
      (match observable_subscribe code 5 quiet with
       | inr p => run code 5 p created
       | inl _ => OutOfFuel
       end).

(** The closure of the loud observer, subscribed. *)
Definition alarmed : world :=
  Eval vm_compute in Counter.world_of (subscribe (VFun 6) created).

(** The container that [applyMiddleware(A, B)] returns. *)
Definition piped : store :=
  Store Tagging.enhanced (st_subscribe the_store) (st_getState the_store)
    (st_replaceReducer the_store).

(** Called as enhancers: function 9 is [applyMiddleware()]; function 3
    returns [undefined], and the call of what it returned is a
    TypeError.  The other functions are not used as enhancers. *)
Definition enhancing (f : nat) (createStore : creator) : creator :=
  match f with
  | 9 => applyMiddleware code [] createStore
  | _ => λ _ _, Thrown ErrNotCallable blank
  end.

(** What [applyMiddleware(impatient, B)] leaves behind. *)
Definition abandoned : world :=
  Eval vm_compute in Counter.world_of Tagging.refused.

End Todos.

Module Alarm.

Definition ring : value := action_of_type (VStr "RING").

(** The functions of the application: 0 the reducer, which counts the
    actions; 1 a listener that throws; 2 a listener that subscribes
    listener 3; 3 a listener that does nothing. *)
Definition code (f : nat) (args : list value) : prog value :=
  match f with
  | 0 => Ret (match arg 0 args with
              | VNum z => VNum (z + 1)
              | _ => VNum 0
              end)
  | 1 => Throw (ErrUser (VStr "alarm"))
  | 2 => Op (OSubscribe (VFun 3)) (λ _, Ret VUndefined) Throw
  | _ => Ret VUndefined
  end.

Definition enhancers (f : nat) (createStore : creator) : creator :=
  createStore.

(** [createStore(reducer)], then listeners 1 and 2 are subscribed *)
Definition created : world :=
  Eval vm_compute in Counter.world_of (createStore code enhancers 5 [VFun 0]).
Definition armed : world :=
  Eval vm_compute in
    Counter.world_of
      (subscribe (VFun 2) (Counter.world_of (subscribe (VFun 1) created))).

(** ... then [dispatch(ring)] *)
Definition tripped : world :=
  Eval vm_compute in Counter.world_of (dispatch code 5 ring armed).

(** What a call of listener 2 would have made of it. *)
Definition heard : world :=
  Eval vm_compute in
    Counter.world_of (invoke code (perform code 3) (CUser 2) [] tripped).

(** The counter of the first application after its listener was
    unsubscribed and INC was dispatched: at rest, and while the reducer
    of a further dispatch runs. *)
Definition resumed : world :=
  Eval vm_compute in
    Counter.world_of (dispatch Counter.code 5 Counter.inc Counter.unsubscribed).
Definition reducing : world :=
  Eval vm_compute in entering Counter.inc resumed.

End Alarm.

(** * Part 4: proofs *)

(** ** The composer *)

(** The function that [reduce] builds applies the accumulated function
    last. *)
Lemma foldl_compose_pure {A : Type} (rest : list (A → A)) :
  ∀ (a : A → A) (x : A),
    foldl (λ (a b : A → pure A) (args : A), b args ≫= a) a rest x
      = a (foldr (λ f y, f y) x rest).
Proof.
  induction rest as [|b rest IH]; intros a x; [done|].
  simpl. by rewrite IH.
Qed.

(** C6 (composer contract).  For pure functions: composing no
    function is the identity, composing [f] alone gives [f] itself,
    composing [f; g; h] maps [x] to [f (g (h x))], and in general the
    functions are applied from the right to the left. *)
Theorem compose_contract (A : Type) :
  (∀ x : A, compose (M := pure) [] x = x) ∧
  (∀ f : A → A, compose (M := pure) [f] = f) ∧
  (∀ (f g h : A → A) (x : A), compose (M := pure) [f; g; h] x = f (g (h x))) ∧
  (∀ (funcs : list (A → A)) (x : A),
     compose (M := pure) funcs x = foldr (λ f y, f y) x funcs).
Proof.
  repeat split. intros [|f [|g rest]] x; [done|done|].
  unfold compose. by rewrite foldl_compose_pure.
Qed.

(** ** Invariants of the container *)

Lemma extends_refl own w : extends own w w.
Proof.
  split; try done.
  exists []. by rewrite app_nil_r.
Qed.

Lemma extends_trans own w1 w2 w3 :
  extends own w1 w2 → extends own w2 w3 → extends own w1 w3.
Proof.
  intros [M1 T1 L1 (evs1 & E1 & A1) Z1 W1] [M2 T2 L2 (evs2 & E2 & A2) Z2 W2].
  split; [| | | | |by auto].
  - congruence.
  - lia.
  - lia.
  - exists (evs1 ++ evs2). split.
    + rewrite E2, E1. by rewrite app_assoc.
    + apply Forall_app. split.
      * eapply Forall_impl; [exact A1|]. intros e [?|[Hf Hi]]; [by left|right].
        split; [|done]. intros t Ht. specialize (Hf t Ht). lia.
      * eapply Forall_impl; [exact A2|]. intros e [?|[Hf Hi]]; [by left|right].
        split; [|unfold installed in *; by rewrite <- M1].
        intros t Ht. specialize (Hf t Ht). lia.
  - intros x Hx. destruct (Z1 x Hx) as [Hx2 Heq1].
    destruct (Z2 x Hx2) as [Hx3 Heq2]. split; [done|congruence].
Qed.

(** Owned events may be accounted for differently. *)
Lemma extends_weaken (own own' : event → Prop) w w' :
  (∀ e, own e → own' e ∨ fresh_in w w' e) →
  extends own w w' → extends own' w w'.
Proof.
  intros Hown [M T L (evs & E & A) Z W]. split; auto.
  exists evs. split; [done|].
  eapply Forall_impl; [exact A|]. intros e [?|?]; auto.
Qed.

Lemma evolves_refl own w : evolves own w w.
Proof. split; [apply extends_refl|done|done]. Qed.

Lemma evolves_trans own w1 w2 w3 :
  evolves own w1 w2 → evolves own w2 w3 → evolves own w1 w3.
Proof.
  intros [X1 F1 R1] [X2 F2 R2]. split.
  - by eapply extends_trans.
  - congruence.
  - intros Hd. destruct (R1 Hd) as (?&?&?&?&?&?).
    destruct R2 as (?&?&?&?&?&?); [congruence|].
    repeat split; congruence.
Qed.

Lemma evolves_weaken (own own' : event → Prop) w w' :
  (∀ e, own e → own' e) → evolves own w w' → evolves own' w w'.
Proof.
  intros Hown [X F R]. split; [|done|done].
  eapply extends_weaken; [|exact X]. auto.
Qed.

(** Steps that only touch variables no clause speaks about. *)
Lemma extends_same own w w' :
  mwDispatch w' = mwDispatch w →
  transitions w' = transitions w →
  arrays w' = arrays w →
  log w' = log w →
  nextListeners w' = nextListeners w →
  currentListeners w' = currentListeners w →
  extends own w w'.
Proof.
  intros M T A L N C. split.
  - done.
  - lia.
  - by rewrite A.
  - exists []. by rewrite app_nil_r.
  - intros x [Hx Hal]. unfold frozen. rewrite A, N, C. done.
  - unfold allocated. by rewrite A, N, C.
Qed.

(** Logging an event of the call itself. *)
Lemma extends_record (own : event → Prop) e w :
  own e → extends own w (record e w).
Proof.
  intros He. split; simpl; try done.
  exists [e]. split; [done|]. constructor; auto.
Qed.

Lemma evolves_record (own : event → Prop) e w :
  own e → evolves own w (record e w).
Proof. intros He. split; [by apply extends_record|done|done]. Qed.

Lemma evolves_record_forward own a w :
  evolves own w (record (EForward a (installed w)) w).
Proof.
  split; [|done|done]. split; simpl; try done.
  exists [EForward a (installed w)]. split; [done|].
  constructor; [|done]. right. split; [done|]. by intros ? ? [= _ <-].
Qed.

Lemma evolves_set_currentReducer own r w :
  evolves own w (set_currentReducer r w).
Proof. split; [by apply extends_same|done|done]. Qed.

(** Writing to the array of [nextListeners] after
    [ensureCanMutateNextListeners] leaves every frozen array alone. *)
Lemma mutate_next_evolves own (f : list callable → list callable) w :
  isDispatching w = false →
  evolves own w
    (set_arrays
       (alter f (nextListeners (ensureCanMutateNextListeners w))
          (arrays (ensureCanMutateNextListeners w)))
       (ensureCanMutateNextListeners w)).
Proof.
  intros Hflag. unfold ensureCanMutateNextListeners.
  destruct (Nat.eqb_spec (nextListeners w) (currentListeners w)) as [Heq|Hne];
    simpl.
  - split; [|done|congruence]. split; simpl; try done.
    + rewrite length_alter, length_app. lia.
    + exists []. by rewrite app_nil_r.
    + intros x [Hx Hal]. split.
      * split; simpl; [|lia].
        rewrite length_alter, length_app. lia.
      * rewrite list_lookup_alter_ne by lia.
        by rewrite lookup_app_l.
    + intros [Hn Hc]. split; simpl; rewrite length_alter, length_app; simpl; lia.
  - split; [|done|congruence]. split; simpl; try done.
    + by rewrite length_alter.
    + exists []. by rewrite app_nil_r.
    + intros x [Hx Hal].
      assert (nextListeners w ≠ x) by (intros E; apply Hne; by rewrite (Hal E)).
      split.
      * split; simpl; [by rewrite length_alter|done].
      * by rewrite list_lookup_alter_ne.
    + intros [Hn Hc]. split; simpl; by rewrite length_alter.
Qed.

Lemma set_subscriptions_evolves own s w :
  isDispatching w = false → evolves own w (set_subscriptions s w).
Proof. intros Hflag. split; [by apply extends_same|done|congruence]. Qed.

Lemma getState_evolves own w w' :
  final (getState w) = Some w' → evolves own w w'.
Proof.
  unfold getState. destruct (isDispatching w); simpl; intros [= <-];
    apply evolves_refl.
Qed.

Lemma subscribe_evolves own l w w' :
  final (subscribe l w) = Some w' → evolves own w w'.
Proof.
  unfold subscribe. destruct (as_callable l) as [c|]; simpl.
  - destruct (isDispatching w) eqn:Hflag; simpl; intros [= <-].
    + apply evolves_refl.
    + eapply evolves_trans; [by apply (mutate_next_evolves own (λ arr, arr ++ [c]))|].
      apply set_subscriptions_evolves. simpl.
      unfold ensureCanMutateNextListeners. by case_match.
  - intros [= <-]. apply evolves_refl.
Qed.

Lemma unsubscribe_evolves own h w w' :
  final (unsubscribe h w) = Some w' → evolves own w w'.
Proof.
  unfold unsubscribe. destruct (subscriptions w !! h) as [[l b]|]; simpl.
  - destruct b; simpl.
    + destruct (isDispatching w) eqn:Hflag; simpl; intros [= <-].
      * apply evolves_refl.
      * eapply evolves_trans; [by apply set_subscriptions_evolves|].
        by apply mutate_next_evolves.
    + intros [= <-]. apply evolves_refl.
  - intros [= <-]. apply evolves_refl.
Qed.

(** A body evolves the variables as the calls it makes do. *)
Lemma run_body_evolves own (perform : op → world → outcome value) :
  (∀ o w w', final (perform o w) = Some w' → evolves own w w') →
  ∀ (R : Type) (p : prog R) w w',
    final (run_body perform p w) = Some w' → evolves own w w'.
Proof.
  intros Hperform R p. induction p as [r|e|o k IHk h IHh]; simpl; intros w w'.
  - intros [= <-]. apply evolves_refl.
  - intros [= <-]. apply evolves_refl.
  - destruct (perform o w) as [v w1|e w1|] eqn:Ho; [| |done].
    + intros Hk. eapply evolves_trans; [|by eapply IHk].
      apply (Hperform o w). by rewrite Ho.
    + intros Hh. eapply evolves_trans; [|by eapply IHh].
      apply (Hperform o w). by rewrite Ho.
Qed.

Lemma history_app t evs1 evs2 :
  history t (evs1 ++ evs2) = history t evs1 ++ history t evs2.
Proof. apply List.filter_app. Qed.

(** Events of later transitions are not in the history of [t]. *)
Lemma history_fresh t w w' evs :
  t < transitions w →
  Forall (λ e, nobody e ∨ fresh_in w w' e) evs →
  history t evs = [].
Proof.
  intros Ht. induction 1 as [|e evs [[]|[He _]] _ IH]; [done|].
  simpl. rewrite IH. unfold is_of.
  destruct (event_tid e) as [t'|] eqn:Hid; [|done].
  specialize (He t' eq_refl).
  destruct (Nat.eqb_spec t' t); [lia|done].
Qed.

Lemma history_notifications t ls : history t (notifications t ls) = notifications t ls.
Proof.
  induction ls as [|l ls IH]; [done|].
  simpl. unfold is_of. simpl. rewrite Nat.eqb_refl. by rewrite IH.
Qed.

Section Evolution.

Variable code : nat → list value → prog value.

Lemma dispatch_S n action w :
  dispatch code (S n) action w =
    if negb (isPlainObject action) then Thrown ErrActionNotPlain w
    else if is_undefined (get_prop action "type") then
      Thrown ErrActionTypeUndefined w
    else if isDispatching w then Thrown ErrReducersMayNotDispatch w
    else
      match reduce code n action (entering action w) with
      | Normal v w1 =>
          match notify code n (transitions w) (nextListeners w1) 0
                  (committed (transitions w) v w1) with
          | Normal _ w4 => Normal action w4
          | Thrown e w4 => Thrown e w4
          | OutOfFuel => OutOfFuel
          end
      | Thrown e w1 => Thrown e (set_isDispatching false w1)
      | OutOfFuel => OutOfFuel
      end.
Proof. reflexivity. Qed.

Lemma perform_S n o w :
  perform code (S n) o w =
    match o with
    | OGetState => getState w
    | OSubscribe listener => subscribe listener w
    | OUnsubscribe h => unsubscribe h w
    | ODispatch action => dispatch code n action w
    | OReplaceReducer r => replaceReducer (dispatch code n) r w
    | OApiDispatch action =>
        match mwDispatch w with
        | None =>
            Thrown ErrDispatchWhileConstructing
              (record (EForward action false) w)
        | Some d =>
            run_body (perform code n) (d action)
              (record (EForward action true) w)
        end
    end.
Proof. reflexivity. Qed.

Lemma notify_S n t x i w :
  notify code (S n) t x i w =
    match array_at w x !! i with
    | None => Normal VUndefined w
    | Some listener =>
        match invoke code (perform code n) listener []
                (record (ENotify t listener []) w) with
        | Normal _ w' => notify code n t x (S i) w'
        | Thrown e w' => Thrown e w'
        | OutOfFuel => OutOfFuel
        end
    end.
Proof. reflexivity. Qed.

Lemma entering_extends action w :
  extends (of_transition (transitions w)) w (entering action w).
Proof.
  split; simpl; try done.
  - lia.
  - exists [EReduce (transitions w) action]. split; [done|].
    constructor; [|done]. by left.
Qed.

Lemma committed_extends t v w :
  extends (of_transition t) w (committed t v w).
Proof.
  split; simpl; try done.
  - exists [ECommit t v]. split; [done|].
    constructor; [|done]. by left.
  - intros x [Hx Hal]. done.
  - intros [Hn Hc]. done.
Qed.

Lemma invoke_evolves own (perform : op → world → outcome value) c args w w' :
  (∀ o w w', final (perform o w) = Some w' → evolves own w w') →
  final (invoke code perform c args w) = Some w' → evolves own w w'.
Proof.
  intros Hp. destruct c; simpl.
  - by apply run_body_evolves.
  - apply unsubscribe_evolves.
Qed.

Lemma reduce_evolves n action w w' :
  (∀ o w w', final (perform code n o w) = Some w' → evolves nobody w w') →
  final (reduce code n action w) = Some w' → evolves nobody w w'.
Proof.
  intros Hp. unfold reduce. destruct (as_callable (currentReducer w)).
  - by apply invoke_evolves.
  - intros [= <-]. apply evolves_refl.
Qed.

(** Every call evolves the variables. *)
Lemma calls_evolve n :
  (∀ o w w', final (perform code n o w) = Some w' → evolves nobody w w') ∧
  (∀ a w w', final (dispatch code n a w) = Some w' → evolves nobody w w') ∧
  (∀ t x i w w', final (notify code n t x i w) = Some w' →
                 evolves (of_pass t) w w').
Proof.
  induction n as [|n (IHp & IHd & IHn)]; [by repeat split|].
  assert (Hd : ∀ a w w', final (dispatch code (S n) a w) = Some w' →
                         evolves nobody w w').
  { intros a w w'. rewrite dispatch_S.
    destruct (negb (isPlainObject a)); [intros [= <-]; apply evolves_refl|].
    destruct (is_undefined (get_prop a "type"));
      [intros [= <-]; apply evolves_refl|].
    destruct (isDispatching w) eqn:Hflag;
      [intros [= <-]; apply evolves_refl|].
    pose proof (entering_extends a w) as X0.
    destruct (reduce code n a (entering a w)) as [v w1|e w1|] eqn:Hr; [| |done].
    - assert (evolves nobody (entering a w) w1) as [X1 F1 R1]
        by (apply (reduce_evolves n a); [done|by rewrite Hr]).
      pose proof (committed_extends (transitions w) v w1) as X2.
      intros Hn.
      assert (evolves (of_pass (transitions w))
                (committed (transitions w) v w1) w') as [X3 F3 R3].
      { apply (IHn (transitions w) (nextListeners w1) 0).
        destruct (notify code n (transitions w) (nextListeners w1) 0 _);
          simpl in *; congruence. }
      assert (extends (of_transition (transitions w)) (entering a w) w') as X.
      { apply (extends_trans _ _ w1);
          [|apply (extends_trans _ _ (committed (transitions w) v w1));
            [exact X2|]].
        - eapply extends_weaken; [|exact X1]. by intros ? [].
        - eapply extends_weaken; [|exact X3]. intros ? [l ->]. by left. }
      split; [|simpl in *; congruence|congruence].
      eapply extends_weaken; [|by eapply extends_trans].
      intros ev He. right. unfold of_transition in He.
      split; [|by intros ? ? ->]. intros t Ht.
      assert (t = transitions w) as -> by congruence.
      destruct X as [_ T _ _ _ _]. simpl in T |- *. lia.
    - assert (evolves nobody (entering a w) w1) as [X1 F1 R1]
        by (apply (reduce_evolves n a); [done|by rewrite Hr]).
      simpl. intros [= <-].
      assert (extends (of_transition (transitions w)) (entering a w)
                (set_isDispatching false w1)) as X.
      { apply (extends_trans _ _ w1); [|by apply extends_same].
        eapply extends_weaken; [|exact X1]. by intros ? []. }
      split; [|simpl in *; congruence|congruence].
      eapply extends_weaken; [|by eapply extends_trans].
      intros ev He. right. unfold of_transition in He.
      split; [|by intros ? ? ->]. intros t Ht.
      assert (t = transitions w) as -> by congruence.
      destruct X as [_ T _ _ _ _]. simpl in T |- *. lia. }
  split; [|split; [exact Hd|]].
  - intros o w w'. destruct o as [|l|h|a|r|a]; simpl.
    + apply getState_evolves.
    + apply subscribe_evolves.
    + apply unsubscribe_evolves.
    + apply IHd.
    + unfold replaceReducer. destruct (as_callable r).
      * intros Hw'. eapply evolves_trans;
          [apply (evolves_set_currentReducer _ r)|].
        apply (IHd (action_of_type ActionTypes.REPLACE)).
        by destruct (dispatch code n _ _).
      * intros [= <-]. apply evolves_refl.
    + destruct (mwDispatch w) as [d|] eqn:Hmw.
      * intros Hw'. eapply evolves_trans; [|by eapply run_body_evolves].
        pose proof (evolves_record_forward nobody a w) as H.
        unfold installed in H. by rewrite Hmw in H.
      * intros [= <-].
        pose proof (evolves_record_forward nobody a w) as H.
        unfold installed in H. by rewrite Hmw in H.
  - intros t x i w w'. rewrite notify_S.
    destruct (array_at w x !! i) as [l|]; [|intros [= <-]; apply evolves_refl].
    destruct (invoke code (perform code n) l [] _) as [v w1|e w1|] eqn:Hi;
      [| |done].
    + intros Hw'. eapply evolves_trans; [|eapply evolves_trans].
      * apply (evolves_record _ (ENotify t l [])). by exists l.
      * eapply evolves_weaken; [|eapply invoke_evolves; [exact IHp|]].
        -- by intros ? [].
        -- by rewrite Hi.
      * by eapply IHn.
    + intros [= <-]. eapply evolves_trans.
      * apply (evolves_record _ (ENotify t l [])). by exists l.
      * eapply evolves_weaken; [|eapply invoke_evolves; [exact IHp|]].
        -- by intros ? [].
        -- by rewrite Hi.
Qed.

(** The pass of transition [t] over a frozen array, from position [i]
    on: it calls the listeners of the array as it was when the pass
    began, in order, whatever these listeners do; an exception ends
    it early. *)
Lemma notify_history n : ∀ t x i w,
  t < transitions w → frozen w x →
  match notify code n t x i w with
  | Normal _ w' =>
      ∃ evs, log w' = log w ++ evs ∧
             history t evs = notifications t (drop i (array_at w x))
  | Thrown _ w' =>
      ∃ evs k, log w' = log w ++ evs ∧
               history t evs = notifications t (take k (drop i (array_at w x)))
  | OutOfFuel => True
  end.
Proof.
  induction n as [|n IH]; [done|].
  intros t x i w Ht Hx. rewrite notify_S.
  destruct (array_at w x !! i) as [l|] eqn:Hl.
  - destruct (invoke code (perform code n) l [] _) as [v w1|e w1|] eqn:Hi;
      [| |done].
    + assert (evolves nobody (record (ENotify t l []) w) w1)
        as [[M T L (evs1 & E1 & A1) Z W] F R].
      { eapply invoke_evolves; [apply calls_evolve|]. by rewrite Hi. }
      destruct (Z x) as [Hx1 Hsame]; [done|].
      assert (array_at w1 x = array_at w x) as Harr
        by (unfold array_at; by rewrite Hsame).
      specialize (IH t x (S i) w1). simpl in T.
      destruct (notify code n t x (S i) w1) as [r w2|e w2|]; [| |done].
      * destruct IH as (evs2 & E2 & H2); [lia|done|].
        exists (ENotify t l [] :: evs1 ++ evs2). split.
        { rewrite E2, E1. simpl. by rewrite <- !app_assoc. }
        change (ENotify t l [] :: evs1 ++ evs2)
          with ([ENotify t l []] ++ evs1 ++ evs2).
        rewrite !history_app, H2, (history_fresh t _ _ _ Ht A1), Harr.
        change [ENotify t l []] with (notifications t [l]).
        rewrite history_notifications.
        by rewrite (drop_S _ _ _ Hl).
      * destruct IH as (evs2 & k & E2 & H2); [lia|done|].
        exists (ENotify t l [] :: evs1 ++ evs2), (S k). split.
        { rewrite E2, E1. simpl. by rewrite <- !app_assoc. }
        change (ENotify t l [] :: evs1 ++ evs2)
          with ([ENotify t l []] ++ evs1 ++ evs2).
        rewrite !history_app, H2, (history_fresh t _ _ _ Ht A1), Harr.
        change [ENotify t l []] with (notifications t [l]).
        rewrite history_notifications.
        by rewrite (drop_S _ _ _ Hl).
    + assert (evolves nobody (record (ENotify t l []) w) w1)
        as [[M T L (evs1 & E1 & A1) Z W] F R].
      { eapply invoke_evolves; [apply calls_evolve|]. by rewrite Hi. }
      exists (ENotify t l [] :: evs1), 1. split.
      { rewrite E1. simpl. by rewrite <- !app_assoc. }
      change (ENotify t l [] :: evs1) with ([ENotify t l []] ++ evs1).
      rewrite !history_app, (history_fresh t _ _ _ Ht A1).
      change [ENotify t l []] with (notifications t [l]).
        rewrite history_notifications.
      by rewrite (drop_S _ _ _ Hl).
  - exists []. split; [by rewrite app_nil_r|].
    apply lookup_ge_None_1 in Hl. by rewrite drop_ge.
Qed.

(** While the reducer runs nothing but the reducer variable moves, and
    no event of any transition is logged. *)
Lemma reducer_phase n action w w1 :
  final (reduce code n action (entering action w)) = Some w1 →
  currentState w1 = currentState w ∧
  arrays w1 = arrays w ∧
  nextListeners w1 = nextListeners w ∧
  currentListeners w1 = currentListeners w ∧
  subscriptions w1 = subscriptions w ∧
  transitions w1 = S (transitions w) ∧
  isDispatching w1 = true ∧
  mwDispatch w1 = mwDispatch w ∧
  ∃ evs, log w1 = log w ++ EReduce (transitions w) action :: evs ∧
         Forall (λ e, event_tid e = None) evs.
Proof.
  intros Hr.
  assert (evolves nobody (entering action w) w1)
    as [[M T L (evs & E & A) Z W] F R]
    by (eapply reduce_evolves; [apply calls_evolve|done]).
  destruct R as (?&?&?&?&?&Ht); [done|].
  simpl in *. repeat split; try done.
  exists evs. split; [by rewrite E, <- app_assoc|].
  eapply Forall_impl; [exact A|]. intros e [[]|[He _]].
  destruct (event_tid e) as [t|] eqn:Hid; [|done].
  specialize (He t eq_refl). simpl in He. lia.
Qed.

Lemma history_silent t evs :
  Forall (λ e, event_tid e = None) evs → history t evs = [].
Proof.
  induction 1 as [|e evs He _ IH]; [done|].
  simpl. unfold is_of. by rewrite He.
Qed.

(** An accepted dispatch, phase by phase. *)
Lemma dispatch_transition n action w :
  allocated w →
  isPlainObject action = true →
  is_undefined (get_prop action "type") = false →
  isDispatching w = false →
  let t := transitions w in
  let registry := array_at w (nextListeners w) in
  match dispatch code (S n) action w with
  | Normal r w' =>
      r = action ∧
      ∃ v w1 evs,
        reduce code n action (entering action w) = Normal v w1 ∧
        notify code n t (nextListeners w1) 0 (committed t v w1)
          = Normal VUndefined w' ∧
        log w' = log w ++ evs ∧
        history t evs = EReduce t action :: ECommit t v
                          :: notifications t registry
  | Thrown e w' =>
      (∃ w1 evs,
         reduce code n action (entering action w) = Thrown e w1 ∧
         w' = set_isDispatching false w1 ∧
         log w' = log w ++ EReduce t action :: evs ∧
         Forall (λ e, event_tid e = None) evs) ∨
      (∃ v w1 evs k,
         reduce code n action (entering action w) = Normal v w1 ∧
         notify code n t (nextListeners w1) 0 (committed t v w1)
           = Thrown e w' ∧
         log w' = log w ++ evs ∧
         history t evs = EReduce t action :: ECommit t v
                           :: notifications t (take k registry))
  | OutOfFuel => True
  end.
Proof.
  intros [Hnext Hcur] Hplain Htype Hflag. cbv zeta.
  rewrite dispatch_S, Hplain, Htype, Hflag. simpl negb. cbv iota.
  set (t := transitions w). set (registry := array_at w (nextListeners w)).
  destruct (reduce code n action (entering action w)) as [v w1|e w1|] eqn:Hr;
    [| |done].
  - destruct (reducer_phase n action w w1) as
      (Hs & Ha & Hn & Hc & Hsub & Ht & Hf & Hm & evs1 & E1 & A1);
      [by rewrite Hr|].
    pose proof (notify_history n t (nextListeners w1) 0
                  (committed t v w1)) as Hpass.
    assert (array_at (committed t v w1) (nextListeners w1) = registry)
      as Harr by (unfold array_at, registry; simpl; by rewrite Ha, Hn).
    rewrite Harr, drop_0 in Hpass.
    destruct (notify code n t (nextListeners w1) 0 (committed t v w1))
      as [r w'|e w'|] eqn:Hnot; [| |done].
    + destruct Hpass as (evs2 & E2 & H2).
      { simpl. subst t. lia. }
      { split; simpl; [rewrite Ha, Hn; lia|done]. }
      split; [done|].
      assert (r = VUndefined) as ->.
      { clear -Hnot. revert Hnot. generalize (committed t v w1) 0.
        induction n as [|m IH]; [done|]. intros w0 i. rewrite notify_S.
        repeat case_match; try done; [apply IH|congruence]. }
      exists v, w1, (EReduce t action :: evs1 ++ ECommit t v :: evs2).
      repeat split; try done.
      * rewrite E2. simpl. rewrite E1. rewrite <- !app_assoc. done.
      * change (EReduce t action :: evs1 ++ ECommit t v :: evs2)
          with ([EReduce t action] ++ evs1 ++ [ECommit t v] ++ evs2).
        rewrite !history_app, H2, (history_silent t evs1 A1).
        simpl. unfold is_of. simpl. by rewrite Nat.eqb_refl.
    + destruct Hpass as (evs2 & k & E2 & H2).
      { simpl. subst t. lia. }
      { split; simpl; [rewrite Ha, Hn; lia|done]. }
      right.
      exists v, w1, (EReduce t action :: evs1 ++ ECommit t v :: evs2), k.
      repeat split; try done.
      * rewrite E2. simpl. rewrite E1. rewrite <- !app_assoc. done.
      * change (EReduce t action :: evs1 ++ ECommit t v :: evs2)
          with ([EReduce t action] ++ evs1 ++ [ECommit t v] ++ evs2).
        rewrite !history_app, H2, (history_silent t evs1 A1).
        simpl. unfold is_of. simpl. by rewrite Nat.eqb_refl.
  - destruct (reducer_phase n action w w1) as
      (Hs & Ha & Hn & Hc & Hsub & Ht & Hf & Hm & evs1 & E1 & A1);
      [by rewrite Hr|].
    left. exists w1, evs1. repeat split; done.
Qed.

End Evolution.

(** ** The registry *)

Lemma ensure_registry w :
  allocated w →
  array_at (ensureCanMutateNextListeners w)
    (nextListeners (ensureCanMutateNextListeners w))
    = array_at w (nextListeners w) ∧
  array_at (ensureCanMutateNextListeners w)
    (currentListeners (ensureCanMutateNextListeners w))
    = array_at w (currentListeners w) ∧
  nextListeners (ensureCanMutateNextListeners w)
    ≠ currentListeners (ensureCanMutateNextListeners w) ∧
  nextListeners (ensureCanMutateNextListeners w)
    < length (arrays (ensureCanMutateNextListeners w)).
Proof.
  intros [Hn Hc]. unfold ensureCanMutateNextListeners.
  destruct (Nat.eqb_spec (nextListeners w) (currentListeners w)) as [Heq|Hne].
  - unfold array_at. simpl. repeat split.
    + rewrite lookup_app_r by done. rewrite Nat.sub_diag. simpl.
      by rewrite Heq.
    + by rewrite lookup_app_l.
    + lia.
    + rewrite length_app. simpl. lia.
  - done.
Qed.

(** An accepted subscription: the listener goes to the end of the
    registry and an earlier snapshot keeps its array. *)
Lemma subscribe_accepted listener l w :
  as_callable listener = Some l → isDispatching w = false → allocated w →
  ∃ w', subscribe listener w
          = Normal (VUnsub (length (subscriptions w))) w' ∧
        array_at w' (nextListeners w')
          = array_at w (nextListeners w) ++ [l] ∧
        array_at w' (currentListeners w')
          = array_at w (currentListeners w) ∧
        subscriptions w' = subscriptions w ++ [(l, true)] ∧
        currentState w' = currentState w ∧
        log w' = log w.
Proof.
  unfold subscribe. intros -> Hflag Hw. rewrite Hflag.
  destruct (ensure_registry w Hw) as (Hnext & Hcur & Hne & Hlt).
  set (w1 := ensureCanMutateNextListeners w) in *.
  assert (subscriptions w1 = subscriptions w ∧ currentState w1 = currentState w
          ∧ log w1 = log w) as (Hs & Hst & Hl)
    by (unfold w1, ensureCanMutateNextListeners; by case_match).
  eexists. split; [simpl; by rewrite Hs|]. simpl. repeat split; try done.
  - unfold array_at in *. simpl. rewrite list_lookup_alter_eq.
    destruct (arrays w1 !! nextListeners w1) as [arr|] eqn:Harr.
    + simpl in *. by rewrite Hnext.
    + apply lookup_ge_None_1 in Harr. lia.
  - unfold array_at in *. simpl. by rewrite list_lookup_alter_ne.
Qed.

(** X3 (subscribing).  A value that is not callable is refused, and so is
    any listener while a reducer runs; otherwise the listener goes to
    the end of the registry, the array of an earlier snapshot is left
    as it is, and the closure returned is a new one. *)
Theorem subscribe_appends listener w :
  (as_callable listener = None →
   subscribe listener w = Thrown ErrListenerNotFunction w) ∧
  (is_function listener = true → isDispatching w = true →
   subscribe listener w = Thrown ErrSubscribeWhileReducing w) ∧
  (∀ l, as_callable listener = Some l → isDispatching w = false →
        allocated w →
        ∃ w', subscribe listener w
                = Normal (VUnsub (length (subscriptions w))) w' ∧
              array_at w' (nextListeners w')
                = array_at w (nextListeners w) ++ [l] ∧
              array_at w' (currentListeners w')
                = array_at w (currentListeners w) ∧
              subscriptions w' = subscriptions w ++ [(l, true)] ∧
              currentState w' = currentState w ∧
              log w' = log w).
Proof.
  split; [|split].
  - unfold subscribe. by intros ->.
  - unfold subscribe, is_function.
    destruct (as_callable listener); [|done]. by intros _ ->.
  - intros l. apply subscribe_accepted.
Qed.

(** X2 (calls while a reducer runs).  While the flag is set, reading
    the state, subscribing and unsubscribing a live subscription raise
    and change nothing. *)
Theorem calls_while_reducing w :
  isDispatching w = true →
  getState w = Thrown ErrGetStateWhileReducing w ∧
  (∀ listener, is_function listener = true →
     subscribe listener w = Thrown ErrSubscribeWhileReducing w) ∧
  (∀ h l, subscriptions w !! h = Some (l, true) →
     unsubscribe h w = Thrown ErrUnsubscribeWhileReducing w).
Proof.
  intros Hflag. unfold getState, subscribe, unsubscribe, is_function.
  rewrite Hflag. repeat split.
  - intros listener. by destruct (as_callable listener).
  - by intros h l ->.
Qed.

(** ** The registry and the subscriptions *)

Lemma callable_eqb_eq c d : callable_eqb c d = true ↔ c = d.
Proof.
  destruct c, d; simpl; rewrite ?Nat.eqb_eq; split; congruence.
Qed.

Lemma splice1_nat i arr :
  i ≤ length arr → splice1 (Z.of_nat i) arr = delete i arr.
Proof.
  intros Hi. unfold splice1.
  destruct (Z.ltb_spec (Z.of_nat i) 0) as [?|_]; [lia|].
  f_equal. lia.
Qed.

(** [indexOf] finds the first entry of a listener that is in the array,
    and [splice] then removes that entry and no other. *)
Lemma splice1_indexOf l arr :
  l ∈ arr →
  ∃ l1 l2, arr = l1 ++ l :: l2 ∧ (l ∉ l1) ∧
           indexOf l arr = Z.of_nat (length l1) ∧
           splice1 (indexOf l arr) arr = l1 ++ l2.
Proof.
  induction arr as [|y arr IH]; [by intros ?%elem_of_nil|].
  intros Hin. simpl.
  destruct (callable_eqb y l) eqn:Hy.
  - apply callable_eqb_eq in Hy as ->. exists [], arr.
    split; [done|]. split; [apply not_elem_of_nil|]. split; [done|].
    by rewrite (splice1_nat 0); [|simpl; lia].
  - assert (y ≠ l) as Hne
      by (intros ->; by rewrite (proj2 (callable_eqb_eq l l) eq_refl) in Hy).
    apply elem_of_cons in Hin as [->|Hin]; [done|].
    destruct (IH Hin) as (l1 & l2 & -> & Hl1 & Hidx & Hsplice).
    exists (y :: l1), l2. rewrite Hidx.
    destruct (Z.ltb_spec (Z.of_nat (length l1)) 0) as [?|_]; [lia|].
    split; [done|]. split; [|split].
    + rewrite not_elem_of_cons. split; [by intros ->|done].
    + simpl. lia.
    + replace (Z.of_nat (length l1) + 1)%Z
        with (Z.of_nat (S (length l1))) by lia.
      rewrite splice1_nat by (simpl; rewrite length_app; lia).
      rewrite Hidx, splice1_nat in Hsplice by (rewrite length_app; lia).
      simpl. by rewrite Hsplice.
Qed.

Lemma live_app subs1 subs2 : live (subs1 ++ subs2) = live subs1 ++ live subs2.
Proof. apply omap_app. Qed.

(** Cancelling a live subscription takes its listener out once. *)
Lemma live_cancel subs h l :
  subs !! h = Some (l, true) →
  live subs ≡ₚ l :: live (<[h:=(l, false)]> subs).
Proof.
  revert h. induction subs as [|[c b] subs IH]; intros h Hh; [done|].
  destruct h as [|h]; simpl in *.
  - by injection Hh as -> ->.
  - unfold live in *. simpl. destruct b; simpl.
    + rewrite (IH h Hh). apply Permutation_swap.
    + by apply IH.
Qed.

Lemma subscribe_registered listener w v w' :
  registered w →
  subscribe listener w = Normal v w' →
  registered w'.
Proof.
  intros [Hw Hreg] Hsub.
  unfold subscribe in Hsub.
  destruct (as_callable listener) as [l|] eqn:Hl; [|done].
  destruct (isDispatching w) eqn:Hflag; [done|].
  destruct (subscribe_accepted listener l w Hl Hflag Hw)
    as (w2 & Hsub' & Hnext & _ & Hsubs & _).
  unfold subscribe in Hsub'. rewrite Hl, Hflag in Hsub'.
  rewrite Hsub' in Hsub. injection Hsub as _ <-.
  split.
  - assert (evolves nobody w w2) as [[_ _ _ _ _ Ha] _ _]; [|by apply Ha].
    apply (subscribe_evolves nobody listener). unfold subscribe.
    by rewrite Hl, Hflag, Hsub'.
  - by rewrite Hnext, Hsubs, live_app, Hreg.
Qed.

(** An unsubscribe that goes through removes the first entry of its
    listener from the registry, and nothing else. *)
Lemma unsubscribe_accepted h l w :
  registered w →
  subscriptions w !! h = Some (l, true) →
  isDispatching w = false →
  ∃ w' l1 l2,
    unsubscribe h w = Normal VUndefined w' ∧
    array_at w (nextListeners w) = l1 ++ l :: l2 ∧ (l ∉ l1) ∧
    array_at w' (nextListeners w') = l1 ++ l2 ∧
    array_at w' (currentListeners w') = array_at w (currentListeners w) ∧
    subscriptions w' = <[h:=(l, false)]> (subscriptions w) ∧
    registered w'.
Proof.
  intros [Hw Hreg] Hh Hflag.
  assert (l ∈ array_at w (nextListeners w)) as Hin.
  { rewrite Hreg, (live_cancel _ _ _ Hh). apply elem_of_cons. by left. }
  destruct (splice1_indexOf l _ Hin) as (l1 & l2 & Harr & Hl1 & _ & Hsplice).
  unfold unsubscribe. rewrite Hh, Hflag. simpl.
  set (w0 := set_subscriptions (<[h:=(l, false)]> (subscriptions w)) w).
  assert (allocated w0) as Hw0 by done.
  destruct (ensure_registry w0 Hw0) as (Hnext & Hcur & Hne & Hlt).
  set (w1 := ensureCanMutateNextListeners w0) in *.
  assert (subscriptions w1 = <[h:=(l, false)]> (subscriptions w)) as Hs
    by (unfold w1, ensureCanMutateNextListeners; by case_match).
  change (array_at w0 (nextListeners w0)) with (array_at w (nextListeners w))
    in Hnext.
  change (array_at w0 (currentListeners w0))
    with (array_at w (currentListeners w)) in Hcur.
  assert (array_at
            (set_arrays
               (alter (splice1 (indexOf l (array_at w1 (nextListeners w1))))
                  (nextListeners w1) (arrays w1)) w1) (nextListeners w1)
          = l1 ++ l2) as Hnew.
  { rewrite Hnext. unfold array_at at 1. simpl.
    rewrite list_lookup_alter_eq.
    unfold array_at in Hnext at 1.
    destruct (arrays w1 !! nextListeners w1) as [arr|] eqn:Ha.
    - simpl in *. by rewrite Hnext, Hsplice.
    - apply lookup_ge_None_1 in Ha. lia. }
  eexists _, l1, l2.
  split; [done|]. split; [done|]. split; [done|]. split; [exact Hnew|].
  split; [|split; [exact Hs|split]].
  - rewrite <- Hcur. unfold array_at. simpl.
    by rewrite list_lookup_alter_ne.
  - assert (evolves nobody w0
              (set_arrays
                 (alter (splice1 (indexOf l (array_at w1 (nextListeners w1))))
                    (nextListeners w1) (arrays w1)) w1))
      as [[_ _ _ _ _ Ha] _ _] by (by apply mutate_next_evolves).
    by apply Ha.
  - cbn [nextListeners subscriptions set_arrays]. rewrite Hnew, Hs.
    apply (Permutation_cons_inv (a := l)).
    rewrite <- (live_cancel _ _ _ Hh), <- Hreg, Harr.
    by rewrite Permutation_middle.
Qed.

Lemma unsubscribe_registered h w w' :
  registered w →
  final (unsubscribe h w) = Some w' →
  registered w'.
Proof.
  intros Hreg. unfold unsubscribe.
  destruct (subscriptions w !! h) as [[l b]|] eqn:Hh; [|by intros [= <-]].
  destruct b; simpl; [|by intros [= <-]].
  destruct (isDispatching w) eqn:Hflag; [by intros [= <-]|].
  destruct (unsubscribe_accepted h l w Hreg Hh Hflag)
    as (w2 & _ & _ & Hun & _ & _ & _ & _ & _ & Hreg2).
  unfold unsubscribe in Hun. rewrite Hh, Hflag in Hun. simpl in Hun.
  rewrite Hun. by intros [= <-].
Qed.

Lemma registered_same w w' :
  arrays w' = arrays w →
  nextListeners w' = nextListeners w →
  subscriptions w' = subscriptions w →
  currentListeners w' = currentListeners w ∨
    currentListeners w' = nextListeners w →
  registered w → registered w'.
Proof.
  intros Ha Hn Hs Hc [[Hw1 Hw2] Hreg]. split.
  - unfold allocated. rewrite Ha, Hn. by destruct Hc as [->| ->].
  - unfold array_at. by rewrite Ha, Hn, Hs.
Qed.

Lemma run_body_registered (perform : op → world → outcome value) :
  (∀ o w w', registered w → final (perform o w) = Some w' → registered w') →
  ∀ (R : Type) (p : prog R) w w',
    registered w → final (run_body perform p w) = Some w' → registered w'.
Proof.
  intros Hperform R p. induction p as [r|e|o k IHk h IHh]; simpl; intros w w'.
  - by intros ? [= <-].
  - by intros ? [= <-].
  - intros Hreg. destruct (perform o w) as [v w1|e w1|] eqn:Ho; [| |done].
    + apply IHk, (Hperform o w); [done|by rewrite Ho].
    + apply IHh, (Hperform o w); [done|by rewrite Ho].
Qed.

Section Registry.

Variable code : nat → list value → prog value.

Lemma invoke_registered n l args w w' :
  (∀ o w w', registered w → final (perform code n o w) = Some w' →
             registered w') →
  registered w →
  final (invoke code (perform code n) l args w) = Some w' →
  registered w'.
Proof.
  intros Hp Hreg. destruct l as [f|h]; simpl.
  - by apply run_body_registered.
  - by apply unsubscribe_registered.
Qed.

(** No call breaks the correspondence of the registry and the live
    subscriptions. *)
Lemma calls_keep_registered n :
  (∀ o w w', registered w → final (perform code n o w) = Some w' →
             registered w') ∧
  (∀ a w w', registered w → final (dispatch code n a w) = Some w' →
             registered w') ∧
  (∀ t x i w w', registered w → final (notify code n t x i w) = Some w' →
                 registered w').
Proof.
  induction n as [|n (IHp & IHd & IHn)]; [by repeat split|].
  assert (Hd : ∀ a w w', registered w →
                 final (dispatch code (S n) a w) = Some w' → registered w').
  { intros a w w' Hreg. rewrite dispatch_S.
    destruct (negb (isPlainObject a)); [by intros [= <-]|].
    destruct (is_undefined (get_prop a "type")); [by intros [= <-]|].
    destruct (isDispatching w) eqn:Hflag; [by intros [= <-]|].
    destruct (reduce code n a (entering a w)) as [v w1|e w1|] eqn:Hr;
      [| |done].
    - destruct (reducer_phase code n a w w1) as (_ & Ha & Hn & Hc & Hs & _);
        [by rewrite Hr|].
      intros Hw'.
      apply (IHn (transitions w) (nextListeners w1) 0
               (committed (transitions w) v w1)).
      + apply (registered_same w); simpl; auto.
      + by destruct (notify code n _ _ _ _).
    - destruct (reducer_phase code n a w w1) as (_ & Ha & Hn & Hc & Hs & _);
        [by rewrite Hr|].
      simpl. intros [= <-]. apply (registered_same w); simpl; auto. }
  split; [|split; [exact Hd|]].
  - intros o w w' Hreg. destruct o as [|l|h|a|r|a]; simpl.
    + unfold getState. destruct (isDispatching w); by intros [= <-].
    + destruct (subscribe l w) as [v w1|e w1|] eqn:Hsub; [| |done].
      * intros [= <-]. by apply (subscribe_registered l w v).
      * unfold subscribe in Hsub.
        destruct (as_callable l);
          [|by injection Hsub as _ <-; intros [= <-]].
        destruct (isDispatching w); [|done].
        injection Hsub as _ <-. by intros [= <-].
    + by apply unsubscribe_registered.
    + by apply IHd.
    + unfold replaceReducer. destruct (as_callable r).
      * intros Hw'.
        apply (IHd (action_of_type ActionTypes.REPLACE)
                 (set_currentReducer r w)).
        -- apply (registered_same w); simpl; auto.
        -- by destruct (dispatch code n _ _).
      * by intros [= <-].
    + destruct (mwDispatch w) as [d|] eqn:Hmw.
      * apply run_body_registered; [exact IHp|].
        apply (registered_same w); simpl; auto.
      * intros [= <-]. apply (registered_same w); simpl; auto.
  - intros t x i w w' Hreg. rewrite notify_S.
    destruct (array_at w x !! i) as [l|]; [|by intros [= <-]].
    assert (registered (record (ENotify t l []) w)) as Hreg1
      by (apply (registered_same w); simpl; auto).
    destruct (invoke code (perform code n) l [] _) as [v w1|e w1|] eqn:Hi;
      [| |done].
    + apply IHn. apply (invoke_registered n l [] _ w1 IHp Hreg1).
      by rewrite Hi.
    + intros [= <-]. apply (invoke_registered n l [] _ w1 IHp Hreg1).
      by rewrite Hi.
Qed.

(** X4 (registry and subscriptions).  If the registry holds the
    listeners of the live subscriptions, each as often as it is
    subscribed, then so it does after any call. *)
Theorem registry_kept n o w w' :
  registered w →
  final (perform code n o w) = Some w' →
  registered w'.
Proof. apply calls_keep_registered. Qed.

End Registry.

(** X5 (unsubscribing).  The first call of the closure of a live
    subscription, outside a reducer, returns; it takes the first entry
    of its listener out of the registry and leaves the other entries,
    and the array of an earlier snapshot, as they are. *)
Theorem unsubscribe_removes h l w :
  registered w →
  subscriptions w !! h = Some (l, true) →
  isDispatching w = false →
  ∃ w' l1 l2,
    unsubscribe h w = Normal VUndefined w' ∧
    array_at w (nextListeners w) = l1 ++ l :: l2 ∧ (l ∉ l1) ∧
    array_at w' (nextListeners w') = l1 ++ l2 ∧
    array_at w' (currentListeners w') = array_at w (currentListeners w) ∧
    subscriptions w' !! h = Some (l, false).
Proof.
  intros Hreg Hh Hflag.
  destruct (unsubscribe_accepted h l w Hreg Hh Hflag)
    as (w' & l1 & l2 & Hun & Harr & Hl1 & Hnext & Hcur & Hs & _).
  exists w', l1, l2. repeat split; try done.
  rewrite Hs. apply list_lookup_insert_eq. by eapply lookup_lt_Some.
Qed.

(** ** More fuel changes no result *)

Lemma run_body_more (perform perform' : op → world → outcome value) :
  (∀ o w, perform o w ≠ OutOfFuel → perform' o w = perform o w) →
  ∀ (R : Type) (p : prog R) w,
    run_body perform p w ≠ OutOfFuel →
    run_body perform' p w = run_body perform p w.
Proof.
  intros Hmore R p. induction p as [r|e|o k IHk h IHh]; intros w; [done|done|].
  simpl. intros Hrun.
  assert (perform o w ≠ OutOfFuel) as Ho
    by (intros Ho; by rewrite Ho in Hrun).
  rewrite (Hmore o w Ho).
  destruct (perform o w) as [v w1|e w1|]; [by apply IHk|by apply IHh|done].
Qed.

Section Fuel.

Variable code : nat → list value → prog value.

Lemma invoke_more (perform perform' : op → world → outcome value) c args w :
  (∀ o w, perform o w ≠ OutOfFuel → perform' o w = perform o w) →
  invoke code perform c args w ≠ OutOfFuel →
  invoke code perform' c args w = invoke code perform c args w.
Proof.
  intros Hmore. destruct c; simpl; [|done]. by apply run_body_more.
Qed.

Lemma reduce_more n action w :
  (∀ o w, perform code n o w ≠ OutOfFuel →
          perform code (S n) o w = perform code n o w) →
  reduce code n action w ≠ OutOfFuel →
  reduce code (S n) action w = reduce code n action w.
Proof.
  intros Hmore. unfold reduce. destruct (as_callable (currentReducer w)); [|done].
  by apply invoke_more.
Qed.

(** One more unit of fuel changes no result. *)
Lemma fuel_step n :
  (∀ o w, perform code n o w ≠ OutOfFuel →
          perform code (S n) o w = perform code n o w) ∧
  (∀ a w, dispatch code n a w ≠ OutOfFuel →
          dispatch code (S n) a w = dispatch code n a w) ∧
  (∀ t x i w, notify code n t x i w ≠ OutOfFuel →
              notify code (S n) t x i w = notify code n t x i w).
Proof.
  induction n as [|n (IHp & IHd & IHn)]; [by repeat split|].
  assert (Hd : ∀ a w, dispatch code (S n) a w ≠ OutOfFuel →
                      dispatch code (S (S n)) a w = dispatch code (S n) a w).
  { intros a w. rewrite (dispatch_S code (S n)), (dispatch_S code n).
    destruct (negb (isPlainObject a)); [done|].
    destruct (is_undefined (get_prop a "type")); [done|].
    destruct (isDispatching w); [done|].
    intros Hrun.
    assert (reduce code n a (entering a w) ≠ OutOfFuel) as Hr
      by (intros Hr; by rewrite Hr in Hrun).
    rewrite (reduce_more n a _ IHp Hr).
    destruct (reduce code n a (entering a w)) as [v w1|e w1|]; [|done|done].
    assert (notify code n (transitions w) (nextListeners w1) 0
              (committed (transitions w) v w1) ≠ OutOfFuel) as Hn
      by (intros Hn; by rewrite Hn in Hrun).
    by rewrite (IHn _ _ _ _ Hn). }
  split; [|split; [exact Hd|]].
  - intros o w. rewrite (perform_S code (S n)), (perform_S code n).
    destruct o as [|l|h|a|r|a]; try done.
    + apply IHd.
    + unfold replaceReducer. destruct (as_callable r); [|done].
      intros Hrun.
      assert (dispatch code n (action_of_type ActionTypes.REPLACE)
                (set_currentReducer r w) ≠ OutOfFuel) as Hdn
        by (intros Hdn; by rewrite Hdn in Hrun).
      by rewrite (IHd _ _ Hdn).
    + destruct (mwDispatch w) as [d|]; [|done]. by apply run_body_more.
  - intros t x i w. rewrite (notify_S code (S n)), (notify_S code n).
    destruct (array_at w x !! i) as [l|]; [|done].
    intros Hrun.
    assert (invoke code (perform code n) l [] (record (ENotify t l []) w)
              ≠ OutOfFuel) as Hi
      by (intros Hi; by rewrite Hi in Hrun).
    rewrite (invoke_more _ _ l [] _ IHp Hi).
    destruct (invoke code (perform code n) l [] _) as [v w1|e w1|];
      [|done|done].
    by apply IHn.
Qed.

(** A call that ends within [n] nested calls gives the same result
    with any larger allowance. *)
Lemma fuel_mono n m :
  n ≤ m →
  (∀ o w, perform code n o w ≠ OutOfFuel →
          perform code m o w = perform code n o w) ∧
  (∀ a w, dispatch code n a w ≠ OutOfFuel →
          dispatch code m a w = dispatch code n a w) ∧
  (∀ (R : Type) (p : prog R) w, run code n p w ≠ OutOfFuel →
          run code m p w = run code n p w).
Proof.
  assert (∀ k,
    (∀ o w, perform code n o w ≠ OutOfFuel →
            perform code (k + n) o w = perform code n o w) ∧
    (∀ a w, dispatch code n a w ≠ OutOfFuel →
            dispatch code (k + n) a w = dispatch code n a w)) as Hk.
  { induction k as [|k [IHp IHd]]; [done|]. split.
    - intros o w Ho. rewrite <- (IHp o w Ho).
      apply (proj1 (fuel_step (k + n))). by rewrite IHp.
    - intros a w Ha. rewrite <- (IHd a w Ha).
      apply (proj1 (proj2 (fuel_step (k + n)))). by rewrite IHd. }
  intros Hle. replace m with ((m - n) + n) by lia.
  destruct (Hk (m - n)) as [Hp Hd]. repeat split; [done|done|].
  intros R p w. by apply run_body_more.
Qed.

End Fuel.

(** * The container: properties of [dispatch] *)

Lemma notified_history t evs : notified t (history t evs) = notified t evs.
Proof.
  induction evs as [|e evs IH]; [done|].
  simpl. destruct (is_of t e) eqn:He; simpl; rewrite IH; [done|].
  destruct e as [| |t' l args|]; try done.
  unfold is_of in He. simpl in He. by rewrite He.
Qed.

Lemma notified_notifications t ls : notified t (notifications t ls) = ls.
Proof.
  induction ls as [|l ls IH]; [done|].
  simpl. rewrite Nat.eqb_refl. simpl. by rewrite IH.
Qed.

Lemma notified_silent t evs :
  Forall (λ e, event_tid e = None) evs → notified t evs = [].
Proof.
  induction 1 as [|e evs He _ IH]; [done|].
  simpl. rewrite IH. by destruct e.
Qed.

Section Dispatch.

Variable code : nat → list value → prog value.

(** A dispatch that is turned down leaves the variables alone. *)
Lemma dispatch_rejected n action w :
  isPlainObject action = false ∨
  is_undefined (get_prop action "type") = true ∨
  isDispatching w = true →
  ∃ e, dispatch code (S n) action w = Thrown e w.
Proof.
  rewrite dispatch_S. intros [->|[Ht|Hf]]; simpl; [by eexists|..].
  - destruct (isPlainObject action); simpl; [|by eexists].
    rewrite Ht. by eexists.
  - destruct (isPlainObject action); simpl; [|by eexists].
    destruct (is_undefined _); [by eexists|].
    rewrite Hf. by eexists.
Qed.

(** An accepted dispatch returns as soon as the reducer and the pass
    do. *)
Lemma dispatch_returns n action w v w1 w' :
  well_formed action →
  isDispatching w = false →
  reduce code n action (entering action w) = Normal v w1 →
  notify code n (transitions w) (nextListeners w1) 0
    (committed (transitions w) v w1) = Normal VUndefined w' →
  dispatch code (S n) action w = Normal action w'.
Proof.
  intros [Hplain Htype] Hflag Hr Hpass.
  by rewrite dispatch_S, Hplain, Htype, Hflag, Hr, Hpass.
Qed.

(** C3 (reducer-failure atomicity).  When the reducer raises [e] on a
    well-formed action, [dispatch] raises [e]; the state and the
    registry are the ones from before the call, no listener was
    called, the flag is clear, and a later well-formed dispatch
    returns as soon as its reducer and its pass do. *)
Theorem reducer_failure n action w reducer e w1 :
  well_formed action →
  isDispatching w = false →
  as_callable (currentReducer w) = Some reducer →
  invoke code (perform code n) reducer [currentState w; action]
    (entering action w) = Thrown e w1 →
  ∃ w', dispatch code (S n) action w = Thrown e w' ∧
        currentState w' = currentState w ∧
        array_at w' (nextListeners w') = array_at w (nextListeners w) ∧
        isDispatching w' = false ∧
        (∃ evs, log w' = log w ++ evs ∧ ∀ t, notified t evs = []) ∧
        (∀ m action2 v2 w2 w3,
           well_formed action2 →
           reduce code m action2 (entering action2 w') = Normal v2 w2 →
           notify code m (transitions w') (nextListeners w2) 0
             (committed (transitions w') v2 w2) = Normal VUndefined w3 →
           dispatch code (S m) action2 w' = Normal action2 w3).
Proof.
  intros [Hplain Htype] Hflag Hred Hinv.
  assert (reduce code n action (entering action w) = Thrown e w1) as Hr
    by (unfold reduce; simpl; by rewrite Hred).
  destruct (reducer_phase code n action w w1) as
    (Hs & Ha & Hn & Hc & Hsub & Ht & Hf & Hm & evs1 & E1 & A1);
    [by rewrite Hr|].
  exists (set_isDispatching false w1). repeat split.
  - by rewrite dispatch_S, Hplain, Htype, Hflag, Hr.
  - done.
  - unfold array_at. simpl. by rewrite Ha, Hn.
  - exists (EReduce (transitions w) action :: evs1). split; [done|].
    intros t. simpl. by apply notified_silent.
  - intros m action2 v2 w2 w3 Hwf2 Hr2 Hpass2.
    by eapply dispatch_returns.
Qed.

(** An accepted dispatch begins its transition. *)
Lemma dispatch_begins n action w w' :
  well_formed action →
  isDispatching w = false →
  final (dispatch code (S n) action w) = Some w' →
  ∃ evs, log w' = log w ++ EReduce (transitions w) action :: evs.
Proof.
  intros [Hplain Htype] Hflag. rewrite dispatch_S, Hplain, Htype, Hflag.
  simpl negb. cbv iota.
  destruct (reduce code n action (entering action w)) as [v w1|e w1|] eqn:Hr;
    [| |done].
  - destruct (reducer_phase code n action w w1) as
      (_ & _ & _ & _ & _ & _ & _ & _ & evs1 & E1 & _); [by rewrite Hr|].
    intros Hn.
    assert (evolves (of_pass (transitions w))
              (committed (transitions w) v w1) w')
      as [[_ _ _ (evs2 & E2 & _) _ _] _ _].
    { apply (proj2 (proj2 (calls_evolve code n))
               (transitions w) (nextListeners w1) 0).
      by destruct (notify code n (transitions w) (nextListeners w1) 0 _). }
    exists (evs1 ++ ECommit (transitions w) v :: evs2).
    rewrite E2. simpl. rewrite E1. by rewrite <- !app_assoc.
  - destruct (reducer_phase code n action w w1) as
      (_ & _ & _ & _ & _ & _ & _ & _ & evs1 & E1 & _); [by rewrite Hr|].
    simpl. intros [= <-]. by exists evs1.
Qed.

Lemma evolves_log own w w' :
  evolves own w w' → ∃ evs, log w' = log w ++ evs.
Proof. intros [[_ _ _ (evs & E & _) _ _] _ _]. by exists evs. Qed.

(** A listener whose first statement is [dispatch(action)]: when the
    pass calls it on an idle container, the transition of that action
    begins. *)
Lemma listener_dispatch_begins n action w t x i f k h w' :
  well_formed action →
  isDispatching w = false →
  array_at w x !! i = Some (CUser f) →
  code f [] = Op (ODispatch action) k h →
  final (notify code (S (S (S n))) t x i w) = Some w' →
  ∃ evs, log w' = log w ++ ENotify t (CUser f) []
                           :: EReduce (transitions w) action :: evs.
Proof.
  intros Hwf Hflag Hl Hcode. rewrite notify_S, Hl. unfold invoke.
  rewrite Hcode. cbn [run_body]. rewrite perform_S.
  set (wr := record (ENotify t (CUser f) []) w).
  pose proof (dispatch_begins n action wr) as Hbegin.
  assert (∀ (p : prog value) w1,
    final (match run_body (perform code (S (S n))) p w1 with
           | Normal _ w2 => notify code (S (S n)) t x (S i) w2
           | Thrown e w2 => Thrown e w2
           | OutOfFuel => OutOfFuel
           end) = Some w' →
    ∃ evs, log w' = log w1 ++ evs) as Hrest.
  { intros p w1.
    destruct (run_body (perform code (S (S n))) p w1) as [v w2|e w2|] eqn:Hp;
      [| |done].
    - intros Hn.
      destruct (evolves_log nobody w1 w2) as [evs1 E1].
      { eapply run_body_evolves; [apply calls_evolve|]. by rewrite Hp. }
      destruct (evolves_log (of_pass t) w2 w') as [evs2 E2].
      { by eapply (proj2 (proj2 (calls_evolve code (S (S n))))). }
      exists (evs1 ++ evs2). by rewrite E2, E1, app_assoc.
    - simpl. intros [= <-]. apply (evolves_log nobody).
      eapply run_body_evolves; [apply calls_evolve|]. by rewrite Hp. }
  destruct (dispatch code (S n) action wr) as [v w1|e w1|]; [| |done].
  - intros Hw'. destruct (Hbegin w1 Hwf Hflag eq_refl) as [evs1 E1].
    destruct (Hrest _ _ Hw') as [evs2 E2].
    exists (evs1 ++ evs2). rewrite E2, E1. simpl.
    by rewrite <- !app_assoc.
  - intros Hw'. destruct (Hbegin w1 Hwf Hflag eq_refl) as [evs1 E1].
    destruct (Hrest _ _ Hw') as [evs2 E2].
    exists (evs1 ++ evs2). rewrite E2, E1. simpl.
    by rewrite <- !app_assoc.
Qed.

(** C5, as the code has it.  [dispatch] turns a call down, raising
    before the reducer is called and leaving every variable as it was,
    exactly when the action is not a plain object, or its [type] is
    undefined, or the flag is set, that is when a reducer is running;
    the errors are the ones of lines 220, 227 and 234.  Otherwise the
    transition begins.  The flag is clear when a pass begins and every
    call leaves it as it found it, so that a dispatch made by a notified
    listener is carried out. *)
Theorem dispatch_rejection n action w :
  ((isPlainObject action = false ∨
    is_undefined (get_prop action "type") = true ∨
    isDispatching w = true) ↔
   ∃ e, dispatch code (S n) action w = Thrown e w) ∧
  (isPlainObject action = false →
   dispatch code (S n) action w = Thrown ErrActionNotPlain w) ∧
  (isPlainObject action = true →
   is_undefined (get_prop action "type") = true →
   dispatch code (S n) action w = Thrown ErrActionTypeUndefined w) ∧
  (well_formed action → isDispatching w = true →
   dispatch code (S n) action w = Thrown ErrReducersMayNotDispatch w) ∧
  (well_formed action → isDispatching w = false →
   ∀ w', final (dispatch code (S n) action w) = Some w' →
     ∃ evs, log w' = log w ++ EReduce (transitions w) action :: evs) ∧
  (∀ t v w1, isDispatching (committed t v w1) = false) ∧
  (∀ o w', final (perform code n o w) = Some w' →
           isDispatching w' = isDispatching w) ∧
  (∀ t x i f k h w',
     well_formed action → isDispatching w = false →
     array_at w x !! i = Some (CUser f) →
     code f [] = Op (ODispatch action) k h →
     final (notify code (S (S (S n))) t x i w) = Some w' →
     ∃ evs, log w' = log w ++ ENotify t (CUser f) []
                              :: EReduce (transitions w) action :: evs).
Proof.
  split; [split|].
  - apply dispatch_rejected.
  - intros [e He].
    destruct (isPlainObject action) eqn:Hplain; [|by left].
    destruct (is_undefined (get_prop action "type")) eqn:Htype;
      [by right; left|].
    destruct (isDispatching w) eqn:Hflag; [by right; right|].
    destruct (dispatch_begins n action w w (conj Hplain Htype) Hflag)
      as [evs E]; [by rewrite He|].
    apply (f_equal length) in E. rewrite length_app in E. simpl in E. lia.
  - repeat split.
    + intros Hplain. by rewrite dispatch_S, Hplain.
    + intros Hplain Htype. by rewrite dispatch_S, Hplain, Htype.
    + intros [Hplain Htype] Hflag.
      by rewrite dispatch_S, Hplain, Htype, Hflag.
    + intros Hwf Hflag w'. by apply dispatch_begins.
    + intros o w' Hf. by destruct (proj1 (calls_evolve code n) o w w' Hf).
    + intros t x i f k h w'. apply listener_dispatch_begins.
Qed.

(** C10 (replaceReducer while a reducer runs).  The call raises the
    error of the nested dispatch, and what it leaves behind is the
    container as it was but for the reducer variable, which is the new
    reducer: no transition has begun. *)
Theorem replaceReducer_while_reducing n nextReducer w :
  isDispatching w = true →
  is_Some (as_callable nextReducer) →
  replaceReducer (dispatch code (S n)) nextReducer w
    = Thrown ErrReducersMayNotDispatch (set_currentReducer nextReducer w) ∧
  perform code (S (S n)) (OReplaceReducer nextReducer) w
    = Thrown ErrReducersMayNotDispatch (set_currentReducer nextReducer w) ∧
  currentReducer (set_currentReducer nextReducer w) = nextReducer ∧
  transitions (set_currentReducer nextReducer w) = transitions w ∧
  currentState (set_currentReducer nextReducer w) = currentState w ∧
  log (set_currentReducer nextReducer w) = log w.
Proof.
  intros Hflag [c Hc].
  assert (replaceReducer (dispatch code (S n)) nextReducer w
    = Thrown ErrReducersMayNotDispatch (set_currentReducer nextReducer w)) as H.
  { unfold replaceReducer. rewrite Hc, dispatch_S. simpl. by rewrite Hflag. }
  repeat split; done.
Qed.

End Dispatch.

(** * The container: [replaceReducer] and construction *)

Lemma record_all_nil w : record_all [] w = w.
Proof. destruct w. unfold record_all. simpl. by rewrite app_nil_r. Qed.

Lemma record_all_cons e evs w :
  record_all evs (record e w) = record_all (e :: evs) w.
Proof. unfold record_all. simpl. by rewrite <- app_assoc. Qed.

Section Replace.

Variable code : nat → list value → prog value.

Lemma observer_returns n p w :
  observer p → isDispatching w = false →
  ∃ v, run_body (perform code (S n)) p w = Normal v w.
Proof.
  intros Hp Hflag. induction Hp as [v|k h _ IH]; simpl.
  - by exists v.
  - unfold getState. rewrite Hflag. apply IH.
Qed.

(** A pass over observers code calls each of them and changes nothing. *)
Lemma notify_observers n t x : ∀ i w,
  isDispatching w = false →
  observers code (drop i (array_at w x)) →
  length (array_at w x) - i < n →
  notify code n t x i w
    = Normal VUndefined
        (record_all (notifications t (drop i (array_at w x))) w).
Proof.
  induction n as [|n IH]; [intros; lia|].
  intros i w Hflag Hobs Hn. rewrite notify_S.
  destruct (array_at w x !! i) as [l|] eqn:Hl.
  - rewrite (drop_S _ _ _ Hl) in Hobs |- *.
    apply Forall_cons in Hobs as [(f & -> & Hf) Hobs].
    pose proof (lookup_lt_Some _ _ _ Hl) as Hi.
    destruct n as [|n]; [lia|]. unfold invoke.
    destruct (observer_returns n (code f []) (record (ENotify t (CUser f) []) w))
      as [v ->]; [done|done|].
    rewrite IH; [|done|done|unfold array_at in *; simpl; lia].
    by rewrite record_all_cons.
  - apply lookup_ge_None_1 in Hl. rewrite drop_ge by done.
    by rewrite record_all_nil.
Qed.

(** C8, as the code has it.  [replaceReducer] raises and changes
    nothing when its argument is not callable.  Otherwise, on an idle
    container and for a reducer [f] that maps the prior state and the
    replace action to [v]: a call that returned has run one
    transition, which called the new reducer on the replace action,
    stored [v], then called every listener of the registry as it was;
    and when these listeners only read the state, the call returns,
    the reducer is the new one, the state read is [v] and the
    registry and the subscriptions are as before. *)
Theorem replaceReducer_transition n nextReducer w :
  (as_callable nextReducer = None →
   replaceReducer (dispatch code (S n)) nextReducer w
     = Thrown ErrNextReducerNotFunction w) ∧
  (∀ f v,
     nextReducer = VFun f →
     code f [currentState w; action_of_type ActionTypes.REPLACE] = Ret v →
     allocated w →
     isDispatching w = false →
     let t := transitions w in
     let registry := array_at w (nextListeners w) in
     let replace := action_of_type ActionTypes.REPLACE in
     (∀ r w', replaceReducer (dispatch code (S n)) nextReducer w
                = Normal r w' →
        ∃ evs, log w' = log w ++ evs ∧
               history t evs =
                 EReduce t replace :: ECommit t v :: notifications t registry) ∧
     (observers code registry → length registry < n →
        ∃ w', replaceReducer (dispatch code (S n)) nextReducer w
                = Normal VUndefined w' ∧
              currentReducer w' = nextReducer ∧
              getState w' = Normal v w' ∧
              array_at w' (nextListeners w') = registry ∧
              subscriptions w' = subscriptions w ∧
              log w' = log w ++ EReduce t replace :: ECommit t v
                                :: notifications t registry)).
Proof.
  split.
  { intros Hc. unfold replaceReducer. by rewrite Hc. }
  intros f v -> Hcode Hw Hflag. cbv zeta.
  set (replace := action_of_type ActionTypes.REPLACE) in *.
  set (w0 := set_currentReducer (VFun f) w).
  assert (reduce code n replace (entering replace w0)
            = Normal v (entering replace w0)) as Hr.
  { unfold reduce. simpl. by rewrite Hcode. }
  split.
  - intros r w' Hrep. unfold replaceReducer in Hrep.
    cbn [as_callable] in Hrep. fold replace w0 in Hrep.
    pose proof (dispatch_transition code n replace w0) as H.
    cbv zeta in H.
    destruct (dispatch code (S n) replace w0) as [r0 w2|e w2|]; [|done|done].
    injection Hrep as <- <-.
    destruct H as (_ & v' & w1 & evs & Hr' & _ & E & Hh); try done.
    rewrite Hr in Hr'. injection Hr' as <- <-.
    by exists evs.
  - intros Hobs Hlen.
    set (wc := committed (transitions w) v (entering replace w0)).
    assert (array_at wc (nextListeners w0) = array_at w (nextListeners w))
      as Harr by done.
    exists (record_all
              (notifications (transitions w) (array_at w (nextListeners w)))
              wc).
    split; [|repeat split].
    + unfold replaceReducer. cbn [as_callable]. fold replace w0.
      rewrite (dispatch_returns code n replace w0 v (entering replace w0)
                 (record_all
                    (notifications (transitions w)
                       (array_at w (nextListeners w))) wc)
                 (conj eq_refl eq_refl) Hflag Hr); [done|].
      pose proof (notify_observers n (transitions w) (nextListeners w0) 0 wc)
        as Hpass.
      rewrite Harr, drop_0 in Hpass. apply Hpass; [done|done|lia].
    + simpl. by rewrite <- !app_assoc.
Qed.

End Replace.

Section Construction.

Variable code : nat → list value → prog value.
Variable enhancers : nat → creator → creator.

Lemma createStore_S n args :
  createStore code enhancers (S n) args =
    let reducer := arg 0 args in
    let swap := is_function (arg 1 args) && is_undefined (arg 2 args) in
    let preloadedState := if swap then VUndefined else arg 1 args in
    let enhancer := if swap then arg 1 args else arg 2 args in
    if negb (is_undefined enhancer) then
      match enhancer with
      | VFun f =>
          enhancers f (λ _, createStore code enhancers n) n
            [reducer; preloadedState]
      | VUnsub _ => Thrown ErrNotCallable blank
      | _ => Thrown ErrEnhancerNotFunction blank
      end
    else if negb (is_function reducer) then
      Thrown ErrReducerNotFunction blank
    else
      match dispatch code n (action_of_type ActionTypes.INIT)
              (initial reducer preloadedState) with
      | Normal _ w' => Normal the_store w'
      | Thrown e w' => Thrown e w'
      | OutOfFuel => OutOfFuel
      end.
Proof. reflexivity. Qed.

(** C9, as the code has it.  Constructing a container from a callable
    reducer and an initial state that is not a function, without an
    enhancer, runs exactly one transition, with the init action, and
    then reads as what the reducer made of the initial state (not of
    [undefined], unless no initial state is given) and the init
    action. *)
Theorem createStore_init n args reducer v w1 :
  as_callable (arg 0 args) = Some reducer →
  as_callable (arg 1 args) = None →
  arg 2 args = VUndefined →
  let init := action_of_type ActionTypes.INIT in
  invoke code (perform code (S n)) reducer [arg 1 args; init]
    (entering init (initial (arg 0 args) (arg 1 args))) = Normal v w1 →
  ∃ w', createStore code enhancers (S (S (S n))) args = Normal the_store w' ∧
        getState w' = Normal v w' ∧
        transitions w' = 1 ∧
        history 0 (log w') = [EReduce 0 init; ECommit 0 v] ∧
        (∀ t, notified t (log w') = []) ∧
        allocated w' ∧
        isDispatching w' = false.
Proof.
  intros Hred Hpre Henh init Hinv.
  set (w0 := initial (arg 0 args) (arg 1 args)) in *.
  assert (reduce code (S n) init (entering init w0) = Normal v w1) as Hr
    by (unfold reduce; simpl; by rewrite Hred).
  destruct (reducer_phase code (S n) init w0 w1) as
    (Hs & Ha & Hn & Hc & Hsub & Ht & Hf & Hm & evs1 & E1 & A1);
    [by rewrite Hr|].
  assert (notify code (S n) 0 (nextListeners w1) 0 (committed 0 v w1)
            = Normal VUndefined (committed 0 v w1)) as Hpass.
  { rewrite notify_S. unfold array_at. simpl. by rewrite Ha, Hn. }
  exists (committed 0 v w1). repeat split.
  - rewrite createStore_S. cbv zeta. unfold is_function.
    rewrite Hpre, Henh, Hred. cbn [andb is_undefined negb].
    fold init. fold (initial (arg 0 args) (arg 1 args)). fold w0.
    by rewrite (dispatch_returns code (S n) init w0 v w1 (committed 0 v w1)).
  - simpl. rewrite Ht. done.
  - simpl. rewrite E1. simpl.
    change (EReduce 0 init :: evs1 ++ [ECommit 0 v])
      with ([EReduce 0 init] ++ evs1 ++ [ECommit 0 v]).
    by rewrite !history_app, (history_silent 0 evs1 A1).
  - intros t. simpl. rewrite E1. simpl.
    change (EReduce 0 init :: evs1 ++ [ECommit 0 v])
      with ([EReduce 0 init] ++ evs1 ++ [ECommit 0 v]).
    unfold notified. rewrite !omap_app.
    fold (notified t evs1). by rewrite (notified_silent t evs1 A1).
  - simpl. rewrite Ha, Hn. simpl. lia.
  - simpl. rewrite Ha, Hn. simpl. lia.
Qed.

End Construction.

(** * The pipeline builder *)

Lemma run_body_bind (perform : op → world → outcome value) {A B : Type}
    (f : A → prog B) (m : prog A) w :
  run_body perform (m ≫= f) w =
    match run_body perform m w with
    | Normal r w' => run_body perform (f r) w'
    | Thrown e w' => Thrown e w'
    | OutOfFuel => OutOfFuel
    end.
Proof.
  revert w. induction m as [r|e|o k IHk h IHh]; intros w; [done|done|].
  change (Op o k h ≫= f) with (Op o (λ v, k v ≫= f) (λ e, h e ≫= f)).
  simpl. destruct (perform o w); [apply IHk|apply IHh|done].
Qed.

Section Pipeline.

Variable code : nat → list value → prog value.

Lemma run_evolves n {R : Type} (p : prog R) w w' :
  final (run code n p w) = Some w' → evolves nobody w w'.
Proof. apply run_body_evolves, calls_evolve. Qed.

Lemma mapM_instantiates n api ms w chain w' :
  instantiates code n api ms w chain w' →
  run code n (mapM (λ m : middleware, m api) ms) w = Normal chain w'.
Proof.
  induction 1 as [w|m ms w wr w1 chain w2 Hm _ IH]; [done|].
  unfold run in *. simpl mapM.
  rewrite run_body_bind, Hm, run_body_bind, IH. done.
Qed.

Lemma foldl_wraps n (rest : list wrapper) : ∀ (a : wrapper) base w inner w1,
  wraps code n rest base w inner w1 →
  run code n (foldl (λ (a b : wrapper) args, b args ≫= a) a rest base) w
    = run code n (a inner) w1.
Proof.
  induction rest as [|b rest IH]; intros a base w inner w1 Hw.
  - by inversion Hw; subst.
  - inversion Hw as [|? ? ? ? inner0 w0 ? ? Hrest Hb]; subst. simpl.
    rewrite (IH _ base w inner0 w0 Hrest).
    unfold run in *. by rewrite run_body_bind, Hb.
Qed.

Lemma compose_wraps n chain base w dispatch w' :
  wraps code n chain base w dispatch w' →
  run code n (compose chain base) w = Normal dispatch w'.
Proof.
  destruct chain as [|f [|g rest]]; intros Hw.
  - by inversion Hw; subst.
  - inversion Hw as [|? ? ? ? inner w1 ? ? Hnil Hf]; subst.
    by inversion Hnil; subst.
  - inversion Hw as [|? ? ? ? inner w1 ? ? Hrest Hf]; subst.
    unfold compose.
    etrans; [exact (foldl_wraps n _ f base w inner w1 Hrest)|done].
Qed.

(** C4 (middleware ordering).  For every list of middleware: when the
    base container is built, the middleware are instantiated from left
    to right and their wrappers are applied from right to left, the
    rightmost to the base dispatch and the leftmost last, then the
    enhancer returns the container with the dispatch the leftmost
    wrapper made, and installs it for the forwarder. *)
Theorem middleware_order n middlewares createStore args store w
    chain w2 dispatch w3 :
  createStore n args = Normal store w →
  instantiates code n
    (MiddlewareAPI (st_getState store) (λ action, call (OApiDispatch action)))
    middlewares (set_mwDispatch None w) chain w2 →
  wraps code n chain (st_dispatch store) w2 dispatch w3 →
  applyMiddleware code middlewares createStore n args
    = Normal (Store dispatch (st_subscribe store) (st_getState store)
                (st_replaceReducer store))
             (set_mwDispatch (Some dispatch) w3).
Proof.
  intros Hstore Hinst Hwraps. unfold applyMiddleware.
  rewrite Hstore. cbv zeta.
  pose proof (mapM_instantiates _ _ _ _ _ _ Hinst) as Hchain.
  pose proof (compose_wraps _ _ _ _ _ _ Hwraps) as Hdispatch.
  unfold middleware, wrapper in *. by rewrite Hchain, Hdispatch.
Qed.

(** What the forwarder logged between two points. *)
Lemma forwards_rejected w w' :
  installed w = false →
  evolves nobody w w' →
  ∃ evs, log w' = log w ++ evs ∧
         ∀ a b, EForward a b ∈ evs → b = false.
Proof.
  intros Hi [[_ _ _ (evs & E & A) _ _] _ _]. exists evs. split; [done|].
  intros a b Hin. rewrite Forall_forall in A.
  destruct (A _ Hin) as [[]|[_ Hf]]. rewrite <- Hi. by eapply Hf.
Qed.

(** C7 (dispatch while the pipeline is assembled).  A call of the
    forwarder that finds the placeholder raises the construction-order
    error and reaches nothing: but for the log, the variables are as
    they were.  And from the construction of the base container on,
    whether the enhancer returns or raises, every call of the
    forwarder found the placeholder. *)
Theorem dispatch_while_constructing n middlewares createStore args store w :
  createStore n args = Normal store w →
  (∀ m action w0, mwDispatch w0 = None →
     run code (S m) (call (OApiDispatch action)) w0
       = Thrown ErrDispatchWhileConstructing
           (record (EForward action false) w0)) ∧
  (∀ w', final (applyMiddleware code middlewares createStore n args) = Some w' →
     ∃ evs, log w' = log w ++ evs ∧
            ∀ action b, EForward action b ∈ evs → b = false).
Proof.
  intros Hstore. split.
  { intros m action w0 Hmw. unfold run, call. simpl. by rewrite Hmw. }
  intros w'. unfold applyMiddleware. rewrite Hstore. cbv zeta.
  set (w1 := set_mwDispatch None w).
  set (api := MiddlewareAPI _ _).
  match goal with
  | |- context [@run code n ?R ?p w1] =>
      destruct (@run code n R p w1) as [chain w2|e w2|] eqn:H1
  end; [| |done].
  - assert (evolves nobody w1 w2) as E12
      by (eapply run_evolves; by rewrite H1).
    destruct (run code n (compose chain (st_dispatch store)) w2)
      as [d w3|e w3|] eqn:H2; [| |done].
    + simpl. intros [= <-].
      assert (evolves nobody w2 w3) as E23
        by (eapply run_evolves; by rewrite H2).
      apply (forwards_rejected w1 w3 eq_refl). by eapply evolves_trans.
    + simpl. intros [= <-].
      assert (evolves nobody w2 w3) as E23
        by (eapply run_evolves; by rewrite H2).
      apply (forwards_rejected w1 w3 eq_refl). by eapply evolves_trans.
  - simpl. intros [= <-].
    apply (forwards_rejected w1 w2 eq_refl).
    eapply run_evolves. by rewrite H1.
Qed.

End Pipeline.

(** * Further properties of the container *)

(** X6 (copy on write).  After [ensureCanMutateNextListeners] the next
    list is an array of its own, with the entries it had; the arrays
    there were are as they were, so that a snapshot in use is not
    written to; and a second call, or a call when the two lists were
    apart already, does nothing. *)
Theorem ensureCanMutateNextListeners_copies w :
  allocated w →
  let w' := ensureCanMutateNextListeners w in
  nextListeners w' ≠ currentListeners w' ∧
  currentListeners w' = currentListeners w ∧
  array_at w' (nextListeners w') = array_at w (nextListeners w) ∧
  arrays w `prefix_of` arrays w' ∧
  ensureCanMutateNextListeners w' = w' ∧
  (nextListeners w ≠ currentListeners w → w' = w).
Proof.
  intros Hw. cbv zeta.
  destruct (ensure_registry w Hw) as (Hnext & _ & Hne & _).
  split; [exact Hne|]. split; [|split; [exact Hnext|split; [|split]]].
  - unfold ensureCanMutateNextListeners. by case_match.
  - unfold ensureCanMutateNextListeners. case_match; [|done].
    simpl. by apply prefix_app_r.
  - unfold ensureCanMutateNextListeners at 1.
    by rewrite (proj2 (Nat.eqb_neq _ _) Hne).
  - intros Hapart. unfold ensureCanMutateNextListeners.
    by rewrite (proj2 (Nat.eqb_neq _ _) Hapart).
Qed.

(** The place of the first entry of [x] in a list is unique. *)
Lemma first_occurrence_unique {A : Type} (x : A) (a b a' b' : list A) :
  a ++ x :: b = a' ++ x :: b' → x ∉ a → x ∉ a' → a = a' ∧ b = b'.
Proof.
  revert a'. induction a as [|y a IH]; intros [|y' a'] E Ha Ha'.
  - by injection E as ->.
  - injection E as -> _. exfalso. apply Ha', elem_of_cons. by left.
  - injection E as -> _. exfalso. apply Ha, elem_of_cons. by left.
  - injection E as -> E.
    apply not_elem_of_cons in Ha as [_ Ha].
    apply not_elem_of_cons in Ha' as [_ Ha'].
    destruct (IH a' E Ha Ha') as [-> ->]. done.
Qed.

Lemma unsubscribe_keeps_state h w v w' :
  unsubscribe h w = Normal v w' → currentState w' = currentState w.
Proof.
  unfold unsubscribe, ensureCanMutateNextListeners.
  repeat case_match; try done; by intros [= _ <-].
Qed.

(** X7 (subscribe, then unsubscribe).  On an idle container, calling
    the closure that [subscribe] returned takes one entry of the
    listener out again: the registry has the entries it had before the
    two calls, the state and the live subscriptions are as before.
    The entries are in the order they had when the listener was not
    registered before; when it was, its first entry is the one that
    goes, and the listener stays as the last entry. *)
Theorem subscribe_then_unsubscribe listener l w :
  as_callable listener = Some l →
  registered w →
  isDispatching w = false →
  ∃ w1 w2,
    subscribe listener w = Normal (VUnsub (length (subscriptions w))) w1 ∧
    unsubscribe (length (subscriptions w)) w1 = Normal VUndefined w2 ∧
    array_at w2 (nextListeners w2) ≡ₚ array_at w (nextListeners w) ∧
    (l ∉ array_at w (nextListeners w) →
     array_at w2 (nextListeners w2) = array_at w (nextListeners w)) ∧
    (∀ l1 l2, array_at w (nextListeners w) = l1 ++ l :: l2 → l ∉ l1 →
              array_at w2 (nextListeners w2) = l1 ++ l2 ++ [l]) ∧
    live (subscriptions w2) = live (subscriptions w) ∧
    currentState w2 = currentState w.
Proof.
  intros Hl Hreg Hflag.
  destruct (subscribe_accepted listener l w Hl Hflag (proj1 Hreg))
    as (w1 & Hsub & Hnext1 & _ & Hsubs1 & Hstate1 & _).
  assert (registered w1) as Hreg1 by (by eapply subscribe_registered).
  assert (isDispatching w1 = false) as Hflag1.
  { assert (evolves nobody w w1) as [_ F _]; [|congruence].
    apply (subscribe_evolves nobody listener). by rewrite Hsub. }
  assert (subscriptions w1 !! length (subscriptions w) = Some (l, true))
    as Hh by (rewrite Hsubs1; apply list_lookup_middle; done).
  destruct (unsubscribe_accepted _ l w1 Hreg1 Hh Hflag1)
    as (w2 & l1' & l2' & Hun & Harr & Hl1' & Hnext2 & _ & Hsubs2 & _).
  exists w1, w2. split; [done|]. split; [done|].
  rewrite Hnext1 in Harr. rewrite Hnext2.
  split; [|split; [|split; [|split]]].
  - apply (Permutation_cons_inv (a := l)).
    rewrite Permutation_middle, <- Harr.
    by rewrite <- Permutation_cons_append.
  - intros Hnew.
    destruct (first_occurrence_unique l (array_at w (nextListeners w)) []
                l1' l2' Harr Hnew Hl1') as [<- <-].
    by rewrite app_nil_r.
  - intros l1 l2 Hw Hl1. rewrite Hw, <- app_assoc in Harr. simpl in Harr.
    destruct (first_occurrence_unique l l1 (l2 ++ [l]) l1' l2' Harr Hl1 Hl1')
      as [<- <-].
    done.
  - rewrite Hsubs2, Hsubs1.
    rewrite insert_app_r_alt by done. rewrite Nat.sub_diag. simpl.
    rewrite !live_app. unfold live at 2. simpl. by rewrite app_nil_r.
  - rewrite (unsubscribe_keeps_state _ _ _ _ Hun). done.
Qed.

Lemma drop_cons_inv {A : Type} (l : list A) i a rest :
  drop i l = a :: rest → l !! i = Some a ∧ drop (S i) l = rest.
Proof.
  intros E.
  assert (l !! i = Some a) as Hl.
  { rewrite <- (Nat.add_0_r i), <- lookup_drop. by rewrite E. }
  split; [done|]. rewrite (drop_S _ _ _ Hl) in E. by injection E.
Qed.

Section Failure.

Variable code : nat → list value → prog value.

(** A pass over listeners that only read the state, up to one that
    throws. *)
Lemma notify_throws t x e g ls2 : ∀ ls1 n i w,
  isDispatching w = false →
  drop i (array_at w x) = ls1 ++ CUser g :: ls2 →
  observers code ls1 →
  code g [] = Throw e →
  length ls1 < n →
  notify code (S n) t x i w
    = Thrown e (record_all (notifications t (ls1 ++ [CUser g])) w).
Proof.
  induction ls1 as [|l ls1 IH]; intros n i w Hflag Hdrop Hobs Hg Hn.
  - apply drop_cons_inv in Hdrop as [Hl _].
    rewrite notify_S, Hl. unfold invoke. rewrite Hg. simpl.
    by rewrite <- (record_all_nil (record _ w)), record_all_cons.
  - simpl in Hdrop. apply drop_cons_inv in Hdrop as [Hl Hdrop].
    apply Forall_cons in Hobs as [(f & -> & Hf) Hobs].
    destruct n as [|n]; [simpl in Hn; lia|].
    rewrite notify_S, Hl. unfold invoke.
    destruct (observer_returns code n (code f [])
                (record (ENotify t (CUser f) []) w))
      as [v ->]; [done|done|].
    rewrite (IH n (S i) (record (ENotify t (CUser f) []) w));
      [|done|done|done|done|simpl in Hn; lia].
    by rewrite record_all_cons.
Qed.

(** X8 (a listener throws).  On an idle container whose reducer
    returns [v], with a registry of listeners that only read the state
    up to one that throws [e]: [dispatch] throws [e]; the state stored
    is [v], it is not taken back; the listeners up to the one that
    threw were called, in order, and the ones behind it were not; the
    flag is clear and the registry is as it was. *)
Theorem listener_failure n action w f v ls1 g e ls2 :
  allocated w →
  well_formed action →
  isDispatching w = false →
  currentReducer w = VFun f →
  code f [currentState w; action] = Ret v →
  array_at w (nextListeners w) = ls1 ++ CUser g :: ls2 →
  observers code ls1 →
  code g [] = Throw e →
  length ls1 < n →
  ∃ w', dispatch code (S (S n)) action w = Thrown e w' ∧
        getState w' = Normal v w' ∧
        array_at w' (nextListeners w') = array_at w (nextListeners w) ∧
        subscriptions w' = subscriptions w ∧
        log w' = log w ++ EReduce (transitions w) action
                   :: ECommit (transitions w) v
                   :: notifications (transitions w) (ls1 ++ [CUser g]).
Proof.
  intros Hw [Hplain Htype] Hflag Hred Hf Hreg Hobs Hg Hn.
  set (t := transitions w).
  set (wc := committed t v (entering action w)).
  exists (record_all (notifications t (ls1 ++ [CUser g])) wc).
  split; [|repeat split].
  - rewrite dispatch_S, Hplain, Htype, Hflag. simpl negb. cbv iota.
    unfold reduce, entering. cbn [currentReducer record begin_transition
      set_isDispatching currentState]. rewrite Hred. cbn [as_callable].
    unfold invoke. rewrite Hf. cbn [run_body].
    fold (entering action w). fold t. fold wc.
    rewrite (notify_throws t (nextListeners (entering action w)) e g ls2
               ls1 n 0 wc); [done|done| |done|done|done].
    by rewrite drop_0.
  - simpl. by rewrite <- !app_assoc.
Qed.

End Failure.

(** ** The composer, with effects *)

Lemma run_body_assoc (perform : op → world → outcome value) {A B C : Type}
    (m : prog A) (f : A → prog B) (g : B → prog C) w :
  run_body perform ((m ≫= f) ≫= g) w
    = run_body perform (m ≫= λ x, f x ≫= g) w.
Proof.
  rewrite !run_body_bind.
  destruct (run_body perform m w); [|done|done]. by rewrite run_body_bind.
Qed.

Lemma foldl_compose_run (perform : op → world → outcome value) {A : Type}
    (rest : list (A → prog A)) : ∀ (a : A → prog A) x w,
  run_body perform (foldl (λ a b args, b args ≫= a) a rest x) w
    = run_body perform (foldr (λ f m, m ≫= f) (Ret x) rest ≫= a) w.
Proof.
  induction rest as [|b rest IH]; intros a x w; [done|].
  simpl. rewrite IH. symmetry. apply run_body_assoc.
Qed.

Lemma compose_run (perform : op → world → outcome value) {A : Type}
    (funcs : list (A → prog A)) x w :
  run_body perform (compose funcs x) w
    = run_body perform (foldr (λ f m, m ≫= f) (Ret x) funcs) w.
Proof.
  destruct funcs as [|f [|g rest]]; [done|done|].
  unfold compose. by rewrite foldl_compose_run.
Qed.

Lemma foldr_run (perform : op → world → outcome value) {A : Type}
    (funcs : list (A → prog A)) (m : prog A) w :
  run_body perform (foldr (λ f m, m ≫= f) m funcs) w
    = match run_body perform m w with
      | Normal y w' =>
          run_body perform (foldr (λ f m, m ≫= f) (Ret y) funcs) w'
      | Thrown e w' => Thrown e w'
      | OutOfFuel => OutOfFuel
      end.
Proof.
  induction funcs as [|f funcs IH]; simpl.
  - by destruct (run_body perform m w).
  - rewrite run_body_bind, IH.
    destruct (run_body perform m w); [|done|done]. by rewrite run_body_bind.
Qed.

(** X9 (composing functions with effects).  The composite of functions
    that call into the container runs the rightmost function on the
    argument, then each function to the left on what the one to its
    right returned, and what the leftmost returns is the result; an
    exception of one of them is the exception of the composite, and
    the functions to its left do not run. *)
Theorem compose_sequence (perform : op → world → outcome value) {A : Type}
    (funcs : list (A → prog A)) (f : A → prog A) x w :
  run_body perform (compose [] x) w = Normal x w ∧
  run_body perform (compose (f :: funcs) x) w
    = match run_body perform (compose funcs x) w with
      | Normal y w' => run_body perform (f y) w'
      | Thrown e w' => Thrown e w'
      | OutOfFuel => OutOfFuel
      end.
Proof.
  split; [done|]. rewrite !compose_run. simpl. by rewrite run_body_bind.
Qed.

(** X10 (composing in two steps).  [compose(...fs, ...gs)] is the
    composite of [compose(...fs)] and [compose(...gs)]: for pure
    functions, and for functions with effects, where the composite of
    [gs] runs first and its exception ends the call. *)
Theorem compose_app {A : Type} :
  (∀ (fs gs : list (A → A)) (x : A),
     compose (M := pure) (fs ++ gs) x
       = compose (M := pure) fs (compose (M := pure) gs x)) ∧
  (∀ (perform : op → world → outcome value) (fs gs : list (A → prog A)) x w,
     run_body perform (compose (fs ++ gs) x) w
       = match run_body perform (compose gs x) w with
         | Normal y w' => run_body perform (compose fs y) w'
         | Thrown e w' => Thrown e w'
         | OutOfFuel => OutOfFuel
         end).
Proof.
  split.
  - assert (∀ (funcs : list (A → A)) (x : A),
      compose (M := pure) funcs x = foldr (λ f y, f y) x funcs) as Hfold.
    { intros [|f [|g rest]] x; [done|done|].
      unfold compose. by rewrite foldl_compose_pure. }
    intros fs gs x. by rewrite !Hfold, foldr_app.
  - intros perform fs gs x w.
    rewrite !compose_run, foldr_app, foldr_run.
    destruct (run_body perform (foldr _ (Ret x) gs) w); [|done|done].
    by rewrite compose_run.
Qed.

(** ** The arguments of [createStore] *)

Section Arguments.

Variable code : nat → list value → prog value.
Variable enhancers : nat → creator → creator.

(** X11 (the arguments of createStore).  A function as second argument,
    with no third one, is taken as the enhancer and no initial state is
    given; only the first three arguments are read.  An enhancer that
    is neither undefined nor a function is refused, whatever the
    reducer is.  With an enhancer, the container is what the enhancer
    makes of [createStore] for the reducer and the initial state: the
    call itself does not look at the reducer.  Without one, a reducer
    that is no function is refused. *)
Theorem createStore_arguments n reducer preloadedState enhancer :
  (∀ f, createStore code enhancers (S n) [reducer; VFun f]
        = createStore code enhancers (S n) [reducer; VUndefined; VFun f]) ∧
  (∀ more, createStore code enhancers (S n)
             (reducer :: preloadedState :: enhancer :: more)
           = createStore code enhancers (S n)
               [reducer; preloadedState; enhancer]) ∧
  (is_undefined enhancer = false → is_function enhancer = false →
   createStore code enhancers (S n) [reducer; preloadedState; enhancer]
     = Thrown ErrEnhancerNotFunction blank) ∧
  (∀ f, createStore code enhancers (S n) [reducer; preloadedState; VFun f]
        = enhancers f (λ _, createStore code enhancers n) n
            [reducer; preloadedState]) ∧
  (is_function reducer = false → is_function preloadedState = false →
   createStore code enhancers (S n) [reducer; preloadedState]
     = Thrown ErrReducerNotFunction blank).
Proof.
  split; [done|]. split; [done|]. split; [|split].
  - intros Hdef Hfun. rewrite createStore_S. cbv zeta.
    change (arg 2 [reducer; preloadedState; enhancer]) with enhancer.
    rewrite Hdef, andb_false_r. simpl negb. cbv iota.
    by destruct enhancer.
  - intros f. rewrite createStore_S. cbv zeta.
    change (arg 2 [reducer; preloadedState; VFun f]) with (VFun f).
    by rewrite andb_false_r.
  - intros Hred Hpre. rewrite createStore_S. cbv zeta.
    change (arg 1 [reducer; preloadedState]) with preloadedState.
    change (arg 0 [reducer; preloadedState]) with reducer.
    by rewrite Hpre, Hred.
Qed.

End Arguments.

(** ** The pipeline builder: what it returns, and when it fails *)

Section Installation.

Variable code : nat → list value → prog value.

(** A call of the forwarder, once a dispatch is installed. *)
Lemma forwarder_installed m action d w :
  mwDispatch w = Some d →
  run code (S m) (call (OApiDispatch action)) w
    = run code m (d action) (record (EForward action true) w).
Proof.
  intros Hmw. unfold run, call. simpl. rewrite Hmw.
  by destruct (run_body (perform code m) (d action) _).
Qed.

(** X12 (what applyMiddleware returns).  When the enhancer returns, the
    base container was built, the members of the container returned
    are the ones of the base container but for [dispatch], and the
    forwarder given to the middleware now calls this very [dispatch]:
    a dispatch made by a middleware goes through the whole pipeline. *)
Theorem applyMiddleware_installs n middlewares createStore args store' w' :
  applyMiddleware code middlewares createStore n args = Normal store' w' →
  ∃ store w,
    createStore n args = Normal store w ∧
    st_subscribe store' = st_subscribe store ∧
    st_getState store' = st_getState store ∧
    st_replaceReducer store' = st_replaceReducer store ∧
    mwDispatch w' = Some (st_dispatch store') ∧
    (∀ m action,
       run code (S m) (call (OApiDispatch action)) w'
         = run code m (st_dispatch store' action)
             (record (EForward action true) w')).
Proof.
  unfold applyMiddleware.
  destruct (createStore n args) as [store w| |]; [|done|done]. cbv zeta.
  match goal with
  | |- context [@run code n ?R ?p ?w1] =>
      destruct (@run code n R p w1) as [chain w2|e w2|]
  end; [|done|done].
  destruct (run code n (compose chain (st_dispatch store)) w2)
    as [d w3|e w3|]; [|done|done].
  intros [= <- <-]. exists store, w. repeat split.
  intros m action. by apply forwarder_installed.
Qed.

(** X13 (when applyMiddleware fails).  When the enhancer throws, either
    the construction of the base container threw, or a middleware, or
    one of their wrappers, did; in that case the forwarder is left with
    the placeholder, so that a middleware that kept it can never
    dispatch. *)
Theorem applyMiddleware_failure n middlewares createStore args e w' :
  applyMiddleware code middlewares createStore n args = Thrown e w' →
  createStore n args = Thrown e w' ∨
  (∃ store w,
     createStore n args = Normal store w ∧
     mwDispatch w' = None ∧
     ∀ m action,
       run code (S m) (call (OApiDispatch action)) w'
         = Thrown ErrDispatchWhileConstructing
             (record (EForward action false) w')).
Proof.
  unfold applyMiddleware.
  destruct (createStore n args) as [store w|e0 w0|];
    [|intros [= <- <-]; by left|done].
  cbv zeta. set (w1 := set_mwDispatch None w). intros H. right.
  assert (mwDispatch w' = None) as Hmw.
  { revert H.
    match goal with
    | |- context [@run code n ?R ?p w1] =>
        destruct (@run code n R p w1) as [chain w2|e2 w2|] eqn:H1
    end; [| |done].
    - assert (evolves nobody w1 w2) as [[M2 _ _ _ _ _] _ _]
        by (eapply run_evolves; by rewrite H1).
      destruct (run code n (compose chain (st_dispatch store)) w2)
        as [d w3|e3 w3|] eqn:H2; [done| |done].
      intros [= _ <-].
      assert (evolves nobody w2 w3) as [[M3 _ _ _ _ _] _ _]
        by (eapply run_evolves; by rewrite H2).
      by rewrite M3, M2.
    - intros [= _ <-].
      assert (evolves nobody w1 w2) as [[M2 _ _ _ _ _] _ _]
        by (eapply run_evolves; by rewrite H1).
      by rewrite M2. }
  exists store, w. split; [done|]. split; [done|].
  intros m action. unfold run, call. simpl. by rewrite Hmw.
Qed.

(** X14 (no middleware).  Without middleware the enhancer returns the
    base container as it is, [dispatch] included, and installs this
    [dispatch] for the forwarder; it throws what the construction of
    the base container throws. *)
Theorem applyMiddleware_nil n createStore args :
  applyMiddleware code [] createStore n args
    = match createStore n args with
      | Normal store w =>
          Normal store (set_mwDispatch (Some (st_dispatch store)) w)
      | Thrown e w => Thrown e w
      | OutOfFuel => OutOfFuel
      end.
Proof.
  unfold applyMiddleware.
  by destruct (createStore n args) as [[d s g r] w| |].
Qed.

End Installation.

(** ** Binding action creators *)

Lemma lookup_set_prop {A : Type} (key k : string) (x : A) props :
  lookup_prop key (set_prop k x props)
    = if String.eqb k key then Some x else lookup_prop key props.
Proof.
  induction props as [|[k' y] props IH]; simpl.
  - done.
  - destruct (String.eqb_spec k' k) as [->|Hk]; simpl.
    + by destruct (String.eqb k key).
    + rewrite IH. destruct (String.eqb_spec k' key) as [->|Hk']; [|done].
      by rewrite (proj2 (String.eqb_neq k key)).
Qed.

Lemma fst_set_prop {A : Type} (k : string) (x : A) props :
  k ∉ props.*1 → (set_prop k x props).*1 = props.*1 ++ [k].
Proof.
  induction props as [|[k' y] props IH]; [done|].
  rewrite !fmap_cons. cbn [fst set_prop].
  intros [Hk Hin]%not_elem_of_cons.
  rewrite (proj2 (String.eqb_neq k' k)) by done.
  rewrite fmap_cons. cbn [fst]. by rewrite IH.
Qed.

Lemma elem_of_keys_filter (k key : string) ks :
  key ∈ List.filter (λ k', negb (String.eqb k' k)) ks ↔ key ≠ k ∧ key ∈ ks.
Proof.
  rewrite !list_elem_of_In, filter_In, negb_true_iff, String.eqb_neq.
  tauto.
Qed.

(** A name that [Object.keys] does not list reads as [undefined]. *)
Lemma assoc_not_key key props :
  key ∉ keys props → assoc key props = VUndefined.
Proof.
  induction props as [|[k v] props IH]; simpl; [done|].
  intros [Hk Hin]%not_elem_of_cons.
  rewrite (proj2 (String.eqb_neq k key)) by done. apply IH.
  intros Hkey. apply Hin, elem_of_keys_filter. done.
Qed.

Lemma keys_NoDup props : NoDup (keys props).
Proof.
  induction props as [|[k v] props IH]; simpl; [constructor|].
  constructor.
  - rewrite elem_of_keys_filter. by intros [? _].
  - apply NoDup_ListNoDup, List.NoDup_filter. by apply NoDup_ListNoDup.
Qed.

Section Bound.

Variable code : nat → list value → prog value.
Variable dispatch : value → prog value.
Variable props : list (string * value).

Lemma lookup_bind_keys key : ∀ ks acc,
  lookup_prop key (foldl (bind_key code props dispatch) acc ks)
    = match (if bool_decide (key ∈ ks) then as_callable (assoc key props)
             else None) with
      | Some c => Some (bindActionCreator code c dispatch)
      | None => lookup_prop key acc
      end.
Proof.
  induction ks as [|k ks IH]; intros acc; simpl; [done|].
  rewrite IH. clear IH.
  assert (lookup_prop key (bind_key code props dispatch acc k)
          = if bool_decide (k = key)
            then match as_callable (assoc key props) with
                 | Some c => Some (bindActionCreator code c dispatch)
                 | None => lookup_prop key acc
                 end
            else lookup_prop key acc) as ->.
  { unfold bind_key. case_bool_decide as Hk.
    - subst k. destruct (as_callable (assoc key props)); [|done].
      by rewrite lookup_set_prop, String.eqb_refl.
    - destruct (as_callable (assoc k props)); [|done].
      by rewrite lookup_set_prop, (proj2 (String.eqb_neq k key)). }
  destruct (decide (key ∈ ks)) as [Hin|Hin].
  - rewrite (bool_decide_eq_true_2 (key ∈ ks)) by done.
    rewrite (bool_decide_eq_true_2 (key ∈ k :: ks))
      by (apply elem_of_cons; by right).
    destruct (as_callable (assoc key props)); [done|].
    by case_bool_decide.
  - rewrite (bool_decide_eq_false_2 (key ∈ ks)) by done.
    case_bool_decide as Hk.
    + subst k.
      rewrite (bool_decide_eq_true_2 (key ∈ key :: ks))
        by (apply elem_of_cons; by left).
      done.
    + rewrite (bool_decide_eq_false_2 (key ∈ k :: ks)); [done|].
      intros [->|?]%elem_of_cons; done.
Qed.

Lemma fst_bind_keys : ∀ ks acc,
  NoDup ks → (∀ k, k ∈ ks → k ∉ acc.*1) →
  (foldl (bind_key code props dispatch) acc ks).*1
    = acc.*1 ++ List.filter (λ key, is_function (assoc key props)) ks.
Proof.
  induction ks as [|k ks IH]; intros acc Hnd Hacc; simpl.
  - by rewrite app_nil_r.
  - apply NoDup_cons in Hnd as [Hk Hnd].
    assert (k ∉ acc.*1) as Hnew by (apply Hacc, elem_of_cons; by left).
    unfold bind_key at 2, is_function.
    destruct (as_callable (assoc k props)) as [c|].
    + rewrite IH; [|done|].
      * rewrite fst_set_prop by done. by rewrite <- app_assoc.
      * intros k' Hk'. rewrite fst_set_prop by done.
        rewrite not_elem_of_app. split.
        -- apply Hacc, elem_of_cons. by right.
        -- intros ->%list_elem_of_singleton. done.
    + apply IH; [done|]. intros k' Hk'. apply Hacc, elem_of_cons. by right.
Qed.

(** X15 (binding the creators of an object).  From an object,
    [bindActionCreators] makes an object that has, under each name, the
    bound creator of the function the given object has under this
    name, and nothing under a name where the given object has no
    function, or nothing; the names are in the order of the given
    object. *)
Theorem bindActionCreators_object literal :
  ∃ boundActionCreators,
    bindActionCreators code (VObj literal props) dispatch
      = inr (BoundObject boundActionCreators) ∧
    (∀ key, lookup_prop key boundActionCreators
            = (λ c, bindActionCreator code c dispatch)
                <$> as_callable (assoc key props)) ∧
    boundActionCreators.*1
      = List.filter (λ key, is_function (assoc key props)) (keys props).
Proof.
  eexists. split; [done|]. split.
  - intros key. rewrite lookup_bind_keys. case_bool_decide as Hin.
    + by destruct (as_callable (assoc key props)).
    + by rewrite (assoc_not_key key props Hin).
  - rewrite fst_bind_keys; [done|apply keys_NoDup|].
    intros k _. apply not_elem_of_nil.
Qed.

(** X16 (what cannot be bound).  [bindActionCreators] throws exactly
    when it is given neither a function nor an object, or [null]; the
    error names the type of what it was given, and 'null' for
    [null]. *)
Theorem bindActionCreators_rejects actionCreators err :
  bindActionCreators code actionCreators dispatch = inl err ↔
  typeof actionCreators ≠ "function" ∧
  (typeof actionCreators ≠ "object" ∨ actionCreators = VNull) ∧
  err = ErrBindExpected
          (match actionCreators with
           | VNull => "null"
           | _ => typeof actionCreators
           end).
Proof.
  destruct actionCreators; simpl; split;
    try (intros [= <-]; split; [done|split; [by left|done]]);
    try (intros (_ & _ & ->); done).
  - intros [= <-]. split; [done|]. split; [by right|done].
  - done.
  - intros (_ & [H|H] & _); done.
  - done.
  - intros (H & _); done.
  - done.
  - intros (H & _); done.
Qed.

End Bound.

Section BoundDispatch.

Variable code : nat → list value → prog value.

Lemma run_call_value n c args w :
  run code (S n) (call_value code c args) w
    = invoke code (perform code (S n)) c args w.
Proof.
  destruct c as [f|h]; [done|].
  unfold run, call_value, call. simpl. by destruct (unsubscribe h w).
Qed.

(** X17 (a bound creator).  A call of a creator bound to the dispatch
    of a container calls the creator with the arguments of the call,
    then dispatches what it returned and returns what [dispatch]
    returns; when the creator throws, nothing is dispatched. *)
Theorem bound_creator_dispatches n actionCreator args w :
  run code (S n)
    (bindActionCreator code actionCreator (st_dispatch the_store) args) w
    = match invoke code (perform code (S n)) actionCreator args w with
      | Normal action w1 => dispatch code n action w1
      | Thrown e w1 => Thrown e w1
      | OutOfFuel => OutOfFuel
      end.
Proof.
  unfold bindActionCreator. unfold run at 1. rewrite run_body_bind.
  fold (run code (S n) (call_value code actionCreator args) w).
  rewrite run_call_value.
  destruct (invoke code (perform code (S n)) actionCreator args w)
    as [action w1| |]; [|done|done].
  simpl. by destruct (dispatch code n action w1).
Qed.

End BoundDispatch.

(** ** The observable *)

Section Observable.

Variable code : nat → list value → prog value.

Lemma run_getState n {R : Type} (k : value → prog R) w :
  run code (S n) (call OGetState ≫= k) w
    = if isDispatching w then Thrown ErrGetStateWhileReducing w
      else run code (S n) (k (currentState w)) w.
Proof.
  unfold run. rewrite run_body_bind. unfold call, getState. simpl.
  unfold getState. by destruct (isDispatching w).
Qed.

(** What a call of the closure [observeState] does. *)
Lemma observeState_next n observer w :
  run code (S n) (observeState code observer) w
    = if truthy (get_prop observer "next") then
        if isDispatching w then Thrown ErrGetStateWhileReducing w
        else
          match as_callable (get_prop observer "next") with
          | Some next =>
              match invoke code (perform code (S n)) next
                      [currentState w] w with
              | Normal _ w' => Normal VUndefined w'
              | Thrown e w' => Thrown e w'
              | OutOfFuel => OutOfFuel
              end
          | None => Thrown ErrNotCallable w
          end
      else Normal VUndefined w.
Proof.
  unfold observeState. destruct (truthy (get_prop observer "next")); [|done].
  rewrite run_getState. destruct (isDispatching w); [done|].
  unfold run. rewrite run_body_bind.
  destruct (as_callable (get_prop observer "next")) as [next|]; [|done].
  fold (run code (S n) (call_value code next [currentState w]) w).
  rewrite run_call_value.
  by destruct (invoke code (perform code (S n)) next [currentState w] w).
Qed.

(** X18 (observeState).  The closure does nothing for an observer
    without [next], or whose [next] is false, null, zero or empty.
    Otherwise it reads the state, which fails while a reducer runs,
    and calls [next] with it, which fails when [next] is no function;
    what [next] throws it throws, what [next] returns it drops. *)
Theorem observeState_calls_next n observer w :
  (truthy (get_prop observer "next") = false →
   run code (S n) (observeState code observer) w = Normal VUndefined w) ∧
  (truthy (get_prop observer "next") = true → isDispatching w = true →
   run code (S n) (observeState code observer) w
     = Thrown ErrGetStateWhileReducing w) ∧
  (truthy (get_prop observer "next") = true → isDispatching w = false →
   as_callable (get_prop observer "next") = None →
   run code (S n) (observeState code observer) w = Thrown ErrNotCallable w) ∧
  (∀ next, as_callable (get_prop observer "next") = Some next →
           isDispatching w = false →
           run code (S n) (observeState code observer) w
             = match invoke code (perform code (S n)) next
                       [currentState w] w with
               | Normal _ w' => Normal VUndefined w'
               | Thrown e w' => Thrown e w'
               | OutOfFuel => OutOfFuel
               end).
Proof.
  rewrite observeState_next. repeat split.
  - by intros ->.
  - by intros -> ->.
  - by intros -> -> ->.
  - intros next Hnext ->. rewrite Hnext.
    by destruct (get_prop observer "next").
Qed.

(** X19 (subscribing an observer).  For an observer that is an object,
    on an idle container: the closure is called once at once; when
    this call throws, so does [subscribe], and nothing is registered;
    when it returns, the closure goes to the end of the registry as
    this call left it, and the object returned holds the closure that
    takes it out again. *)
Theorem observable_subscribe_registers n f literal props w :
  allocated w →
  isDispatching w = false →
  ∃ p, observable_subscribe code f (VObj literal props) = inr p ∧
    match run code (S n) (observeState code (VObj literal props)) w with
    | Normal _ w1 =>
        ∃ w2,
          run code (S n) p w
            = Normal (VObj true [("unsubscribe",
                                  VUnsub (length (subscriptions w1)))]) w2 ∧
          array_at w2 (nextListeners w2)
            = array_at w1 (nextListeners w1) ++ [CUser f] ∧
          subscriptions w2 = subscriptions w1 ++ [(CUser f, true)] ∧
          currentState w2 = currentState w1 ∧
          log w2 = log w1
    | Thrown e w1 => run code (S n) p w = Thrown e w1
    | OutOfFuel => run code (S n) p w = OutOfFuel
    end.
Proof.
  intros Hw Hflag. eexists. split; [done|].
  unfold run at 2 3 4. rewrite run_body_bind.
  fold (run code (S n) (observeState code (VObj literal props)) w).
  destruct (run code (S n) (observeState code (VObj literal props)) w)
    as [v w1|e w1|] eqn:Hfirst; [|done|done].
  assert (evolves nobody w w1) as [[_ _ _ _ _ Ha] Hf _]
    by (eapply run_evolves; by rewrite Hfirst).
  destruct (subscribe_accepted (VFun f) (CUser f) w1 eq_refl)
    as (w2 & Hsub & Hnext & _ & Hsubs & Hstate & Hlog);
    [congruence|by apply Ha|].
  exists w2. split; [|done].
  rewrite run_body_bind. unfold call. simpl. by rewrite Hsub.
Qed.

(** X20 (observers refused).  [subscribe] of the observable throws a
    TypeError, before anything else, exactly for what is no object, and
    for [null].  While a reducer runs it throws for every observer and
    changes nothing: reading the state is refused when there is a
    [next] to call, and subscribing is refused otherwise. *)
Theorem observable_subscribe_refused n f observer :
  (observable_subscribe code f observer = inl ErrObserverNotObject ↔
   typeof observer ≠ "object" ∨ observer = VNull) ∧
  (∀ p w,
     observable_subscribe code f observer = inr p →
     isDispatching w = true →
     run code (S n) p w
       = Thrown (if truthy (get_prop observer "next")
                 then ErrGetStateWhileReducing
                 else ErrSubscribeWhileReducing) w).
Proof.
  split.
  - destruct observer; simpl; split; try done;
      try (intros _; by left); try (intros [H|H]; done).
    intros _. by right.
  - intros p w Hp Hflag. destruct observer; try done.
    injection Hp as <-. unfold run. rewrite run_body_bind.
    fold (run code (S n) (observeState code (VObj literal props)) w).
    rewrite observeState_next.
    destruct (truthy (get_prop (VObj literal props) "next"));
      rewrite ?Hflag; [done|].
    simpl. unfold subscribe. simpl. by rewrite Hflag.
Qed.

(** X21 (an observer in a pass).  When the pass of a transition comes
    to the closure of an observer whose [next] is a function, it calls
    [next] with the state current at that time, then goes on with the
    listeners behind; what [next] throws ends the pass. *)
Theorem observer_notified n t x i w f observer g :
  code f [] = observeState code observer →
  get_prop observer "next" = VFun g →
  isDispatching w = false →
  array_at w x !! i = Some (CUser f) →
  notify code (S (S n)) t x i w
    = match run code (S n) (code g [currentState w])
              (record (ENotify t (CUser f) []) w) with
      | Normal _ w' => notify code (S n) t x (S i) w'
      | Thrown e w' => Thrown e w'
      | OutOfFuel => OutOfFuel
      end.
Proof.
  intros Hf Hnext Hflag Hl. rewrite notify_S, Hl. unfold invoke.
  rewrite Hf.
  fold (run code (S n) (observeState code observer)
          (record (ENotify t (CUser f) []) w)).
  rewrite observeState_next, Hnext. simpl truthy. cbv iota.
  cbn [isDispatching record]. rewrite Hflag. cbn [as_callable invoke].
  cbn [currentState record].
  unfold run.
  by destruct (run_body (perform code (S n)) (code g [currentState w]) _).
Qed.

End Observable.

(** ** A function as initial state *)

Section FunctionState.

Variable code : nat → list value → prog value.
Variable enhancers : nat → creator → creator.

(** X22 (a function as initial state).  [createStore] passes a state
    that is a function on to the enhancer it is given; when this
    enhancer is [applyMiddleware(...)], which calls [createStore] with
    the reducer and the state alone, the function is taken for an
    enhancer there, and called: it does not become the state. *)
Theorem function_state_is_enhancer n reducer s g middlewares :
  enhancers g = applyMiddleware code middlewares →
  createStore code enhancers (S (S n)) [reducer; VFun s; VFun g]
    = applyMiddleware code middlewares
        (λ _, createStore code enhancers (S n)) (S n) [reducer; VFun s] ∧
  createStore code enhancers (S n) [reducer; VFun s]
    = enhancers s (λ _, createStore code enhancers n) n [reducer; VUndefined].
Proof.
  intros Hg. split.
  - rewrite createStore_S. cbv zeta.
    change (arg 2 [reducer; VFun s; VFun g]) with (VFun g).
    rewrite andb_false_r. cbn [negb is_undefined]. cbv iota.
    by rewrite Hg.
  - by rewrite createStore_S.
Qed.

End FunctionState.

(** ** The state and the commits *)

Lemma last_state_app s0 evs1 evs2 :
  last_state s0 (evs1 ++ evs2) = last_state (last_state s0 evs1) evs2.
Proof. apply foldl_app. Qed.

Lemma last_state_silent s evs :
  Forall (λ e, event_tid e = None) evs → last_state s evs = s.
Proof.
  intros H. revert s. induction H as [|e evs He _ IH]; intros s; [done|].
  simpl. by destruct e.
Qed.

Lemma tracked_same s0 w w' :
  currentState w' = currentState w → log w' = log w →
  tracked s0 w → tracked s0 w'.
Proof. unfold tracked. by intros -> ->. Qed.

Lemma tracked_record s0 e w :
  event_tid e = None ∨ (∃ t a, e = EReduce t a) ∨ (∃ t l args, e = ENotify t l args) →
  tracked s0 w → tracked s0 (record e w).
Proof.
  unfold tracked. simpl. intros He ->. rewrite last_state_app. simpl.
  destruct He as [He|[(t & a & ->)|(t & l & args & ->)]]; [|done|done].
  by destruct e.
Qed.

Lemma subscribe_keeps listener w w' :
  final (subscribe listener w) = Some w' →
  currentState w' = currentState w ∧ log w' = log w.
Proof.
  unfold subscribe, ensureCanMutateNextListeners.
  repeat case_match; simpl; by intros [= <-].
Qed.

Lemma unsubscribe_keeps h w w' :
  final (unsubscribe h w) = Some w' →
  currentState w' = currentState w ∧ log w' = log w.
Proof.
  unfold unsubscribe, ensureCanMutateNextListeners.
  repeat case_match; simpl; by intros [= <-].
Qed.

Lemma run_body_invariant (I : world → Prop)
    (perform : op → world → outcome value) :
  (∀ o w w', I w → final (perform o w) = Some w' → I w') →
  ∀ (R : Type) (p : prog R) w w',
    I w → final (run_body perform p w) = Some w' → I w'.
Proof.
  intros Hperform R p. induction p as [r|e|o k IHk h IHh]; simpl; intros w w'.
  - by intros ? [= <-].
  - by intros ? [= <-].
  - intros Hw. destruct (perform o w) as [v w1|e w1|] eqn:Ho; [| |done].
    + apply IHk, (Hperform o w); [done|by rewrite Ho].
    + apply IHh, (Hperform o w); [done|by rewrite Ho].
Qed.

Section Commits.

Variable code : nat → list value → prog value.
Variable s0 : value.

Lemma invoke_tracked n l args w w' :
  (∀ o w w', tracked s0 w → final (perform code n o w) = Some w' →
             tracked s0 w') →
  tracked s0 w →
  final (invoke code (perform code n) l args w) = Some w' →
  tracked s0 w'.
Proof.
  intros Hp Hw. destruct l as [f|h]; simpl.
  - by apply (run_body_invariant (tracked s0)).
  - intros [Hs Hl]%unsubscribe_keeps. by apply (tracked_same s0 w).
Qed.

Lemma calls_keep_tracked n :
  (∀ o w w', tracked s0 w → final (perform code n o w) = Some w' →
             tracked s0 w') ∧
  (∀ a w w', tracked s0 w → final (dispatch code n a w) = Some w' →
             tracked s0 w') ∧
  (∀ t x i w w', tracked s0 w → final (notify code n t x i w) = Some w' →
                 tracked s0 w').
Proof.
  induction n as [|n (IHp & IHd & IHn)]; [by repeat split|].
  assert (Hd : ∀ a w w', tracked s0 w →
                 final (dispatch code (S n) a w) = Some w' → tracked s0 w').
  { intros a w w' Hw. rewrite dispatch_S.
    destruct (negb (isPlainObject a)); [by intros [= <-]|].
    destruct (is_undefined (get_prop a "type")); [by intros [= <-]|].
    destruct (isDispatching w) eqn:Hflag; [by intros [= <-]|].
    destruct (reduce code n a (entering a w)) as [v w1|e w1|] eqn:Hr;
      [| |done].
    - destruct (reducer_phase code n a w w1)
        as (Hs & _ & _ & _ & _ & _ & _ & _ & evs & E & A); [by rewrite Hr|].
      intros Hw'.
      apply (IHn (transitions w) (nextListeners w1) 0
               (committed (transitions w) v w1)).
      + unfold tracked. simpl. by rewrite last_state_app.
      + by destruct (notify code n _ _ _ _).
    - destruct (reducer_phase code n a w w1)
        as (Hs & _ & _ & _ & _ & _ & _ & _ & evs & E & A); [by rewrite Hr|].
      simpl. intros [= <-]. unfold tracked in *. simpl.
      rewrite Hs, E, Hw.
      change (EReduce (transitions w) a :: evs)
        with ([EReduce (transitions w) a] ++ evs).
      rewrite !last_state_app. simpl. by rewrite (last_state_silent _ evs A). }
  split; [|split; [exact Hd|]].
  - intros o w w' Hw. destruct o as [|l|h|a|r|a]; simpl.
    + unfold getState. destruct (isDispatching w); by intros [= <-].
    + intros [Hs Hl]%subscribe_keeps. by apply (tracked_same s0 w).
    + intros [Hs Hl]%unsubscribe_keeps. by apply (tracked_same s0 w).
    + by apply IHd.
    + unfold replaceReducer. destruct (as_callable r); [|by intros [= <-]].
      intros Hw'.
      apply (IHd (action_of_type ActionTypes.REPLACE)
               (set_currentReducer r w)); [done|].
      by destruct (dispatch code n _ _).
    + destruct (mwDispatch w) as [d|] eqn:Hmw.
      * apply (run_body_invariant (tracked s0)); [exact IHp|].
        apply tracked_record; [by left|done].
      * intros [= <-]. apply tracked_record; [by left|done].
  - intros t x i w w' Hw. rewrite notify_S.
    destruct (array_at w x !! i) as [l|]; [|by intros [= <-]].
    assert (tracked s0 (record (ENotify t l []) w)) as Hw1
      by (apply tracked_record; [right; right; by do 3 eexists|done]).
    destruct (invoke code (perform code n) l [] _) as [v w1|e w1|] eqn:Hi;
      [| |done].
    + apply IHn. apply (invoke_tracked n l [] _ w1 IHp Hw1). by rewrite Hi.
    + intros [= <-]. apply (invoke_tracked n l [] _ w1 IHp Hw1).
      by rewrite Hi.
Qed.

(** X23 (who writes the state).  The state variable is written by the
    commit of a transition and by nothing else: after any call, being
    it one that throws, the state is what the last transition that
    stored a state has stored, if it was so before. *)
Theorem state_is_last_commit n o w w' :
  tracked s0 w →
  final (perform code n o w) = Some w' →
  currentState w' = last_state s0 (log w').
Proof. apply calls_keep_tracked. Qed.

End Commits.

(** * The pass and the listeners it calls *)

Lemma final_after_pass action pass : final (after_pass action pass) = final pass.
Proof. by destruct pass. Qed.

Lemma live_elem subs h l :
  subs !! h = Some (l, true) → l ∈ live subs.
Proof.
  intros Hh. unfold live. apply list_elem_of_omap.
  exists (l, true). split; [by eapply list_elem_of_lookup_2|done].
Qed.

Section PassFacts.

Variable code : nat → list value → prog value.

Lemma invoke_each_cons n t l ls w :
  invoke_each code n t (l :: ls) w
    = match invoke code (perform code n) l []
              (record (ENotify t l []) w) with
      | Normal _ w' => invoke_each code n t ls w'
      | Thrown e w' => Thrown e w'
      | OutOfFuel => OutOfFuel
      end.
Proof. reflexivity. Qed.

(** More nested calls change no result of the pass. *)
Lemma invoke_each_more n m t ls : ∀ w,
  n ≤ m →
  invoke_each code n t ls w ≠ OutOfFuel →
  invoke_each code m t ls w = invoke_each code n t ls w.
Proof.
  induction ls as [|l ls IH]; intros w Hnm Hrun; [done|]. simpl in *.
  assert (invoke code (perform code n) l [] (record (ENotify t l []) w)
            ≠ OutOfFuel) as Hi
    by (intros Hi; by rewrite Hi in Hrun).
  rewrite (invoke_more code (perform code n) (perform code m) l [] _
             (proj1 (fuel_mono code n m Hnm)) Hi).
  destruct (invoke code (perform code n) l [] _); [|done|done].
  by apply IH.
Qed.

(** A listener leaves a frozen array as it is. *)
Lemma invoke_frozen n l t x w w1 :
  frozen w x →
  final (invoke code (perform code n) l [] (record (ENotify t l []) w))
    = Some w1 →
  frozen w1 x ∧ array_at w1 x = array_at w x.
Proof.
  intros Hx Hi.
  assert (evolves nobody (record (ENotify t l []) w) w1)
    as [[_ _ _ _ Z _] _ _]
    by (eapply invoke_evolves; [apply calls_evolve|done]).
  destruct (Z x) as [Hx1 Hsame]; [done|].
  split; [done|]. unfold array_at. by rewrite Hsame.
Qed.

(** The loop of lines 246-249, which reads the array through a
    reference on every round, calls the listeners that the array held
    when the pass began, as [invoke_each] does for this list. *)
Lemma notify_invoke_each n : ∀ t x i w,
  frozen w x →
  notify code n t x i w ≠ OutOfFuel →
  notify code n t x i w = invoke_each code n t (drop i (array_at w x)) w.
Proof.
  induction n as [|n IH]; [done|]. intros t x i w Hx. rewrite notify_S.
  destruct (array_at w x !! i) as [l|] eqn:Hl.
  - rewrite (drop_S _ _ _ Hl), invoke_each_cons. intros Hrun.
    assert (invoke code (perform code n) l [] (record (ENotify t l []) w)
              ≠ OutOfFuel) as Hi
      by (intros Hi; by rewrite Hi in Hrun).
    rewrite (invoke_more code (perform code n) (perform code (S n)) l [] _
               (proj1 (fuel_step code n)) Hi).
    destruct (invoke code (perform code n) l [] _) as [v w1|e w1|] eqn:Hinv;
      [|done|done].
    destruct (invoke_frozen n l t x w w1 Hx) as [Hx1 Harr];
      [by rewrite Hinv|].
    rewrite (IH t x (S i) w1 Hx1 Hrun), Harr. symmetry.
    apply invoke_each_more; [lia|].
    by rewrite <- Harr, <- (IH t x (S i) w1 Hx1 Hrun).
  - intros _. apply lookup_ge_None_1 in Hl. by rewrite drop_ge.
Qed.

(** With enough nested calls allowed, the loop gives what
    [invoke_each] gives. *)
Lemma invoke_each_notify n t x : ∀ k i w,
  frozen w x →
  length (array_at w x) - i < k →
  invoke_each code n t (drop i (array_at w x)) w ≠ OutOfFuel →
  notify code (k + n) t x i w
    = invoke_each code n t (drop i (array_at w x)) w.
Proof.
  induction k as [|k IH]; [intros; lia|]. intros i w Hx Hk.
  change (S k + n) with (S (k + n)). rewrite notify_S.
  destruct (array_at w x !! i) as [l|] eqn:Hl.
  - rewrite (drop_S _ _ _ Hl), invoke_each_cons. intros Hrun.
    assert (invoke code (perform code n) l [] (record (ENotify t l []) w)
              ≠ OutOfFuel) as Hi
      by (intros Hi; by rewrite Hi in Hrun).
    assert (n ≤ k + n) as Hle by lia.
    rewrite (invoke_more code (perform code n) (perform code (k + n)) l [] _
               (proj1 (fuel_mono code n (k + n) Hle)) Hi).
    destruct (invoke code (perform code n) l [] _) as [v w1|e w1|] eqn:Hinv;
      [|done|done].
    destruct (invoke_frozen n l t x w w1 Hx) as [Hx1 Harr];
      [by rewrite Hinv|].
    pose proof (lookup_lt_Some _ _ _ Hl) as Hi'.
    rewrite <- Harr. rewrite <- Harr in Hrun.
    apply IH; [done|rewrite Harr; lia|done].
  - intros _. apply lookup_ge_None_1 in Hl. by rewrite drop_ge.
Qed.

Lemma reduce_enough n m action w :
  n ≤ m →
  reduce code n action w ≠ OutOfFuel →
  reduce code m action w = reduce code n action w.
Proof.
  intros Hnm. unfold reduce.
  destruct (as_callable (currentReducer w)); [|done].
  apply invoke_more, fuel_mono, Hnm.
Qed.

(** The snapshot that line 245 takes is the registry as it was when
    [dispatch] was entered, and no call writes to it. *)
Lemma committed_snapshot n action w v w1 :
  allocated w →
  reduce code n action (entering action w) = Normal v w1 →
  frozen (committed (transitions w) v w1) (nextListeners w1) ∧
  array_at (committed (transitions w) v w1) (nextListeners w1)
    = array_at w (nextListeners w).
Proof.
  intros [Hnext Hcur] Hr.
  destruct (reducer_phase code n action w w1)
    as (_ & Ha & Hn & _); [by rewrite Hr|].
  split.
  - split; simpl; [rewrite Ha, Hn; lia|done].
  - unfold array_at. simpl. by rewrite Ha, Hn.
Qed.

(** An accepted dispatch whose reducer returned calls the listeners of
    the registry as it was at its entry, one after the other. *)
Lemma dispatch_invokes_each n action w v w1 :
  allocated w →
  well_formed action →
  isDispatching w = false →
  reduce code n action (entering action w) = Normal v w1 →
  dispatch code (S n) action w ≠ OutOfFuel →
  dispatch code (S n) action w
    = after_pass action
        (invoke_each code n (transitions w) (array_at w (nextListeners w))
           (committed (transitions w) v w1)).
Proof.
  intros Hw [Hplain Htype] Hflag Hr.
  destruct (committed_snapshot n action w v w1 Hw Hr) as [Hx Harr].
  rewrite dispatch_S, Hplain, Htype, Hflag, Hr. simpl negb. cbv iota.
  fold (committed (transitions w) v w1). simpl currentListeners.
  intros Hrun.
  assert (notify code n (transitions w) (nextListeners w1) 0
            (committed (transitions w) v w1) ≠ OutOfFuel) as Hn
    by (intros Hn; by rewrite Hn in Hrun).
  rewrite (notify_invoke_each n _ _ 0 _ Hx Hn), Harr, drop_0.
  by destruct (invoke_each code n _ _ _).
Qed.

(** ... and when these calls end, so does [dispatch], with the same
    result, if it is allowed enough nested calls. *)
Lemma dispatch_enough n action w v w1 :
  allocated w →
  well_formed action →
  isDispatching w = false →
  reduce code n action (entering action w) = Normal v w1 →
  invoke_each code n (transitions w) (array_at w (nextListeners w))
    (committed (transitions w) v w1) ≠ OutOfFuel →
  let m := S (length (array_at w (nextListeners w))) + n in
  reduce code m action (entering action w) = Normal v w1 ∧
  dispatch code (S m) action w
    = after_pass action
        (invoke_each code n (transitions w) (array_at w (nextListeners w))
           (committed (transitions w) v w1)).
Proof.
  intros Hw [Hplain Htype] Hflag Hr Hpass m.
  destruct (committed_snapshot n action w v w1 Hw Hr) as [Hx Harr].
  assert (reduce code m action (entering action w) = Normal v w1) as Hrm.
  { rewrite <- Hr. apply reduce_enough; [unfold m; lia|]. by rewrite Hr. }
  split; [done|].
  rewrite dispatch_S, Hplain, Htype, Hflag, Hrm. simpl negb. cbv iota.
  fold (committed (transitions w) v w1). simpl currentListeners.
  unfold m.
  rewrite (invoke_each_notify n (transitions w) (nextListeners w1)
             (S (length (array_at w (nextListeners w)))) 0
             (committed (transitions w) v w1) Hx);
    rewrite ?Harr, ?drop_0; [|lia|done].
  by destruct (invoke_each code n _ _ _).
Qed.

(** The order of registration is kept by every call. *)

Lemma order_same w w' :
  arrays w' = arrays w →
  nextListeners w' = nextListeners w →
  subscriptions w' = subscriptions w →
  in_registration_order w → in_registration_order w'.
Proof.
  unfold in_registration_order, array_at. by intros -> -> ->.
Qed.

Lemma subscribe_order listener w w' :
  allocated w →
  in_registration_order w →
  final (subscribe listener w) = Some w' →
  in_registration_order w'.
Proof.
  intros Hw Ho. unfold subscribe.
  destruct (as_callable listener) as [l|] eqn:Hl; [|by intros [= <-]].
  destruct (isDispatching w) eqn:Hflag; [by intros [= <-]|].
  destruct (subscribe_accepted listener l w Hl Hflag Hw)
    as (w2 & Hsub & Hnext & _ & Hsubs & _).
  unfold subscribe in Hsub. rewrite Hl, Hflag in Hsub. rewrite Hsub.
  intros [= <-]. unfold in_registration_order.
  rewrite Hnext, Hsubs, fmap_app. by apply sublist_app.
Qed.

Lemma unsubscribe_order h w w' :
  registered w →
  in_registration_order w →
  final (unsubscribe h w) = Some w' →
  in_registration_order w'.
Proof.
  intros Hreg Ho. unfold unsubscribe.
  destruct (subscriptions w !! h) as [[l b]|] eqn:Hh; [|by intros [= <-]].
  destruct b; simpl; [|by intros [= <-]].
  destruct (isDispatching w) eqn:Hflag; [by intros [= <-]|].
  destruct (unsubscribe_accepted h l w Hreg Hh Hflag)
    as (w2 & l1 & l2 & Hun & Harr & _ & Hnext & _ & Hsubs & _).
  unfold unsubscribe in Hun. rewrite Hh, Hflag in Hun. simpl in Hun.
  rewrite Hun. intros [= <-]. unfold in_registration_order in *.
  rewrite Hnext, Hsubs, list_fmap_insert. simpl.
  rewrite list_insert_id by (by rewrite list_lookup_fmap, Hh).
  etrans; [|exact Ho]. rewrite Harr.
  apply sublist_app; [done|]. by apply sublist_cons.
Qed.

Lemma invoke_order n l args w w' :
  (∀ o w w', registered w ∧ in_registration_order w →
             final (perform code n o w) = Some w' →
             registered w' ∧ in_registration_order w') →
  registered w ∧ in_registration_order w →
  final (invoke code (perform code n) l args w) = Some w' →
  registered w' ∧ in_registration_order w'.
Proof.
  intros Hp [Hreg Ho]. destruct l as [f|h]; simpl.
  - by apply (run_body_invariant
                (λ w, registered w ∧ in_registration_order w)).
  - intros Hun. split; [by eapply unsubscribe_registered|].
    by eapply unsubscribe_order.
Qed.

Lemma calls_keep_order n :
  (∀ o w w', registered w ∧ in_registration_order w →
             final (perform code n o w) = Some w' →
             registered w' ∧ in_registration_order w') ∧
  (∀ a w w', registered w ∧ in_registration_order w →
             final (dispatch code n a w) = Some w' →
             registered w' ∧ in_registration_order w') ∧
  (∀ t x i w w', registered w ∧ in_registration_order w →
                 final (notify code n t x i w) = Some w' →
                 registered w' ∧ in_registration_order w').
Proof.
  induction n as [|n (IHp & IHd & IHn)]; [by repeat split|].
  assert (Hd : ∀ a w w', registered w ∧ in_registration_order w →
                 final (dispatch code (S n) a w) = Some w' →
                 registered w' ∧ in_registration_order w').
  { intros a w w' [Hreg Ho]. rewrite dispatch_S.
    destruct (negb (isPlainObject a)); [by intros [= <-]|].
    destruct (is_undefined (get_prop a "type")); [by intros [= <-]|].
    destruct (isDispatching w) eqn:Hflag; [by intros [= <-]|].
    destruct (reduce code n a (entering a w)) as [v w1|e w1|] eqn:Hr;
      [| |done].
    - destruct (reducer_phase code n a w w1) as (_ & Ha & Hn & Hc & Hs & _);
        [by rewrite Hr|].
      intros Hw'.
      apply (IHn (transitions w) (nextListeners w1) 0
               (committed (transitions w) v w1)).
      + split; [apply (registered_same w); simpl; auto|].
        by apply (order_same w).
      + by destruct (notify code n _ _ _ _).
    - destruct (reducer_phase code n a w w1) as (_ & Ha & Hn & Hc & Hs & _);
        [by rewrite Hr|].
      simpl. intros [= <-].
      split; [apply (registered_same w); simpl; auto|].
      by apply (order_same w). }
  split; [|split; [exact Hd|]].
  - intros o w w' [Hreg Ho]. destruct o as [|l|h|a|r|a]; simpl.
    + unfold getState. destruct (isDispatching w); by intros [= <-].
    + intros Hsub. split.
      * by apply (proj1 (calls_keep_registered code 1) (OSubscribe l) w).
      * by apply (subscribe_order l w w' (proj1 Hreg)).
    + intros Hun. split; [by eapply unsubscribe_registered|].
      by eapply unsubscribe_order.
    + by apply IHd.
    + unfold replaceReducer. destruct (as_callable r); [|by intros [= <-]].
      intros Hw'.
      apply (IHd (action_of_type ActionTypes.REPLACE)
               (set_currentReducer r w)).
      * split; [apply (registered_same w); simpl; auto|].
        by apply (order_same w).
      * by destruct (dispatch code n _ _).
    + destruct (mwDispatch w) as [d|] eqn:Hmw.
      * apply (run_body_invariant
                 (λ w, registered w ∧ in_registration_order w));
          [exact IHp|].
        split; [apply (registered_same w); simpl; auto|].
        by apply (order_same w).
      * intros [= <-].
        split; [apply (registered_same w); simpl; auto|].
        by apply (order_same w).
  - intros t x i w w' [Hreg Ho]. rewrite notify_S.
    destruct (array_at w x !! i) as [l|]; [|by intros [= <-]].
    assert (registered (record (ENotify t l []) w) ∧
            in_registration_order (record (ENotify t l []) w)) as Hw1.
    { split; [apply (registered_same w); simpl; auto|].
      by apply (order_same w). }
    destruct (invoke code (perform code n) l [] _) as [v w1|e w1|] eqn:Hi;
      [| |done].
    + apply IHn. apply (invoke_order n l [] _ w1 IHp Hw1). by rewrite Hi.
    + intros [= <-]. apply (invoke_order n l [] _ w1 IHp Hw1).
      by rewrite Hi.
Qed.

(** A cancelled subscription stays cancelled. *)

Lemma subscribe_keeps_cancelled h l listener w w' :
  subscriptions w !! h = Some (l, false) →
  final (subscribe listener w) = Some w' →
  subscriptions w' !! h = Some (l, false).
Proof.
  intros Hh. unfold subscribe, ensureCanMutateNextListeners.
  repeat case_match; simpl; intros [= <-]; simpl; try done;
    by apply lookup_app_l_Some.
Qed.

Lemma unsubscribe_keeps_cancelled h l h' w w' :
  subscriptions w !! h = Some (l, false) →
  final (unsubscribe h' w) = Some w' →
  subscriptions w' !! h = Some (l, false).
Proof.
  intros Hh. unfold unsubscribe.
  destruct (subscriptions w !! h') as [[l' b]|] eqn:Hh'; [|by intros [= <-]].
  destruct b; simpl; [|by intros [= <-]].
  destruct (isDispatching w); [by intros [= <-]|].
  intros [= <-]. unfold ensureCanMutateNextListeners.
  assert (h' ≠ h) as Hne by (intros ->; congruence).
  case_match; simpl; by rewrite list_lookup_insert_ne.
Qed.

Lemma calls_keep_cancelled h l n :
  (∀ o w w', subscriptions w !! h = Some (l, false) →
             final (perform code n o w) = Some w' →
             subscriptions w' !! h = Some (l, false)) ∧
  (∀ a w w', subscriptions w !! h = Some (l, false) →
             final (dispatch code n a w) = Some w' →
             subscriptions w' !! h = Some (l, false)) ∧
  (∀ t x i w w', subscriptions w !! h = Some (l, false) →
                 final (notify code n t x i w) = Some w' →
                 subscriptions w' !! h = Some (l, false)).
Proof.
  induction n as [|n (IHp & IHd & IHn)]; [by repeat split|].
  assert (Hinv : ∀ c args w w',
            subscriptions w !! h = Some (l, false) →
            final (invoke code (perform code n) c args w) = Some w' →
            subscriptions w' !! h = Some (l, false)).
  { intros [f|h'] args w w' Hh; simpl.
    - by apply (run_body_invariant
                  (λ w, subscriptions w !! h = Some (l, false))).
    - by apply unsubscribe_keeps_cancelled. }
  assert (Hd : ∀ a w w', subscriptions w !! h = Some (l, false) →
                 final (dispatch code (S n) a w) = Some w' →
                 subscriptions w' !! h = Some (l, false)).
  { intros a w w' Hh. rewrite dispatch_S.
    destruct (negb (isPlainObject a)); [by intros [= <-]|].
    destruct (is_undefined (get_prop a "type")); [by intros [= <-]|].
    destruct (isDispatching w) eqn:Hflag; [by intros [= <-]|].
    destruct (reduce code n a (entering a w)) as [v w1|e w1|] eqn:Hr;
      [| |done].
    - destruct (reducer_phase code n a w w1) as (_ & _ & _ & _ & Hs & _);
        [by rewrite Hr|].
      intros Hw'.
      apply (IHn (transitions w) (nextListeners w1) 0
               (committed (transitions w) v w1)).
      + simpl. by rewrite Hs.
      + by destruct (notify code n _ _ _ _).
    - destruct (reducer_phase code n a w w1) as (_ & _ & _ & _ & Hs & _);
        [by rewrite Hr|].
      simpl. intros [= <-]. simpl. by rewrite Hs. }
  split; [|split; [exact Hd|]].
  - intros o w w' Hh. destruct o as [|l0|h'|a|r|a]; simpl.
    + unfold getState. destruct (isDispatching w); by intros [= <-].
    + by apply subscribe_keeps_cancelled.
    + by apply unsubscribe_keeps_cancelled.
    + by apply IHd.
    + unfold replaceReducer. destruct (as_callable r); [|by intros [= <-]].
      intros Hw'.
      apply (IHd (action_of_type ActionTypes.REPLACE)
               (set_currentReducer r w)); [done|].
      by destruct (dispatch code n _ _).
    + destruct (mwDispatch w) as [d|] eqn:Hmw.
      * by apply (run_body_invariant
                    (λ w, subscriptions w !! h = Some (l, false))).
      * by intros [= <-].
  - intros t x i w w' Hh. rewrite notify_S.
    destruct (array_at w x !! i) as [l0|]; [|by intros [= <-]].
    destruct (invoke code (perform code n) l0 [] _) as [v w1|e w1|] eqn:Hi;
      [| |done].
    + apply IHn. apply (Hinv l0 [] (record (ENotify t l0 []) w) w1);
        [done|by rewrite Hi].
    + intros [= <-]. apply (Hinv l0 [] (record (ENotify t l0 []) w) w1);
        [done|by rewrite Hi].
Qed.

Lemma later_keeps_cancelled h l w w' :
  later code w w' →
  subscriptions w !! h = Some (l, false) →
  subscriptions w' !! h = Some (l, false).
Proof.
  induction 1 as [w|w w1 w2 Hstep _ IH]; [done|].
  intros Hh. apply IH. destruct Hstep as [n o w w1 Hcall| | | | | | |];
    try done.
  by apply (proj1 (calls_keep_cancelled h l n) o w).
Qed.

(** C1, as the code has it.  For a transition whose reducer returned,
    [dispatch] calls the listeners of the registry as it was when
    [dispatch] was entered, in this order and whatever these listeners
    subscribe, unsubscribe or dispatch meanwhile: all of them when none
    throws, and the ones up to the first that throws otherwise.  The
    calls are the ones of [invoke_each], for a list that no call can
    change; they end as [dispatch] does, and when they end [dispatch]
    does.  A listener subscribed meanwhile, and not unsubscribed, is in
    the registry afterwards, and the next dispatch calls the listeners
    of that registry. *)
Theorem snapshot_isolation n action w v w1 :
  registered w →
  well_formed action →
  isDispatching w = false →
  reduce code n action (entering action w) = Normal v w1 →
  let t := transitions w in
  let snapshot := array_at w (nextListeners w) in
  let pass := invoke_each code n t snapshot (committed t v w1) in
  (dispatch code (S n) action w ≠ OutOfFuel →
   dispatch code (S n) action w = after_pass action pass) ∧
  (pass ≠ OutOfFuel →
   ∃ m, dispatch code (S m) action w = after_pass action pass) ∧
  (∀ w', final pass = Some w' →
     (∃ evs, log w' = log w ++ evs ∧
             notified t evs `prefix_of` snapshot ∧
             (∀ r, pass = Normal r w' → notified t evs = snapshot)) ∧
     registered w' ∧
     isDispatching w' = false ∧
     (∀ h l2, subscriptions w' !! h = Some (l2, true) →
              l2 ∈ array_at w' (nextListeners w')) ∧
     (∀ m action2 v2 w2,
        well_formed action2 →
        reduce code m action2 (entering action2 w') = Normal v2 w2 →
        dispatch code (S m) action2 w' ≠ OutOfFuel →
        dispatch code (S m) action2 w'
          = after_pass action2
              (invoke_each code m (transitions w')
                 (array_at w' (nextListeners w'))
                 (committed (transitions w') v2 w2)))).
Proof.
  intros Hreg Hwf Hflag Hr. cbv zeta.
  pose proof (proj1 Hreg) as Hw.
  set (t := transitions w). set (snapshot := array_at w (nextListeners w)).
  set (pass := invoke_each code n t snapshot (committed t v w1)).
  split; [by apply dispatch_invokes_each|].
  split.
  { intros Hpass. eexists.
    exact (proj2 (dispatch_enough n action w v w1 Hw Hwf Hflag Hr Hpass)). }
  intros w' Hfinal.
  assert (pass ≠ OutOfFuel) as Hpass by (intros E; by rewrite E in Hfinal).
  destruct (dispatch_enough n action w v w1 Hw Hwf Hflag Hr Hpass)
    as [Hrm Hd]. cbv zeta in Hrm, Hd.
  set (m := S (length (array_at w (nextListeners w))) + n) in *.
  fold t snapshot pass in Hd.
  assert (final (dispatch code (S m) action w) = Some w') as Hfd
    by (by rewrite Hd, final_after_pass).
  assert (registered w') as Hreg'
    by (by apply (proj1 (proj2 (calls_keep_registered code (S m)))
                    action w)).
  assert (isDispatching w' = false) as Hflag'.
  { destruct (proj1 (proj2 (calls_evolve code (S m))) action w w' Hfd)
      as [_ F _]. congruence. }
  split; [|split; [done|split; [done|split]]].
  - pose proof (dispatch_transition code m action w Hw (proj1 Hwf)
                  (proj2 Hwf) Hflag) as H.
    cbv zeta in H. fold t snapshot in H. rewrite Hd in H.
    destruct pass as [r w''|e w''|] eqn:Hp; [| |done];
      simpl in Hfinal, H; injection Hfinal as ->.
    + destruct H as (_ & v' & w1' & evs & _ & _ & E & Hh).
      exists evs. split; [done|].
      assert (notified t evs = snapshot) as ->.
      { rewrite <- notified_history, Hh. simpl.
        apply notified_notifications. }
      done.
    + destruct H as [(w1' & evs & Hr' & _)
                    |(v' & w1' & evs & k & _ & _ & E & Hh)].
      { rewrite Hrm in Hr'. done. }
      exists evs. split; [done|]. split; [|done].
      rewrite <- notified_history, Hh. simpl.
      rewrite notified_notifications. apply prefix_take.
  - intros h l2 Hh. rewrite (proj2 Hreg'). by eapply live_elem.
  - intros m2 action2 v2 w2 Hwf2 Hr2.
    by apply dispatch_invokes_each; [apply Hreg'|..].
Qed.

(** C2, as the code has it.  For a well-formed action on an idle
    container whose reducer returns [v]: [v] is stored and the flag is
    cleared, then the snapshot is taken, which is the registry as it
    was, then each listener of the snapshot is called, once, in the
    order of the snapshot and without arguments.  When these listeners
    return, so does [dispatch], with the action itself; when one of
    them throws, the later ones are not called and [dispatch] throws
    what it threw.  The entries of a registry are in the order of their
    registration, from the construction on and after every call. *)
Theorem dispatch_postcondition n action w reducer v w1 :
  allocated w →
  well_formed action →
  isDispatching w = false →
  as_callable (currentReducer w) = Some reducer →
  invoke code (perform code n) reducer [currentState w; action]
    (entering action w) = Normal v w1 →
  let t := transitions w in
  let snapshot := array_at w (nextListeners w) in
  let pass := invoke_each code n t snapshot (committed t v w1) in
  currentState (committed t v w1) = v ∧
  isDispatching (committed t v w1) = false ∧
  array_at (committed t v w1) (currentListeners (committed t v w1))
    = snapshot ∧
  (dispatch code (S n) action w ≠ OutOfFuel →
   dispatch code (S n) action w = after_pass action pass) ∧
  (∀ w', pass = Normal VUndefined w' →
         ∃ m, dispatch code (S m) action w = Normal action w') ∧
  (∀ e w', pass = Thrown e w' →
           ∃ m, dispatch code (S m) action w = Thrown e w') ∧
  (∀ r w', dispatch code (S n) action w = Normal r w' →
     r = action ∧
     ∃ evs, log w' = log w ++ evs ∧
            history t evs =
              EReduce t action :: ECommit t v :: notifications t snapshot) ∧
  (∀ reducer0 preloadedState,
     registered (initial reducer0 preloadedState) ∧
     in_registration_order (initial reducer0 preloadedState)) ∧
  (registered w → in_registration_order w →
   snapshot `sublist_of` (subscriptions w).*1 ∧
   ∀ m o w', final (perform code m o w) = Some w' →
             registered w' ∧ in_registration_order w').
Proof.
  intros Hw Hwf Hflag Hred Hinv. cbv zeta.
  assert (reduce code n action (entering action w) = Normal v w1) as Hr
    by (unfold reduce; simpl; by rewrite Hred).
  destruct (committed_snapshot n action w v w1 Hw Hr) as [_ Harr].
  split; [done|]. split; [done|]. split.
  { simpl currentListeners.
    destruct (reducer_phase code n action w w1) as (_ & _ & Hn & _);
      [by rewrite Hr|].
    exact Harr. }
  split; [by apply dispatch_invokes_each|].
  split; [|split; [|split; [|split]]].
  - intros w' Hpass. eexists.
    rewrite (proj2 (dispatch_enough n action w v w1 Hw Hwf Hflag Hr
                      ltac:(by rewrite Hpass))).
    by rewrite Hpass.
  - intros e w' Hpass. eexists.
    rewrite (proj2 (dispatch_enough n action w v w1 Hw Hwf Hflag Hr
                      ltac:(by rewrite Hpass))).
    by rewrite Hpass.
  - intros r w' Hd.
    pose proof (dispatch_transition code n action w Hw (proj1 Hwf)
                  (proj2 Hwf) Hflag) as H.
    cbv zeta in H. rewrite Hd in H.
    destruct H as (-> & v' & w1' & evs & Hr' & _ & E & Hh).
    split; [done|]. exists evs. split; [done|].
    rewrite Hr in Hr'. by injection Hr' as <- <-.
  - intros reducer0 preloadedState. split.
    + split; [split; simpl; lia|done].
    + unfold in_registration_order. simpl. done.
  - intros Hreg Ho. split; [exact Ho|].
    intros m o w'. by apply (proj1 (calls_keep_order m) o w).
Qed.

(** X1 (unsubscribe idempotence).  Once a call of an unsubscribe
    closure has returned, every later call of the same closure returns
    as well and changes nothing: whatever calls were made in between,
    by anyone, and whether a reducer is running or not. *)
Theorem unsubscribe_idempotent h w v w1 w2 :
  unsubscribe h w = Normal v w1 →
  later code w1 w2 →
  unsubscribe h w2 = Normal VUndefined w2.
Proof.
  intros Hun Hlater.
  assert (∃ l, subscriptions w1 !! h = Some (l, false)) as [l Hh].
  { revert Hun. unfold unsubscribe.
    destruct (subscriptions w !! h) as [[l b]|] eqn:Hh; [|done].
    exists l. revert Hun. destruct b; simpl.
    - destruct (isDispatching w); [done|]. intros [= _ <-]. simpl.
      assert (subscriptions
                (ensureCanMutateNextListeners
                   (set_subscriptions (<[h:=(l, false)]> (subscriptions w)) w))
              = <[h:=(l, false)]> (subscriptions w)) as ->
        by (unfold ensureCanMutateNextListeners; by case_match).
      apply list_lookup_insert_eq. by eapply lookup_lt_Some.
    - by intros [= _ <-]. }
  unfold unsubscribe.
  by rewrite (later_keeps_cancelled h l w1 w2 Hlater Hh).
Qed.

End PassFacts.

(** ** The counter application *)

Module CounterFacts.
Import Counter.

(** The first pass calls listener 1, which subscribes listener 2; the
    second pass is the first to call listener 2. *)
Example listener_added_during_pass :
  dispatch code 5 inc subscribed = Normal inc after_first ∧
  notified 1 (log after_first) = [CUser 1] ∧
  array_at after_first (nextListeners after_first) = [CUser 1; CUser 2] ∧
  dispatch code 5 inc after_first = Normal inc after_second ∧
  notified 1 (log after_second) = [CUser 1] ∧
  notified 2 (log after_second) = [CUser 1; CUser 2].
Proof. repeat split. Qed.

(** C1 at the counter: listener 1 subscribes listener 2 while the pass
    of transition 1 calls it.  The pass calls listener 1 and no other;
    listener 2 is in the registry afterwards and the pass of the next
    transition is over this registry. *)
Lemma snapshot_isolation_witness :
  registered subscribed ∧
  array_at subscribed (nextListeners subscribed) = [CUser 1] ∧
  dispatch code 5 inc subscribed
    = after_pass inc
        (invoke_each code 4 1 [CUser 1]
           (committed 1 (VNum 1) (entering inc subscribed))) ∧
  dispatch code 5 inc subscribed = Normal inc after_first ∧
  (∃ evs, log after_first = log subscribed ++ evs ∧
          notified 1 evs = [CUser 1]) ∧
  CUser 2 ∈ array_at after_first (nextListeners after_first) ∧
  dispatch code 5 inc after_first
    = after_pass inc
        (invoke_each code 4 2 [CUser 1; CUser 2]
           (committed 2 (VNum 2) (entering inc after_first))).
Proof.
  assert (registered subscribed) as Hreg
    by (split; [split; vm_compute; lia|reflexivity]).
  destruct (snapshot_isolation code 4 inc subscribed (VNum 1)
              (entering inc subscribed) Hreg)
    as (Hpass & _ & Hafter);
    [split; reflexivity|reflexivity|reflexivity|].
  cbv zeta in Hpass, Hafter.
  destruct (Hafter after_first eq_refl)
    as ((evs & Hlog & _ & Hall) & _ & _ & Hlive & Hnext).
  split; [exact Hreg|]. split; [reflexivity|].
  split; [apply Hpass; discriminate|]. split; [reflexivity|].
  split; [exists evs; split; [exact Hlog|exact (Hall VUndefined eq_refl)]|].
  split; [exact (Hlive 1 (CUser 2) eq_refl)|].
  apply (Hnext 4 inc (VNum 2) (entering inc after_first));
    [split; reflexivity|reflexivity|discriminate].
Defined.

(** C2 at the counter. *)
Lemma dispatch_postcondition_witness :
  getState (committed 1 (VNum 1) (entering inc subscribed))
    = Normal (VNum 1) (committed 1 (VNum 1) (entering inc subscribed)) ∧
  dispatch code 5 inc subscribed
    = after_pass inc
        (invoke_each code 4 1 [CUser 1]
           (committed 1 (VNum 1) (entering inc subscribed))) ∧
  (∃ m, dispatch code (S m) inc subscribed = Normal inc after_first) ∧
  (∃ evs, log after_first = log subscribed ++ evs ∧
          history 1 evs = [EReduce 1 inc; ECommit 1 (VNum 1);
                           ENotify 1 (CUser 1) []]).
Proof.
  destruct (dispatch_postcondition code 4 inc subscribed (CUser 0) (VNum 1)
              (entering inc subscribed))
    as (_ & _ & _ & Hpass & Hret & _ & Hhist & _);
    [split; vm_compute; lia|split; reflexivity|reflexivity|reflexivity
    |reflexivity|].
  cbv zeta in Hpass, Hret, Hhist.
  split; [reflexivity|]. split; [apply Hpass; discriminate|].
  split; [exact (Hret after_first eq_refl)|].
  exact (proj2 (Hhist inc after_first eq_refl)).
Defined.

(** C3 at the counter: the reducer throws on BOOM. *)
Lemma reducer_failure_witness :
  ∃ w', dispatch code 5 boom subscribed = Thrown (ErrUser (VStr "boom")) w' ∧
        currentState w' = currentState subscribed ∧
        array_at w' (nextListeners w')
          = array_at subscribed (nextListeners subscribed) ∧
        isDispatching w' = false ∧
        (∃ evs, log w' = log subscribed ++ evs ∧ ∀ t, notified t evs = []) ∧
        (∀ m action2 v2 w2 w3,
           well_formed action2 →
           reduce code m action2 (entering action2 w') = Normal v2 w2 →
           notify code m (transitions w') (nextListeners w2) 0
             (committed (transitions w') v2 w2) = Normal VUndefined w3 →
           dispatch code (S m) action2 w' = Normal action2 w3).
Proof.
  apply (reducer_failure code 4 boom subscribed (CUser 0)
           (ErrUser (VStr "boom")) (entering boom subscribed)).
  - split; reflexivity.
  - reflexivity.
  - reflexivity.
  - reflexivity.
Defined.

(** After the failure the container is usable. *)
Example usable_after_failure :
  dispatch code 5 boom subscribed = Thrown (ErrUser (VStr "boom")) after_boom ∧
  currentState after_boom = VNum 0 ∧
  isDispatching after_boom = false ∧
  dispatch code 5 inc after_boom = Normal inc after_recovery ∧
  currentState after_recovery = VNum 1.
Proof. repeat split. Qed.

(** C10 at the counter: the reducer is running. *)
Lemma replaceReducer_while_reducing_witness :
  replaceReducer (dispatch code 3) (VFun 5) (entering inc subscribed)
    = Thrown ErrReducersMayNotDispatch
        (set_currentReducer (VFun 5) (entering inc subscribed)) ∧
  perform code 4 (OReplaceReducer (VFun 5)) (entering inc subscribed)
    = Thrown ErrReducersMayNotDispatch
        (set_currentReducer (VFun 5) (entering inc subscribed)) ∧
  currentReducer (set_currentReducer (VFun 5) (entering inc subscribed))
    = VFun 5 ∧
  transitions (set_currentReducer (VFun 5) (entering inc subscribed))
    = transitions (entering inc subscribed) ∧
  currentState (set_currentReducer (VFun 5) (entering inc subscribed))
    = currentState (entering inc subscribed) ∧
  log (set_currentReducer (VFun 5) (entering inc subscribed))
    = log (entering inc subscribed).
Proof.
  apply (replaceReducer_while_reducing code 2 (VFun 5)
           (entering inc subscribed)).
  - reflexivity.
  - exists (CUser 5). reflexivity.
Defined.

Example swap_persists :
  createStore code enhancers 6 [VFun 5] = Normal the_store swapped ∧
  currentReducer swapped = VFun 0 ∧
  currentState swapped = VStr "caught" ∧
  transitions swapped = 1.
Proof. repeat split. Qed.

(** C5 as stated fails: a dispatch made by a notified listener, inside
    an outer dispatch that has not returned, is carried out and does not
    raise. *)
Lemma nested_dispatch_from_listener :
  dispatch code 8 inc watched = Normal inc after_nested ∧
  log after_nested =
    log watched ++ [EReduce 1 inc; ECommit 1 (VNum 1); ENotify 1 (CUser 3) [];
                    EReduce 2 inc; ECommit 2 (VNum 2); ENotify 2 (CUser 3) []] ∧
  isDispatching inside_pass = false ∧
  dispatch code 6 inc inside_pass = Normal inc after_inner ∧
  ¬ (∃ e w', dispatch code 6 inc inside_pass = Thrown e w') ∧
  currentState after_inner = VNum 2 ∧
  currentState after_nested = VNum 2.
Proof.
  repeat split. intros (e & w' & H).
  assert (dispatch code 6 inc inside_pass = Normal inc after_inner) as H'
    by reflexivity.
  rewrite H' in H. discriminate H.
Qed.

(** C8 as stated fails: after [replaceReducer] returned, the state
    read is not what the new reducer made of the prior state and the
    replace action, because a notified listener has dispatched. *)
Lemma replaceReducer_then_listener :
  currentState guarded = VNum 0 ∧
  isDispatching guarded = false ∧
  array_at guarded (nextListeners guarded) = [CUser 4] ∧
  code 0 [VNum 0; replace] = Ret (VNum 0) ∧
  replaceReducer (dispatch code 8) (VFun 0) guarded
    = Normal VUndefined after_replace ∧
  currentReducer after_replace = VFun 0 ∧
  getState after_replace = Normal (VNum 1) after_replace ∧
  getState after_replace ≠ Normal (VNum 0) after_replace.
Proof.
  repeat split. intros H.
  assert (getState after_replace = Normal (VNum 1) after_replace) as H'
    by reflexivity.
  rewrite H' in H. discriminate H.
Qed.

Lemma replaceReducer_transition_witness :
  ∃ w', replaceReducer (dispatch code 3) (VFun 0) observed
          = Normal VUndefined w' ∧
        currentReducer w' = VFun 0 ∧
        getState w' = Normal (VNum 0) w' ∧
        array_at w' (nextListeners w') = [CUser 2] ∧
        subscriptions w' = subscriptions observed ∧
        log w' = log observed ++ [EReduce 1 replace; ECommit 1 (VNum 0);
                                  ENotify 1 (CUser 2) []].
Proof.
  destruct (replaceReducer_transition code 2 (VFun 0) observed) as [_ H].
  destruct (H 0 (VNum 0)) as [_ Hobs].
  - reflexivity.
  - reflexivity.
  - split; simpl; lia.
  - reflexivity.
  - apply Hobs.
    + constructor; [|constructor]. exists 2. split; [reflexivity|constructor].
    + simpl. lia.
Defined.

(** C9 as stated fails: with an initial state the container does not
    read as what the reducer makes of [undefined]. *)
Lemma createStore_preloaded :
  createStore code enhancers 5 [VFun 0; VNum 5] = Normal the_store preloaded ∧
  code 0 [VUndefined; init] = Ret (VNum 0) ∧
  code 0 [VNum 5; init] = Ret (VNum 5) ∧
  getState preloaded = Normal (VNum 5) preloaded ∧
  getState preloaded ≠ Normal (VNum 0) preloaded.
Proof.
  repeat split. intros H.
  assert (getState preloaded = Normal (VNum 5) preloaded) as H'
    by reflexivity.
  rewrite H' in H. discriminate H.
Qed.

(** C9 at the counter. *)
Lemma createStore_init_witness :
  ∃ w', createStore code enhancers 3 [VFun 0; VNum 5] = Normal the_store w' ∧
        getState w' = Normal (VNum 5) w' ∧
        transitions w' = 1 ∧
        history 0 (log w') = [EReduce 0 init; ECommit 0 (VNum 5)] ∧
        (∀ t, notified t (log w') = []) ∧
        allocated w' ∧
        isDispatching w' = false.
Proof.
  apply (createStore_init code enhancers 0 [VFun 0; VNum 5] (CUser 0) (VNum 5)
           (entering init (initial (VFun 0) (VNum 5)))).
  - reflexivity.
  - reflexivity.
  - reflexivity.
  - reflexivity.
Defined.

(** Without an initial state the reducer receives [undefined]. *)
Example createStore_default :
  createStore code enhancers 5 [VFun 0] = Normal the_store created ∧
  getState created = Normal (VNum 0) created ∧
  code 0 [VUndefined; init] = Ret (VNum 0).
Proof. repeat split. Qed.

(** The registry of the counter across a dispatch. *)
Lemma registry_kept_witness :
  registered subscribed ∧
  final (perform code 5 (ODispatch inc) subscribed) = Some after_first ∧
  registered after_first.
Proof.
  assert (registered subscribed) as Hreg
    by (split; [split; vm_compute; lia|reflexivity]).
  split; [exact Hreg|]. split; [reflexivity|].
  apply (registry_kept code 5 (ODispatch inc) subscribed after_first);
    [exact Hreg|reflexivity].
Defined.

(** Unsubscribing the listener of the counter. *)
Lemma unsubscribe_removes_witness :
  ∃ w' l1 l2,
    unsubscribe 0 subscribed = Normal VUndefined w' ∧
    array_at subscribed (nextListeners subscribed) = l1 ++ CUser 1 :: l2 ∧
    (CUser 1 ∉ l1) ∧
    array_at w' (nextListeners w') = l1 ++ l2 ∧
    array_at w' (currentListeners w')
      = array_at subscribed (currentListeners subscribed) ∧
    subscriptions w' !! 0 = Some (CUser 1, false).
Proof.
  apply (unsubscribe_removes 0 (CUser 1) subscribed).
  - split; [split; vm_compute; lia|reflexivity].
  - reflexivity.
  - reflexivity.
Defined.

(** The calls refused while the reducer of the counter runs. *)
Lemma calls_while_reducing_witness :
  getState (entering inc subscribed)
    = Thrown ErrGetStateWhileReducing (entering inc subscribed) ∧
  (∀ listener, is_function listener = true →
     subscribe listener (entering inc subscribed)
       = Thrown ErrSubscribeWhileReducing (entering inc subscribed)) ∧
  (∀ h l, subscriptions (entering inc subscribed) !! h = Some (l, true) →
     unsubscribe h (entering inc subscribed)
       = Thrown ErrUnsubscribeWhileReducing (entering inc subscribed)).
Proof.
  apply (calls_while_reducing (entering inc subscribed)). reflexivity.
Defined.

End CounterFacts.

(** ** The pipeline of two middleware *)

Module TaggingFacts.
Import Tagging.

(** C4 at two middleware: the leftmost is the outermost. *)
Lemma middleware_order_witness :
  applyMiddleware code [tagger "A"; tagger "B"] (createStore code enhancers)
    5 [VFun 0]
    = Normal (Store enhanced (st_subscribe the_store) (st_getState the_store)
                (st_replaceReducer the_store))
             (set_mwDispatch (Some enhanced) created).
Proof.
  apply (middleware_order code 5 [tagger "A"; tagger "B"]
           (createStore code enhancers) [VFun 0] the_store created
           [tag_wrapper "A"; tag_wrapper "B"] (set_mwDispatch None created)
           enhanced (set_mwDispatch None created)).
  - reflexivity.
  - eapply instantiates_cons; [reflexivity|].
    eapply instantiates_cons; [reflexivity|]. apply instantiates_nil.
  - eapply wraps_cons; [|reflexivity].
    eapply wraps_cons; [|reflexivity]. apply wraps_nil.
Defined.

(** The action goes through A, then B, then the base dispatch; B
    receives what the base dispatch returns and A what B returns. *)
Example traffic :
  run code 5 (enhanced (action_of_type (VStr "x"))) installed_world
    = dispatched ∧
  (∃ w, dispatched =
          Normal (VObj true [("by", VStr "A");
                             ("got", VObj true
                                [("by", VStr "B");
                                 ("got", action_of_type (VStr "xAB"))])]) w ∧
        currentState w = VStr "xAB").
Proof. split; [reflexivity|]. by eexists. Qed.

(** C7 at a middleware that dispatches while it is instantiated. *)
Lemma dispatch_while_constructing_witness :
  (∀ m action w0, mwDispatch w0 = None →
     run code (S m) (call (OApiDispatch action)) w0
       = Thrown ErrDispatchWhileConstructing
           (record (EForward action false) w0)) ∧
  (∀ w', final (applyMiddleware code [eager; tagger "B"]
                  (createStore code enhancers) 5 [VFun 0]) = Some w' →
     ∃ evs, log w' = log created ++ evs ∧
            ∀ action b, EForward action b ∈ evs → b = false).
Proof.
  apply (dispatch_while_constructing code 5 [eager; tagger "B"]
           (createStore code enhancers) [VFun 0] the_store created).
  reflexivity.
Defined.

(** The early dispatch is turned down and reaches no reducer: only
    the init transition has run. *)
Example early_dispatch :
  log assembled = log created ++ [EForward (action_of_type (VStr "EARLY")) false] ∧
  transitions assembled = 1 ∧
  currentState assembled = currentState created ∧
  refused = Thrown ErrDispatchWhileConstructing
              (record (EForward (action_of_type (VStr "EARLY")) false)
                 (set_mwDispatch None created)).
Proof. repeat split. Qed.

End TaggingFacts.

(** ** The todo application *)

Module TodosFacts.
Import Todos.

Lemma registered_fragile : registered fragile.
Proof. split; [split; vm_compute; lia|reflexivity]. Qed.

(** Copy on write at the new container, where the two lists are one
    array. *)
Lemma ensureCanMutateNextListeners_copies_witness :
  nextListeners (ensureCanMutateNextListeners created)
    ≠ currentListeners (ensureCanMutateNextListeners created) ∧
  currentListeners (ensureCanMutateNextListeners created)
    = currentListeners created ∧
  array_at (ensureCanMutateNextListeners created)
    (nextListeners (ensureCanMutateNextListeners created))
    = array_at created (nextListeners created) ∧
  arrays created `prefix_of` arrays (ensureCanMutateNextListeners created) ∧
  ensureCanMutateNextListeners (ensureCanMutateNextListeners created)
    = ensureCanMutateNextListeners created ∧
  (nextListeners created ≠ currentListeners created →
   ensureCanMutateNextListeners created = created).
Proof.
  apply (ensureCanMutateNextListeners_copies created).
  split; vm_compute; lia.
Defined.

(** Listener 8 is registered twice; subscribed once more and taken out
    again, its first entry is the one that goes. *)
Lemma subscribe_then_unsubscribe_witness :
  array_at fragile (nextListeners fragile) = [CUser 8; CUser 7; CUser 8] ∧
  ∃ w1 w2,
    subscribe (VFun 8) fragile
      = Normal (VUnsub (length (subscriptions fragile))) w1 ∧
    unsubscribe (length (subscriptions fragile)) w1 = Normal VUndefined w2 ∧
    array_at w2 (nextListeners w2) ≡ₚ array_at fragile (nextListeners fragile) ∧
    (CUser 8 ∉ array_at fragile (nextListeners fragile) →
     array_at w2 (nextListeners w2)
       = array_at fragile (nextListeners fragile)) ∧
    (∀ l1 l2, array_at fragile (nextListeners fragile) = l1 ++ CUser 8 :: l2 →
              CUser 8 ∉ l1 →
              array_at w2 (nextListeners w2) = l1 ++ l2 ++ [CUser 8]) ∧
    live (subscriptions w2) = live (subscriptions fragile) ∧
    currentState w2 = currentState fragile.
Proof.
  split; [reflexivity|].
  apply (subscribe_then_unsubscribe (VFun 8) (CUser 8) fragile).
  - reflexivity.
  - split; [split; vm_compute; lia|reflexivity].
  - reflexivity.
Defined.

(** The second listener throws: the state is stored, the third
    listener is not called. *)
Lemma listener_failure_witness :
  ∃ w', dispatch code 4 (addTodo (VStr "milk")) fragile
          = Thrown (ErrUser (VStr "listener")) w' ∧
        getState w' = Normal (VStr "milk") w' ∧
        array_at w' (nextListeners w') = array_at fragile (nextListeners fragile) ∧
        subscriptions w' = subscriptions fragile ∧
        log w' = log fragile
                   ++ EReduce (transitions fragile) (addTodo (VStr "milk"))
                   :: ECommit (transitions fragile) (VStr "milk")
                   :: notifications (transitions fragile)
                        ([CUser 8] ++ [CUser 7]).
Proof.
  apply (listener_failure code 2 (addTodo (VStr "milk")) fragile 0
           (VStr "milk") [CUser 8] 7 (ErrUser (VStr "listener")) [CUser 8]).
  - split; vm_compute; lia.
  - split; reflexivity.
  - reflexivity.
  - reflexivity.
  - reflexivity.
  - reflexivity.
  - apply Forall_cons. split; [|by apply Forall_nil].
    exists 8. split; [reflexivity|].
    apply observer_read. intros v. apply observer_ret.
  - reflexivity.
  - simpl. lia.
Defined.

Example container_after_failure :
  dispatch code 6 (addTodo (VStr "milk")) fragile
    = Thrown (ErrUser (VStr "listener")) after_failure ∧
  notified 1 (log after_failure) = [CUser 8; CUser 7] ∧
  getState after_failure = Normal (VStr "milk") after_failure.
Proof. repeat split. Qed.

(** The object [{ addTodo, fail, version: 3 }], bound. *)
Example bound_object :
  ∃ bs,
    bindActionCreators code
      (VObj true [("addTodo", VFun 1); ("version", VNum 3); ("fail", VFun 2)])
      (st_dispatch the_store) = inr (BoundObject bs) ∧
    bs.*1 = ["addTodo"; "fail"] ∧
    (∃ addTodo', lookup_prop "addTodo" bs = Some addTodo' ∧
       run code 6 (addTodo' [VStr "milk"]) created
         = Normal (addTodo (VStr "milk")) after_bound ∧
       currentState after_bound = VStr "milk") ∧
    (∃ fail', lookup_prop "fail" bs = Some fail' ∧
       run code 6 (fail' []) created = Thrown (ErrUser (VStr "no")) created) ∧
    lookup_prop "version" bs = None.
Proof.
  eexists. split; [reflexivity|]. split; [reflexivity|].
  split; [|split; [|reflexivity]].
  - eexists. split; [reflexivity|]. split; reflexivity.
  - eexists. split; reflexivity.
Qed.

(** Subscribing the quiet observer to the new container. *)
Lemma observable_subscribe_registers_witness :
  ∃ p, observable_subscribe code 5 quiet = inr p ∧
    match run code 5 (observeState code quiet) created with
    | Normal _ w1 =>
        ∃ w2,
          run code 5 p created
            = Normal (VObj true [("unsubscribe",
                                  VUnsub (length (subscriptions w1)))]) w2 ∧
          array_at w2 (nextListeners w2)
            = array_at w1 (nextListeners w1) ++ [CUser 5] ∧
          subscriptions w2 = subscriptions w1 ++ [(CUser 5, true)] ∧
          currentState w2 = currentState w1 ∧
          log w2 = log w1
    | Thrown e w1 => run code 5 p created = Thrown e w1
    | OutOfFuel => run code 5 p created = OutOfFuel
    end.
Proof.
  apply (observable_subscribe_registers code 4 5 true [("next", VFun 3)]
           created).
  - split; vm_compute; lia.
  - reflexivity.
Defined.

Example observer_registered :
  array_at watching (nextListeners watching) = [CUser 5] ∧
  code 5 [] = observeState code quiet ∧
  code 6 [] = observeState code loud.
Proof. repeat split. Qed.

(** The pass comes to the closure of the loud observer, whose [next]
    throws the state it is given. *)
Lemma observer_notified_witness :
  notify code 5 1 (nextListeners alarmed) 0 alarmed
    = match run code 4 (code 4 [currentState alarmed])
              (record (ENotify 1 (CUser 6) []) alarmed) with
      | Normal _ w' => notify code 4 1 (nextListeners alarmed) 1 w'
      | Thrown e w' => Thrown e w'
      | OutOfFuel => OutOfFuel
      end.
Proof.
  apply (observer_notified code 3 1 (nextListeners alarmed) 0 alarmed 6
           loud 4); reflexivity.
Defined.

Example loud_observer :
  notify code 5 1 (nextListeners alarmed) 0 alarmed
    = Thrown (ErrUser (VStr "none"))
        (record (ENotify 1 (CUser 6) []) alarmed).
Proof. reflexivity. Qed.

(** The pipeline of [A; B]. *)
Lemma applyMiddleware_installs_witness :
  ∃ store w,
    createStore Tagging.code Tagging.enhancers 5 [VFun 0] = Normal store w ∧
    st_subscribe piped = st_subscribe store ∧
    st_getState piped = st_getState store ∧
    st_replaceReducer piped = st_replaceReducer store ∧
    mwDispatch (set_mwDispatch (Some Tagging.enhanced) Tagging.created)
      = Some (st_dispatch piped) ∧
    (∀ m action,
       run Tagging.code (S m) (call (OApiDispatch action))
         (set_mwDispatch (Some Tagging.enhanced) Tagging.created)
         = run Tagging.code m (st_dispatch piped action)
             (record (EForward action true)
                (set_mwDispatch (Some Tagging.enhanced) Tagging.created))).
Proof.
  apply (applyMiddleware_installs Tagging.code 5
           [Tagging.tagger "A"; Tagging.tagger "B"]
           (createStore Tagging.code Tagging.enhancers) [VFun 0]
           piped (set_mwDispatch (Some Tagging.enhanced) Tagging.created)).
  reflexivity.
Defined.

(** The pipeline of a middleware that dispatches while it is
    instantiated. *)
Lemma applyMiddleware_failure_witness :
  createStore Tagging.code Tagging.enhancers 5 [VFun 0]
    = Thrown ErrDispatchWhileConstructing abandoned ∨
  (∃ store w,
     createStore Tagging.code Tagging.enhancers 5 [VFun 0] = Normal store w ∧
     mwDispatch abandoned = None ∧
     ∀ m action,
       run Tagging.code (S m) (call (OApiDispatch action)) abandoned
         = Thrown ErrDispatchWhileConstructing
             (record (EForward action false) abandoned)).
Proof.
  apply (applyMiddleware_failure Tagging.code 5
           [Tagging.impatient; Tagging.tagger "B"]
           (createStore Tagging.code Tagging.enhancers) [VFun 0]
           ErrDispatchWhileConstructing abandoned).
  reflexivity.
Defined.

(** [createStore(reducer, next, applyMiddleware())]: the function
    [next], given as the state, is called as an enhancer. *)
Lemma function_state_is_enhancer_witness :
  createStore code enhancing 6 [VFun 0; VFun 3; VFun 9]
    = applyMiddleware code [] (λ _, createStore code enhancing 5) 5
        [VFun 0; VFun 3] ∧
  createStore code enhancing 5 [VFun 0; VFun 3]
    = enhancing 3 (λ _, createStore code enhancing 4) 4 [VFun 0; VUndefined].
Proof.
  apply (function_state_is_enhancer code enhancing 4 (VFun 0) 3 9 []).
  reflexivity.
Defined.

Example function_state_called :
  createStore code enhancing 6 [VFun 0; VFun 3; VFun 9]
    = Thrown ErrNotCallable blank.
Proof. reflexivity. Qed.

(** The state across the dispatch whose second listener throws. *)
Lemma state_is_last_commit_witness :
  tracked (VStr "none") fragile ∧
  final (perform code 7 (ODispatch (addTodo (VStr "milk"))) fragile)
    = Some after_failure ∧
  currentState after_failure = last_state (VStr "none") (log after_failure).
Proof.
  assert (tracked (VStr "none") fragile) as Hw by reflexivity.
  split; [exact Hw|]. split; [reflexivity|].
  apply (state_is_last_commit code (VStr "none") 7
           (ODispatch (addTodo (VStr "milk"))) fragile after_failure);
    [exact Hw|reflexivity].
Defined.

End TodosFacts.

(** ** A listener that throws, and calls made later *)

Module AlarmFacts.
Import Alarm.

(** C1 as stated fails: listeners 1 and 2 are registered before the
    dispatch; listener 1 throws, and listener 2, which would subscribe
    listener 3, is not called during the pass of this transition. *)
Lemma pass_cut_short :
  array_at armed (nextListeners armed) = [CUser 1; CUser 2] ∧
  dispatch code 5 ring armed = Thrown (ErrUser (VStr "alarm")) tripped ∧
  notified (transitions armed) (log tripped) = [CUser 1] ∧
  CUser 2 ∈ array_at armed (nextListeners armed) ∧
  (CUser 2 ∉ notified (transitions armed) (log tripped)) ∧
  array_at tripped (nextListeners tripped) = [CUser 1; CUser 2] ∧
  subscriptions tripped = subscriptions armed ∧
  invoke code (perform code 3) (CUser 2) [] tripped
    = Normal VUndefined heard ∧
  array_at heard (nextListeners heard) = [CUser 1; CUser 2; CUser 3] ∧
  ¬ (notified (transitions armed) (log tripped)
       = array_at armed (nextListeners armed)).
Proof.
  repeat split.
  - apply elem_of_cons. right. apply elem_of_cons. by left.
  - intros [H|H]%elem_of_cons; [discriminate H|].
    by apply elem_of_nil in H.
  - intros H. discriminate H.
Qed.

(** C2 as stated fails: the action is plain and has a type, the flag
    is clear and the reducer returns; all the same [dispatch] does not
    return the action, with whatever number of nested calls it is
    allowed, and does not call listener 2. *)
Lemma dispatch_throws_with_listener :
  well_formed ring ∧
  isDispatching armed = false ∧
  invoke code (perform code 4) (CUser 0) [currentState armed; ring]
    (entering ring armed) = Normal (VNum 1) (entering ring armed) ∧
  dispatch code 5 ring armed = Thrown (ErrUser (VStr "alarm")) tripped ∧
  (∀ m w', dispatch code m ring armed ≠ Normal ring w') ∧
  getState tripped = Normal (VNum 1) tripped ∧
  array_at tripped (nextListeners tripped) = [CUser 1; CUser 2] ∧
  subscriptions tripped = subscriptions armed.
Proof.
  split; [split; reflexivity|]. split; [reflexivity|].
  split; [reflexivity|]. split; [reflexivity|].
  split; [|repeat split].
  intros m w' H.
  destruct (Nat.le_gt_cases 5 m) as [Hle|Hlt].
  - rewrite (proj1 (proj2 (fuel_mono code 5 m Hle)) ring armed) in H;
      [discriminate H|discriminate].
  - do 5 (destruct m as [|m]; [discriminate H|]). lia.
Qed.

(** X1 at the counter: the closure of listener 1 was called; INC was
    dispatched since and the reducer of a further dispatch is running. *)
Lemma unsubscribe_idempotent_witness :
  unsubscribe 0 Counter.subscribed = Normal VUndefined Counter.unsubscribed ∧
  later Counter.code Counter.unsubscribed reducing ∧
  isDispatching reducing = true ∧
  transitions reducing = 3 ∧
  unsubscribe 0 reducing = Normal VUndefined reducing.
Proof.
  assert (later Counter.code Counter.unsubscribed reducing) as Hlater.
  { apply (later_step _ _ resumed);
      [apply (step_call _ 6 (ODispatch Counter.inc)); reflexivity|].
    apply (later_step _ _ (set_isDispatching true resumed));
      [apply step_flag|].
    apply (later_step _ _ (begin_transition (set_isDispatching true resumed)));
      [apply step_transition|].
    apply (later_step _ _ reducing); [|apply later_now].
    apply (step_record _ (EReduce (transitions resumed) Counter.inc)). }
  split; [reflexivity|]. split; [exact Hlater|].
  split; [reflexivity|]. split; [reflexivity|].
  apply (unsubscribe_idempotent Counter.code 0 Counter.subscribed VUndefined
           Counter.unsubscribed reducing); [reflexivity|exact Hlater].
Defined.

End AlarmFacts.
